(** * Gemini Sculptor: a shallow embedding of [main.ts]

    The development follows the source file top-down: JavaScript strings and
    the built-ins the program calls, the pure helpers of [ClaySculptorAgent]
    ([generatePrompt], [generateFilename]), the effectful operations
    ([generateClayImage], [generateMultipleVariations]), the interactive
    session and the command-line front end.  The theorems come last. *)

From Stdlib Require Import ZArith NArith List Bool Lia String Ascii Decimal.
From Stdlib Require Import Permutation.
From Stdlib Require Import DecimalN.
Import ListNotations.

Local Open Scope list_scope.

(** ** JavaScript strings

    A JavaScript string is a sequence of UTF-16 code units; regular
    expressions without the [u] flag, [replace], [length] and [===] all work
    on code units, so that is the representation used here. *)

Module Js.

Definition char := N.
Definition jsstring := list char.

(** An ASCII literal of the source, as code units. *)
Definition lit (s : string) : jsstring :=
  List.map N_of_ascii (list_ascii_of_string s).

Definition emdash : char := 8212%N.   (* U+2014, one code unit *)

Definition streq (a b : jsstring) : bool :=
  if list_eq_dec N.eq_dec a b then true else false.

Section Classes.
Local Open Scope N_scope.

Definition is_digit (c : char) : bool := (48 <=? c) && (c <=? 57).
Definition is_upper (c : char) : bool := (65 <=? c) && (c <=? 90).
Definition is_lower (c : char) : bool := (97 <=? c) && (c <=? 122).

(** The character class [[a-zA-Z0-9]]. *)
Definition is_alnum (c : char) : bool := is_lower c || is_upper c || is_digit c.

(** ECMAScript LineTerminator: LF, CR, LS, PS. *)
Definition is_line_terminator (c : char) : bool :=
  (c =? 10) || (c =? 13) || (c =? 8232) || (c =? 8233).

(** ECMAScript [\s]: WhiteSpace and LineTerminator code points. *)
Definition is_space (c : char) : bool :=
  (c =? 9) || (c =? 11) || (c =? 12) || (c =? 32) || (c =? 160)
  || (c =? 5760) || ((8192 <=? c) && (c <=? 8202)) || (c =? 8239)
  || (c =? 8287) || (c =? 12288) || (c =? 65279) || is_line_terminator c.

(** [.] without the [s] flag. *)
Definition is_dot (c : char) : bool := negb (is_line_terminator c).

(** Case folding of a regular expression with the [i] flag and no [u] flag:
    a code unit above 127 never folds to an ASCII one, so against an ASCII
    letter only the two ASCII cases match. *)
Definition ascii_lower (c : char) : char := if is_upper c then c + 32 else c.

End Classes.

(** [String.prototype.toLowerCase], restricted to what the program observes:
    its results are only compared with [===] against the lowercase ASCII
    words quit, exit, help and clear.  The only code unit above 127 whose
    lowercase mapping is a single ASCII letter is U+212A (to k), and k occurs
    in none of the four words, so ASCII folding decides the same equalities. *)
Definition toLowerCase (s : jsstring) : jsstring := List.map ascii_lower s.

Fixpoint dropWhile (p : char -> bool) (s : jsstring) : jsstring :=
  match s with
  | [] => []
  | c :: s' => if p c then dropWhile p s' else s
  end.

(** [String.prototype.trim]: strips WhiteSpace and LineTerminator at both ends. *)
Definition trim (s : jsstring) : jsstring :=
  List.rev (dropWhile is_space (List.rev (dropWhile is_space s))).

(** *** Number to string

    [Number::toString] on a non-negative integer below 10^21 is its decimal
    representation without leading zeros. *)
Fixpoint uint_digits (d : Decimal.uint) : jsstring :=
  match d with
  | Nil => []
  | D0 d => 48%N :: uint_digits d
  | D1 d => 49%N :: uint_digits d
  | D2 d => 50%N :: uint_digits d
  | D3 d => 51%N :: uint_digits d
  | D4 d => 52%N :: uint_digits d
  | D5 d => 53%N :: uint_digits d
  | D6 d => 54%N :: uint_digits d
  | D7 d => 55%N :: uint_digits d
  | D8 d => 56%N :: uint_digits d
  | D9 d => 57%N :: uint_digits d
  end.

Definition Number_toString (n : N) : jsstring := uint_digits (N.to_uint n).

(** [String.prototype.padStart(k, "0")]. *)
Definition padStart0 (k : nat) (s : jsstring) : jsstring :=
  List.repeat 48%N (k - List.length s) ++ s.

(** [str.replace(/<class>/g, rep)] for a one-character class and a
    one-character replacement. *)
Definition replace_class (cls : char -> bool) (rep : char) (s : jsstring) : jsstring :=
  List.map (fun c => if cls c then rep else c) s.

(** Substring containment, [String.prototype.includes]. *)
Definition contains (sub s : jsstring) : Prop :=
  exists pre post, s = pre ++ sub ++ post.

Fixpoint prefixb (p s : jsstring) : bool :=
  match p, s with
  | [], _ => true
  | a :: p', b :: s' => N.eqb a b && prefixb p' s'
  | _ :: _, [] => false
  end.

Fixpoint includes (sub s : jsstring) : bool :=
  prefixb sub s ||
  match s with
  | [] => false
  | _ :: s' => includes sub s'
  end.

End Js.

Import Js.

(** ** [Date.prototype.toISOString]

    The time value is the number of milliseconds since the epoch, as
    [Date.now()] returns it.  The definitions are those of ECMA-262 (Day,
    DayFromYear, YearFromTime, MonthFromTime, DateFromTime, HourFromTime,
    ...). *)

Module JsDate.
Local Open Scope Z_scope.

Definition msPerDay : Z := 86400000.

Definition Day (t : Z) : Z := t / msPerDay.

Definition DayFromYear (y : Z) : Z :=
  365 * (y - 1970) + (y - 1969) / 4 - (y - 1901) / 100 + (y - 1601) / 400.

Definition InLeapYear (y : Z) : bool :=
  ((y mod 4 =? 0) && negb (y mod 100 =? 0)) || (y mod 400 =? 0).

(** The largest [y] with [DayFromYear y <= Day t]: the estimate from the mean
    length of a year is off by at most one. *)
Definition YearFromDay (d : Z) : Z :=
  let y0 := 1970 + (d * 400) / 146097 in
  if DayFromYear y0 >? d then y0 - 1
  else if DayFromYear (y0 + 1) <=? d then y0 + 1
  else y0.

Definition YearFromTime (t : Z) : Z := YearFromDay (Day t).

Definition DayWithinYear (t : Z) : Z := Day t - DayFromYear (YearFromTime t).

Definition leap_days (t : Z) : Z := if InLeapYear (YearFromTime t) then 1 else 0.

(** Zero-based month. *)
Definition MonthFromTime (t : Z) : Z :=
  let d := DayWithinYear t in
  let l := leap_days t in
  if d <? 31 then 0
  else if d <? 59 + l then 1
  else if d <? 90 + l then 2
  else if d <? 120 + l then 3
  else if d <? 151 + l then 4
  else if d <? 181 + l then 5
  else if d <? 212 + l then 6
  else if d <? 243 + l then 7
  else if d <? 273 + l then 8
  else if d <? 304 + l then 9
  else if d <? 334 + l then 10
  else 11.

Definition DateFromTime (t : Z) : Z :=
  let d := DayWithinYear t in
  let l := leap_days t in
  match MonthFromTime t with
  | 0 => d + 1
  | 1 => d - 30
  | 2 => d - 58 - l
  | 3 => d - 89 - l
  | 4 => d - 119 - l
  | 5 => d - 150 - l
  | 6 => d - 180 - l
  | 7 => d - 211 - l
  | 8 => d - 242 - l
  | 9 => d - 272 - l
  | 10 => d - 303 - l
  | _ => d - 333 - l
  end.

Definition HourFromTime (t : Z) : Z := (t / 3600000) mod 24.
Definition MinFromTime (t : Z) : Z := (t / 60000) mod 60.
Definition SecFromTime (t : Z) : Z := (t / 1000) mod 60.
Definition msFromTime (t : Z) : Z := t mod 1000.

Definition pad (k : nat) (n : Z) : jsstring :=
  padStart0 k (Number_toString (Z.to_N n)).

(** Four digits for the years 0 to 9999, otherwise a sign and six digits. *)
Definition year_string (y : Z) : jsstring :=
  if (0 <=? y) && (y <=? 9999) then pad 4 y
  else (if y <? 0 then lit "-" else lit "+") ++ pad 6 (Z.abs y).

Definition toISOString (t : Z) : jsstring :=
  year_string (YearFromTime t) ++ lit "-" ++ pad 2 (MonthFromTime t + 1)
  ++ lit "-" ++ pad 2 (DateFromTime t) ++ lit "T" ++ pad 2 (HourFromTime t)
  ++ lit ":" ++ pad 2 (MinFromTime t) ++ lit ":" ++ pad 2 (SecFromTime t)
  ++ lit "." ++ pad 3 (msFromTime t) ++ lit "Z".

(** The time values whose year is written with four digits (0000 to 9999). *)
Definition four_digit_year (t : Z) : Prop :=
  -62167219200000 <= t < 253402300800000.

End JsDate.

(** ** [ClaySculptorAgent]: the pure helpers *)

Definition defaultModel : jsstring := lit "imagen-4.0-generate-001".
Definition defaultOutputDir : jsstring := lit "./output".

Definition no_shadows_clause : jsstring := lit ", no shadows".

(** [generatePrompt(userInput, shadows?)]; an omitted [shadows] is [None]. *)
Definition generatePrompt (userInput : jsstring) (shadows : option bool) : jsstring :=
  lit "Stylized 3D cartoon prop of " ++ userInput
  ++ lit ", playful clay-like texture, smooth surface finish, modern and creative design "
  ++ [emdash] ++ lit " white background"
  ++ (if negb (match shadows with Some b => b | None => false end)
      then no_shadows_clause else [])
  ++ lit " " ++ [emdash] ++ lit " soft studio lighting " ++ [emdash]
  ++ lit " 1:1 aspect ratio " ++ [emdash] ++ lit " 1024x1024".

Definition is_colon_or_period (c : char) : bool := N.eqb c 58 || N.eqb c 46.

(** [new Date().toISOString().replace(/[:.]/g, "-")] at clock reading [now]. *)
Definition timestamp (now : Z) : jsstring :=
  replace_class is_colon_or_period 45%N (JsDate.toISOString now).

(** [userInput.replace(/[^a-zA-Z0-9]/g, "_")]. *)
Definition sanitize (userInput : jsstring) : jsstring :=
  replace_class (fun c => negb (is_alnum c)) 95%N userInput.

(** [generateFilename(userInput, isVariation = false, variationIndex?)], with
    the clock reading of [new Date()] as [now]. *)
Definition generateFilename (userInput : jsstring) (isVariation : bool)
    (variationIndex : option N) (now : Z) : jsstring :=
  let timestamp := timestamp now in
  let sanitizedInput := sanitize userInput in
  match isVariation, variationIndex with
  | true, Some i =>
      lit "clay_" ++ sanitizedInput ++ lit "_variation_"
      ++ Number_toString (i + 1) ++ lit "_" ++ timestamp ++ lit ".png"
  | _, _ => lit "clay_" ++ sanitizedInput ++ lit "_" ++ timestamp ++ lit ".png"
  end.


(** ** The process and its environment

    The program is effectful: it writes to the console and the spinner, makes
    directories, calls the image API, writes files and may end the process.
    A computation is modelled by the trace of what it did and how it ended;
    what the outside world answers (the API response, the clock, the file
    system) is an explicit input. *)

(** Errors raised by the runtime or by the network, not by the program. *)
Inductive RuntimeError :=
| AlreadyExists                          (* Deno.errors.AlreadyExists *)
| OtherRuntimeError (name : jsstring).

Inductive Error :=
| NoImagesGenerated                      (* new Error("No images generated") *)
| ImageHasNoBytes                        (* new Error("Generated image has no bytes") *)
| InvalidCharacterError                  (* DOMException thrown by atob *)
| TypeError                              (* a method called on undefined *)
| Runtime (e : RuntimeError)
| RangeError.                            (* "Invalid array length" *)

(** A JavaScript number as the program meets it: an integer or [NaN]. *)
Inductive number :=
| NaN
| Num (z : Z).

(** [a < b] and [a > b] on numbers: false when an operand is [NaN]. *)
Definition js_lt (a b : number) : bool :=
  match a, b with
  | Num x, Num y => Z.ltb x y
  | _, _ => false
  end.

Definition js_gt (a b : number) : bool := js_lt b a.

(** Console and spinner texts, by what they say. *)
Inductive Message :=
| MsgGeneratingImage (userInput : jsstring)      (* Generating clay image for: "..." *)
| MsgImageSaved (path : jsstring)                (* Clay image saved to: ... *)
| MsgErrorGeneratingImage (e : Error)            (* Error generating clay image: *)
| MsgGeneratingVariations (count : number) (userInput : jsstring)
                                                 (* Generating N variations of: "..." *)
| MsgVariationsGenerated (n : nat)               (* Generated n variations successfully *)
| MsgErrorGeneratingVariations (e : Error)       (* Error generating variations: *)
| MsgWelcome (outputDir : jsstring) (variations : number)
| MsgGoodbye                                     (* Thanks for creating with Gemini Sculptor! *)
| MsgSessionHelp
| MsgSpecifyRange                                (* Please specify 1-10 variations *)
| MsgBlank                                       (* console.log of the empty string *)
| MsgSessionError (e : Error)                    (* Error: *)
| MsgUsage                                       (* showHelp() *)
| MsgVersion                                     (* Gemini Sculptor v1.0.0 *)
| MsgCompleted                                   (* Clay generation completed successfully! *)
| MsgFatalError (e : Error)                      (* Fatal error: *)
| MsgApiKeyRequired      (* Error: GEMINI_API_KEY environment variable is required *)
| MsgApiKeyHint.         (* Set it with: export GEMINI_API_KEY='your-api-key-here' *)

Definition byte := N.

Inductive Event :=
| SpinnerMessage (m : Message)
| SpinnerStart
| SpinnerStop
| ConsoleLog (m : Message)
| ConsoleError (m : Message)
| ConsoleClear
| Mkdir (dir : jsstring)                          (* Deno.mkdir(dir, {recursive: true}) *)
| GenerateImages (model prompt : jsstring)        (* ai.models.generateImages, under retry *)
| WriteFile (path : jsstring) (bytes : list byte). (* Deno.writeFile *)

Inductive Outcome (A : Type) :=
| Returned (a : A)
| Thrown (e : Error)
| Exited (code : Z).                              (* Deno.exit(code) *)

Arguments Returned {A} a.
Arguments Thrown {A} e.
Arguments Exited {A} code.

Module Run.

Definition M (A : Type) : Type := list Event * Outcome A.

Definition ret {A} (a : A) : M A := ([], Returned a).

Definition bind {A B} (m : M A) (k : A -> M B) : M B :=
  match m with
  | (tr, Returned a) => let (tr', o) := k a in (tr ++ tr', o)
  | (tr, Thrown e) => (tr, Thrown e)
  | (tr, Exited c) => (tr, Exited c)
  end.

Definition emit (ev : Event) : M unit := ([ev], Returned tt).
Definition throw {A} (e : Error) : M A := ([], Thrown e).
Definition exit {A} (code : Z) : M A := ([], Exited code).

(** [try { m } catch (error) { h error }]. *)
Definition try_catch {A} (m : M A) (h : Error -> M A) : M A :=
  match m with
  | (tr, Thrown e) => let (tr', o) := h e in (tr ++ tr', o)
  | _ => m
  end.

Definition trace {A} (m : M A) : list Event := fst m.
Definition outcome {A} (m : M A) : Outcome A := snd m.

Definition emit_all (events : list Event) : M unit := (events, Returned tt).

(** A function called on each element in turn, as [Array.from] and [map]
    call theirs. *)
Fixpoint for_each {A B} (f : A -> M B) (l : list A) : M (list B) :=
  match l with
  | [] => ret []
  | a :: l' => bind (f a) (fun b => bind (for_each f l') (fun bs => ret (b :: bs)))
  end.

(** *** Asynchronous calls

    The program awaits three operations: making a directory, the request to
    the image API and writing a file.  An asynchronous call runs without a
    break up to the next of them, where it gives way to the event loop; it
    goes on when the operation has completed. *)
Definition awaited (ev : Event) : bool :=
  match ev with
  | Mkdir _ | GenerateImages _ _ | WriteFile _ _ => true
  | _ => false
  end.

(** The events of a call, cut after each awaited operation: the steps the
    call takes, one at a time. *)
Fixpoint steps (tr : list Event) : list (list Event) :=
  match tr with
  | [] => [[]]
  | ev :: tr' =>
      if awaited ev then [ev] :: steps tr'
      else match steps tr' with
           | step :: later => (ev :: step) :: later
           | [] => [[ev]]
           end
  end.

(** A promise that is running: the steps it has still to take and how it
    settles after the last of them. *)
Record Promise (A : Type) := {
  todo : list (list Event);
  settles : Outcome A
}.

Arguments todo {A} p.
Arguments settles {A} p.

(** The call of an asynchronous function that is not awaited, as in
    [const promise = f()]: the function runs up to its first [await] and the
    caller goes on with the promise. *)
Definition async {A} (body : M A) : M (Promise A) :=
  match steps (trace body) with
  | [] => ret {| todo := []; settles := outcome body |}
  | head :: later =>
      bind (emit_all head) (fun _ =>
      match later, outcome body with
      | [], Exited code => exit code
      | _, _ => ret {| todo := later; settles := outcome body |}
      end)
  end.

(** The promise of index [index] takes its next step, if it has one. *)
Fixpoint resume {A} (index : nat) (ps : list (Promise A)) {struct ps}
  : option (list Event * Promise A * list (Promise A)) :=
  match ps with
  | [] => None
  | p :: ps' =>
      match index with
      | O =>
          match todo p with
          | [] => None
          | step :: later =>
              let p' := {| todo := later; settles := settles p |} in
              Some (step, p', p' :: ps')
          end
      | S index' =>
          match resume index' ps' with
          | Some (step, p', ps'') => Some (step, p', p :: ps'')
          | None => None
          end
      end
  end.

(** One delivery of the event loop, in turn [turn], to the promise of index
    [index]: the promise takes its next step; when that was its last and it
    rejects, the join is rejected with its reason unless it was already. *)
Definition take_step {A} (turn index : nat) (ps : list (Promise A))
    (rejected : option (nat * Error))
  : M (list (Promise A) * option (nat * Error)) :=
  match resume index ps with
  | None => ret (ps, rejected)
  | Some (step, p, ps') =>
      bind (emit_all step) (fun _ =>
      match todo p, settles p with
      | [], Exited code => exit code
      | [], Thrown e =>
          ret (ps', match rejected with
                    | Some r => Some r
                    | None => Some (turn, e)
                    end)
      | _, _ => ret (ps', rejected)
      end)
  end.

(** The code that awaits a rejected join goes on at the end of the turn of
    the event loop in which the join was rejected. *)
Definition join_reacts (turn : nat) (rejected : option (nat * Error))
  : option Error :=
  match rejected with
  | Some (t, e) => if Nat.eqb turn t then None else Some e
  | None => None
  end.

(** The event loop while a join is awaited: [turns] lists its deliveries in
    order, each with its turn and the index of the promise that goes on. *)
Fixpoint serve {A} (turns : list (nat * nat)) (ps : list (Promise A))
    (rejected : option (nat * Error)) : M (list (Promise A)) :=
  match turns with
  | [] =>
      match rejected with
      | Some (_, e) => throw e
      | None => ret ps
      end
  | (turn, index) :: turns' =>
      match join_reacts turn rejected with
      | Some e => throw e
      | None =>
          bind (take_step turn index ps rejected)
            (fun '(ps', rejected') => serve turns' ps' rejected')
      end
  end.

(** Promises that [turns] leaves running are served to their end one after
    the other, in the order of their indices. *)
Fixpoint finish {A} (ps : list (Promise A)) : M unit :=
  match ps with
  | [] => ret tt
  | p :: ps' =>
      match todo p with
      | [] => finish ps'
      | _ :: _ =>
          bind (emit_all (List.concat (todo p))) (fun _ =>
          match settles p with
          | Returned _ => finish ps'
          | Thrown e => throw e
          | Exited code => exit code
          end)
      end
  end.

(** The first promise that was rejected before the join was made. *)
Fixpoint settled_rejected {A} (ps : list (Promise A)) : option Error :=
  match ps with
  | [] => None
  | p :: ps' =>
      match todo p, settles p with
      | [], Thrown e => Some e
      | _, _ => settled_rejected ps'
      end
  end.

Definition fulfilled {A} (ps : list (Promise A)) : list A :=
  List.flat_map (fun p => match settles p with Returned a => [a] | _ => [] end) ps.

(** [await Promise.all(promises)] on promises that are running: the event
    loop serves them in the order [turns] gives; the join is fulfilled with
    all the results, in the order of the indices, when every promise is
    fulfilled, and is rejected with the reason of the first promise that
    rejects.  The awaiting code goes on at the end of the turn in which the
    join settles: when the join is rejected, the promises that are still
    running then are left in flight, and what they do later is not part of
    the trace of the join. *)
Definition Promise_all {A} (turns : list (nat * nat)) (ps : list (Promise A))
  : M (list A) :=
  match settled_rejected ps with
  | Some e => throw e
  | None =>
      bind (serve turns ps None) (fun ps' =>
      bind (finish ps') (fun _ => ret (fulfilled ps')))
  end.

(** *** The order of the event loop

    The environment says when each awaited operation completes: the turn of
    the event loop that delivers it and its place among the deliveries of
    that turn.  The event loop serves the promises in that order; among
    deliveries with the same turn and place, the promise of lower index
    comes first. *)
Definition earlier (a b : nat * nat) : bool :=
  Nat.ltb (fst a) (fst b) || (Nat.eqb (fst a) (fst b) && Nat.leb (snd a) (snd b)).

Fixpoint insert_delivery (d : (nat * nat) * nat) (l : list ((nat * nat) * nat))
  : list ((nat * nat) * nat) :=
  match l with
  | [] => [d]
  | d' :: l' =>
      if earlier (fst d) (fst d') then d :: l else d' :: insert_delivery d l'
  end.

Fixpoint deliveries {A} (completion : nat -> nat -> nat * nat) (index : nat)
    (ps : list (Promise A)) : list ((nat * nat) * nat) :=
  match ps with
  | [] => []
  | p :: ps' =>
      List.map (fun k => (completion index k, index))
        (List.seq 0 (List.length (todo p)))
      ++ deliveries completion (S index) ps'
  end.

Definition event_loop {A} (completion : nat -> nat -> nat * nat)
    (ps : list (Promise A)) : list (nat * nat) :=
  List.map (fun d => (fst (fst d), snd d))
    (List.fold_right insert_delivery [] (deliveries completion 0 ps)).

End Run.

Import Run.

Declare Scope run_scope.
Delimit Scope run_scope with run.
Notation "x <- m ;; k" := (bind m (fun x => k))
  (at level 61, m at next level, right associativity) : run_scope.
Notation "m ;; k" := (bind m (fun _ => k))
  (at level 61, right associativity) : run_scope.
Local Open Scope run_scope.

(** *** The image API *)

(** [imageBytes] is a base64 string in the SDK's declaration; the program
    also accepts a [Uint8Array]. *)
Inductive ImageBytes :=
| Base64 (s : jsstring)
| Raw (bytes : list byte).

Record Image := { imageBytes : option ImageBytes }.
Record GeneratedImage := { image : option Image }.
Record GenerateImagesResponse := { generatedImages : option (list GeneratedImage) }.

(** JavaScript truthiness of a possibly undefined string. *)
Definition truthy_string (s : option jsstring) : option jsstring :=
  match s with
  | Some (_ :: _) => s
  | _ => None
  end.

(** [a || b] on strings. *)
Definition or_string (a : option jsstring) (b : jsstring) : jsstring :=
  match truthy_string a with Some s => s | None => b end.

(** [image?.image?.imageBytes], when truthy: a non-empty string or any
    [Uint8Array]. *)
Definition truthy_imageBytes (img : GeneratedImage) : option ImageBytes :=
  match image img with
  | Some i =>
      match imageBytes i with
      | Some (Base64 []) => None
      | b => b
      end
  | None => None
  end.

(** *** [atob]: the forgiving-base64 decode of the WHATWG Infra standard *)
Module Base64.
Local Open Scope N_scope.

Definition is_ascii_whitespace (c : char) : bool :=
  (c =? 9) || (c =? 10) || (c =? 12) || (c =? 13) || (c =? 32).

Definition sextet (c : char) : option N :=
  if is_upper c then Some (c - 65)
  else if is_lower c then Some (c - 71)
  else if is_digit c then Some (c + 4)
  else if c =? 43 then Some 62
  else if c =? 47 then Some 63
  else None.

Fixpoint sextets (s : jsstring) : option (list N) :=
  match s with
  | [] => Some []
  | c :: s' =>
      match sextet c, sextets s' with
      | Some v, Some vs => Some (v :: vs)
      | _, _ => None
      end
  end.

Fixpoint decode (l : list N) : list byte :=
  match l with
  | a :: b :: c :: d :: rest =>
      let n := a * 262144 + b * 4096 + c * 64 + d in
      (n / 65536) :: ((n / 256) mod 256) :: (n mod 256) :: decode rest
  | [a; b; c] =>
      let n := a * 4096 + b * 64 + c in
      [n / 1024; (n / 4) mod 256]
  | [a; b] => [(a * 64 + b) / 16]
  | _ => []
  end.

(** Removes one or two trailing [=] when the length is a multiple of four. *)
Definition strip_padding (data : jsstring) : jsstring :=
  if (N.of_nat (List.length data) mod 4 =? 0) then
    match List.rev data with
    | 61 :: 61 :: r => List.rev r
    | 61 :: r => List.rev r
    | _ => data
    end
  else data.

(** The binary string [atob] returns, or [None] when it throws. *)
Definition atob (s : jsstring) : option jsstring :=
  let data := strip_padding (List.filter (fun c => negb (is_ascii_whitespace c)) s) in
  if (N.of_nat (List.length data) mod 4 =? 1) then None
  else option_map decode (sextets data).

End Base64.

(** The loop [bytes[i] = binaryString.charCodeAt(i)] into a [Uint8Array]. *)
Definition Uint8Array_of_binary (binaryString : jsstring) : list byte :=
  List.map (fun c => (c mod 256)%N) binaryString.

(** *** What the world answers to one [generateClayImage] call *)
Record CallEnv := {
  mkdir_result : option RuntimeError;        (* the rejection of Deno.mkdir, if any *)
  api_result : RuntimeError + option GenerateImagesResponse;
                                              (* what retry(generateImages) settles to *)
  clock : Z;                                  (* new Date() in generateFilename *)
  write_result : option RuntimeError          (* the rejection of Deno.writeFile, if any *)
}.

(** ** [ClaySculptorAgent] *)

Record ClaySculptorOptions := {
  opt_model : option jsstring;
  opt_outputDir : option jsstring;
  opt_variations : option number;
  opt_shadows : option bool
}.

(** [ClayGenerationConfig extends ClaySculptorOptions]. *)
Record ClayGenerationConfig := {
  userInput : jsstring;
  outputPath : option jsstring;
  model : option jsstring;
  outputDir : option jsstring;
  variations : option number;
  shadows : option bool
}.

Record ClaySculptorAgent := {
  apiKey : jsstring;
  agent_shadows : bool
}.

(** [new ClaySculptorAgent(apiKey, shadows = false)]. *)
Definition new_ClaySculptorAgent (apiKey : jsstring) (shadows : option bool)
  : ClaySculptorAgent :=
  {| apiKey := apiKey;
     agent_shadows := match shadows with Some b => b | None => false end |}.

(** A destructuring default: it applies to [undefined] only. *)
Definition default {A} (v : option A) (d : A) : A :=
  match v with Some a => a | None => d end.

Definition ensureOutputDirectory (dir : jsstring) (result : option RuntimeError)
  : M unit :=
  try_catch
    (emit (Mkdir dir) ;;
     match result with
     | None => ret tt
     | Some e => throw (Runtime e)
     end)
    (fun error =>
       match error with
       | Runtime AlreadyExists => ret tt
       | _ => throw error
       end).

Definition retry_generateImages (model prompt : jsstring)
    (result : RuntimeError + option GenerateImagesResponse)
  : M (option GenerateImagesResponse) :=
  emit (GenerateImages model prompt) ;;
  match result with
  | inl e => throw (Runtime e)
  | inr response => ret response
  end.

Definition writeFile (path : jsstring) (bytes : list byte)
    (result : option RuntimeError) : M unit :=
  emit (WriteFile path bytes) ;;
  match result with
  | None => ret tt
  | Some e => throw (Runtime e)
  end.

Definition generateClayImage (this : ClaySculptorAgent)
    (config : ClayGenerationConfig) (env : CallEnv) : M jsstring :=
  let userInput := userInput config in
  let outputPath := outputPath config in
  let model := default (model config) defaultModel in
  let shadows := default (shadows config) (agent_shadows this) in
  let outputDir := default (outputDir config) defaultOutputDir in
  emit (SpinnerMessage (MsgGeneratingImage userInput)) ;;
  emit SpinnerStart ;;
  try_catch
    (ensureOutputDirectory outputDir (mkdir_result env) ;;
     response <- retry_generateImages model
                   (generatePrompt userInput (Some shadows)) (api_result env) ;;
     match match response with Some r => generatedImages r | None => None end with
     | None | Some [] => throw NoImagesGenerated
     | Some (image :: _) =>
         match truthy_imageBytes image with
         | None => throw ImageHasNoBytes
         | Some imageBytes =>
             let filename := generateFilename userInput false None (clock env) in
             let finalOutputPath :=
               or_string outputPath (outputDir ++ lit "/" ++ filename) in
             match imageBytes with
             | Base64 s =>
                 match Base64.atob s with
                 | None => throw InvalidCharacterError
                 | Some binaryString =>
                     writeFile finalOutputPath (Uint8Array_of_binary binaryString)
                       (write_result env)
                 end
             | Raw bytes => writeFile finalOutputPath bytes (write_result env)
             end ;;
             emit SpinnerStop ;;
             emit (ConsoleLog (MsgImageSaved finalOutputPath)) ;;
             ret finalOutputPath
         end
     end)
    (fun error =>
       emit SpinnerStop ;;
       emit (ConsoleError (MsgErrorGeneratingImage error)) ;;
       throw error).

(** What the world answers to one variation: the clock when its file name
    is made, the answers to its [generateClayImage] call, and when the
    operations the call awaits complete: for the k-th of them, the turn of
    the event loop that delivers it and its place in that turn. *)
Record VariationEnv := {
  name_clock : Z;
  call_env : CallEnv;
  completion : nat -> nat * nat
}.

(** [ToLength] as an integer: [NaN] and negative numbers become zero and
    nothing exceeds 2^53 - 1. *)
Definition ToLength_integer (n : number) : Z :=
  match n with
  | NaN => 0
  | Num z => Z.min (Z.max 0 z) 9007199254740991
  end.

Definition ToLength (n : number) : nat := Z.to_nat (ToLength_integer n).

(** [Array.from({ length: count }, (_, index) => f index)]: the array is
    made first, and a length above 2^32 - 1 is a [RangeError]; then [f] is
    called for each index in turn. *)
Definition Array_from_length {A} (count : number) (f : nat -> M A) : M (list A) :=
  if (ToLength_integer count <=? 4294967295)%Z
  then for_each f (List.seq 0 (ToLength count))
  else throw RangeError.

Definition variation_config (this : ClaySculptorAgent) (userInput : jsstring)
    (index : nat) (now : Z) : ClayGenerationConfig :=
  {| userInput := userInput;
     outputPath := Some (defaultOutputDir ++ lit "/"
                         ++ generateFilename userInput true (Some (N.of_nat index)) now);
     model := Some defaultModel;
     outputDir := Some defaultOutputDir;
     variations := None;
     shadows := Some (agent_shadows this) |}.

(** [generateMultipleVariations(userInput, count = 3)]. *)
Definition generateMultipleVariations (this : ClaySculptorAgent)
    (userInput : jsstring) (count : option number) (env : nat -> VariationEnv)
  : M (list jsstring) :=
  let count := default count (Num 3) in
  emit (SpinnerMessage (MsgGeneratingVariations count userInput)) ;;
  emit SpinnerStart ;;
  promises <-
    Array_from_length count (fun index =>
      async
        (generateClayImage this
           (variation_config this userInput index (name_clock (env index)))
           (call_env (env index)))) ;;
  try_catch
    (results <- Promise_all
                  (event_loop (fun index => completion (env index)) promises)
                  promises ;;
     emit SpinnerStop ;;
     emit (ConsoleLog (MsgVariationsGenerated (List.length results))) ;;
     ret results)
    (fun error =>
       emit SpinnerStop ;;
       emit (ConsoleError (MsgErrorGeneratingVariations error)) ;;
       throw error).

(** ** Built-ins of the interactive session and of the command line *)

(** *** The regular expression of the variations command

    A backtracking matcher in continuation-passing style, as ECMAScript
    specifies it: a greedy quantifier first takes all it can and gives back
    one character at a time while the rest of the pattern fails. *)
Module Regex.

Section Matcher.
Context {R : Type}.

(** [cls*], greedy; the continuation gets the matched text and the rest. *)
Fixpoint star (cls : char -> bool) (s : jsstring)
    (k : jsstring -> jsstring -> option R) : option R :=
  match s with
  | c :: s' =>
      if cls c then
        match star cls s' (fun m rest => k (c :: m) rest) with
        | Some r => Some r
        | None => k [] s
        end
      else k [] s
  | [] => k [] []
  end.

(** [cls+], greedy. *)
Definition plus (cls : char -> bool) (s : jsstring)
    (k : jsstring -> jsstring -> option R) : option R :=
  match s with
  | c :: s' => if cls c then star cls s' (fun m rest => k (c :: m) rest) else None
  | [] => None
  end.

(** A lowercase ASCII word under the [i] flag. *)
Fixpoint literal_i (word : jsstring) (s : jsstring)
    (k : jsstring -> option R) : option R :=
  match word, s with
  | [], _ => k s
  | w :: word', c :: s' =>
      if N.eqb (ascii_lower c) w then literal_i word' s' k else None
  | _ :: _, [] => None
  end.

End Matcher.

(** [input.match(/^variations\s+(\d+)\s+(.+)$/i)]: the two capture groups. *)
Definition match_variations (input : jsstring) : option (jsstring * jsstring) :=
  literal_i (lit "variations") input (fun s1 =>
  plus is_space s1 (fun _ s2 =>
  plus is_digit s2 (fun g1 s3 =>
  plus is_space s3 (fun _ s4 =>
  plus is_dot s4 (fun g2 s5 =>
  match s5 with
  | [] => Some (g1, g2)
  | _ :: _ => None
  end))))).

End Regex.

(** *** [parseInt(string)] with no radix

    Leading white space is skipped, a sign is read, [0x] selects radix 16,
    and the longest prefix of digits is read; no digit gives [NaN].  The
    rounding to a double of values above 2^53 is not modelled. *)
Module ParseInt.
Local Open Scope N_scope.

Definition digit_value (radix : N) (c : char) : option N :=
  let v := if is_digit c then Some (c - 48)
           else if is_lower c then Some (c - 87)
           else if is_upper c then Some (c - 55)
           else None in
  match v with
  | Some d => if d <? radix then Some d else None
  | None => None
  end.

Fixpoint parse_digits (radix : N) (acc : option N) (s : jsstring) : option N :=
  match s with
  | c :: s' =>
      match digit_value radix c with
      | Some d =>
          parse_digits radix
            (Some (match acc with Some a => a | None => 0 end * radix + d)) s'
      | None => acc
      end
  | [] => acc
  end.

Definition parseInt (s : jsstring) : number :=
  let s := dropWhile is_space s in
  let '(negative, s) :=
    match s with
    | c :: r =>
        if c =? 45 then (true, r)          (* - *)
        else if c =? 43 then (false, r)    (* + *)
        else (false, s)
    | [] => (false, s)
    end in
  let '(radix, s) :=
    match s with
    | a :: b :: r =>
        if (a =? 48) && ((b =? 120) || (b =? 88)) then (16, r)   (* 0x, 0X *)
        else (10, s)
    | _ => (10, s)
    end in
  match parse_digits radix None s with
  | None => NaN
  | Some n => Num (if negative then - Z.of_N n else Z.of_N n)
  end.

End ParseInt.

Import ParseInt.

(** [a || b] on numbers: 0, [NaN] and [undefined] are falsy. *)
Definition or_number (a : option number) (b : number) : number :=
  match a with
  | Some (Num z) => if Z.eqb z 0 then b else Num z
  | _ => b
  end.

(** [a || false] on a possibly undefined boolean. *)
Definition or_false (a : option bool) : bool :=
  match a with Some b => b | None => false end.

(** ** [InteractiveClaySculptor] *)

Record InteractiveClaySculptor := {
  agent : ClaySculptorAgent;
  options : ClaySculptorOptions
}.

(** [new InteractiveClaySculptor(apiKey, options = {})]. *)
Definition new_InteractiveClaySculptor (apiKey : jsstring)
    (options : ClaySculptorOptions) : InteractiveClaySculptor :=
  {| agent := new_ClaySculptorAgent apiKey (opt_shadows options);
     options :=
       {| opt_model := Some (or_string (opt_model options) (lit "imagen-4.0-generate-001"));
          opt_outputDir := Some (or_string (opt_outputDir options) (lit "./output"));
          opt_variations := Some (or_number (opt_variations options) (Num 3));
          opt_shadows := Some (or_false (opt_shadows options)) |} |}.

(** What the world answers during one command of the session. *)
Record CommandEnv := {
  single_env : CallEnv;
  variations_env : nat -> VariationEnv
}.

Definition handleVariationsCommand (this : InteractiveClaySculptor)
    (input : jsstring) (env : nat -> VariationEnv) : M bool :=
  match Regex.match_variations input with
  | None => ret false
  | Some (group1, group2) =>
      let count := parseInt group1 in
      let description := trim group2 in
      if js_lt count (Num 1) || js_gt count (Num 10) then
        emit (ConsoleLog MsgSpecifyRange) ;;
        ret true
      else
        emit (ConsoleLog (MsgGeneratingVariations count description)) ;;
        generateMultipleVariations (agent this) description (Some count) env ;;
        ret true
  end.

Definition generateSingleImage (this : InteractiveClaySculptor)
    (description : jsstring) (env : CallEnv) : M unit :=
  generateClayImage (agent this)
    {| userInput := description;
       outputPath := None;
       model := opt_model (options this);
       outputDir := opt_outputDir (options this);
       variations := None;
       shadows := opt_shadows (options this) |} env ;;
  ret tt.

(** Returns [true] when the session is to end. *)
Definition handleCommand (this : InteractiveClaySculptor) (input : jsstring)
    (env : CommandEnv) : M bool :=
  let lowerInput := toLowerCase input in
  if streq lowerInput (lit "quit") || streq lowerInput (lit "exit") then
    emit (ConsoleLog MsgGoodbye) ;;
    ret true
  else if streq lowerInput (lit "help") then
    emit (ConsoleLog MsgSessionHelp) ;;
    ret false
  else if streq lowerInput (lit "clear") then
    emit ConsoleClear ;;
    ret false
  else
    handled <- handleVariationsCommand this input (variations_env env) ;;
    if handled then ret false
    else
      generateSingleImage this input (single_env env) ;;
      emit (ConsoleLog MsgBlank) ;;
      ret false.

(** One turn of the [while (true)] loop on what [prompt] returned ([None] is
    [null]); [true] is [break]. *)
Definition session_turn (this : InteractiveClaySculptor)
    (input : option jsstring) (env : CommandEnv) : M bool :=
  try_catch
    (match input with
     | None => ret false
     | Some text =>
         match trim text with
         | [] => ret false
         | command => handleCommand this command env
         end
     end)
    (fun error =>
       emit (ConsoleError (MsgSessionError error)) ;;
       emit (ConsoleLog MsgBlank) ;;
       ret false).

Inductive SessionState :=
| AwaitingInput
| Terminated.

(** The loop over the lines read so far. *)
Fixpoint session_loop (this : InteractiveClaySculptor)
    (inputs : list (option jsstring * CommandEnv)) : M SessionState :=
  match inputs with
  | [] => ret AwaitingInput
  | (input, env) :: rest =>
      stop <- session_turn this input env ;;
      if stop then ret Terminated else session_loop this rest
  end.

Definition showWelcomeMessage (this : InteractiveClaySculptor) : M unit :=
  emit (ConsoleLog
          (MsgWelcome (or_string (opt_outputDir (options this)) (lit "./output"))
                      (or_number (opt_variations (options this)) (Num 3)))).

Definition startInteractiveSession (this : InteractiveClaySculptor)
    (inputs : list (option jsstring * CommandEnv)) : M SessionState :=
  emit SpinnerStop ;;
  showWelcomeMessage this ;;
  session_loop this inputs.

(** ** The command line *)

(** The result of [parseArgs]; [--variations] is declared a string option
    there, whatever the interface [CliArgs] says. *)
Record CliArgs := {
  arg_interactive : option bool;
  arg_variations : option jsstring;
  arg_output : option jsstring;
  arg_output_dir : option jsstring;
  arg_model : option jsstring;
  arg_help : option bool;
  arg_version : option bool;
  arg_shadows : option bool;
  arg_positional : list jsstring       (* args._ *)
}.

(** What the world gives to one run of the process. *)
Record ProcessEnv := {
  GEMINI_API_KEY : option jsstring;     (* Deno.env.get("GEMINI_API_KEY") *)
  command_env : CommandEnv;             (* for the single command *)
  stdin : list (option jsstring * CommandEnv)   (* for the session *)
}.

Definition getApiKey (env : ProcessEnv) : M jsstring :=
  match truthy_string (GEMINI_API_KEY env) with
  | None =>
      emit (ConsoleError MsgApiKeyRequired) ;;
      emit (ConsoleLog MsgApiKeyHint) ;;
      exit 1%Z
  | Some apiKey => ret apiKey
  end.

Definition showHelp : M unit := emit (ConsoleLog MsgUsage).

Definition runSingleCommandMode (args : CliArgs) (env : ProcessEnv) : M unit :=
  let variations :=
    match truthy_string (arg_variations args) with
    | Some v => parseInt v
    | None => Num 1
    end in
  let outputPath := arg_output args in
  apiKey <- getApiKey env ;;
  let agent := new_ClaySculptorAgent apiKey (Some (or_false (arg_shadows args))) in
  try_catch
    (match arg_positional args with
     | userInput :: _ =>
         (if js_gt variations (Num 1) then
            generateMultipleVariations agent userInput (Some variations)
              (variations_env (command_env env)) ;;
            ret tt
          else
            generateClayImage agent
              {| userInput := userInput;
                 outputPath :=
                   Some (or_string outputPath
                           (lit "./output/" ++ sanitize userInput ++ lit ".png"));
                 model := Some (or_string (arg_model args) (lit "imagen-4.0-generate-001"));
                 outputDir := Some (or_string (arg_output_dir args) (lit "./output"));
                 variations := None;
                 shadows := Some (or_false (arg_shadows args)) |}
              (single_env (command_env env)) ;;
            ret tt) ;;
         emit (ConsoleLog MsgCompleted)
     | [] =>
         (* args._[0] is undefined: main never gets here *)
         (if js_gt variations (Num 1) then
            emit (SpinnerMessage (MsgGeneratingVariations variations (lit "undefined"))) ;;
            emit SpinnerStart
          else ret tt) ;;
         throw TypeError
     end)
    (fun error =>
       emit (ConsoleError (MsgFatalError error)) ;;
       exit 1%Z).

(** The loop of the session ends on quit or exit only: the mode has returned
    when the session is [Terminated]; in [AwaitingInput] it has not, the
    process is still running and waits for its next line. *)
Definition runInteractiveMode (args : CliArgs) (env : ProcessEnv) : M SessionState :=
  let options :=
    {| opt_model := Some (or_string (arg_model args) (lit "imagen-4.0-generate-001"));
       opt_outputDir := Some (or_string (arg_output_dir args) (lit "./output"));
       opt_variations := Some (Num 3);
       opt_shadows := Some (or_false (arg_shadows args)) |} in
  apiKey <- getApiKey env ;;
  try_catch
    (let interactiveAgent := new_InteractiveClaySculptor apiKey options in
     startInteractiveSession interactiveAgent (stdin env))
    (fun error =>
       emit (ConsoleError (MsgFatalError error)) ;;
       exit 1%Z).

(** [main] has returned when its result is [Terminated]; in interactive mode
    it may still be waiting for a line. *)
Definition main (args : CliArgs) (env : ProcessEnv) : M SessionState :=
  if or_false (arg_help args) then showHelp ;; ret Terminated
  else if or_false (arg_version args) then
    emit (ConsoleLog MsgVersion) ;; ret Terminated
  else if or_false (arg_interactive args) then runInteractiveMode args env
  else match arg_positional args with
       | [] => showHelp ;; ret Terminated
       | _ :: _ => runSingleCommandMode args env ;; ret Terminated
       end.

(** The exit code of a process that has ended: 0 unless [Deno.exit] gave
    another one or an exception escaped. *)
Definition exit_code {A} (m : M A) : Z :=
  match outcome m with
  | Returned _ => 0%Z
  | Thrown _ => 1%Z
  | Exited code => code
  end.

(** ** Vocabulary of the statements *)

(** The number a string of decimal digits denotes. *)
Definition digits_value (s : jsstring) : Z :=
  List.fold_left (fun acc c => (acc * 10 + (Z.of_N c - 48))%Z) s 0%Z.


(** The optional segment [variation_<n+1>_] of a file name. *)
Definition variation_segment (isVariation : bool) (variationIndex : option N)
  : jsstring :=
  match isVariation, variationIndex with
  | true, Some n => lit "variation_" ++ Number_toString (n + 1) ++ lit "_"
  | _, _ => []
  end.


(** The fixed stylistic qualifiers of a prompt: clay texture, smooth finish,
    white background, soft studio lighting, 1:1 aspect ratio, 1024x1024. *)
Definition fixed_qualifiers : list jsstring :=
  [ lit "playful clay-like texture"; lit "smooth surface finish";
    lit "white background"; lit "soft studio lighting";
    lit "1:1 aspect ratio"; lit "1024x1024" ].







(** The path [generateClayImage] resolves for a request. *)
Definition resolved_path (config : ClayGenerationConfig) (env : CallEnv) : jsstring :=
  or_string (outputPath config)
    (default (outputDir config) defaultOutputDir ++ lit "/"
     ++ generateFilename (userInput config) false None (clock env)).

(** The request gets its path from [generateFilename] read at clock [t]:
    either it has no explicit output path, and [generateClayImage] makes the
    name, or it is a variation, whose path [generateMultipleVariations] made. *)
Definition path_clock (config : ClayGenerationConfig) (env : CallEnv) (t : Z)
  : Prop :=
  (truthy_string (outputPath config) = None /\ t = clock env)
  \/ (exists this d index, config = variation_config this d index t).

(** The path of variation [index] of a batch. *)
Definition variation_path (userInput : jsstring) (index : nat) (now : Z) : jsstring :=
  defaultOutputDir ++ lit "/"
  ++ generateFilename userInput true (Some (N.of_nat index)) now.

(** The call [generateMultipleVariations] makes for variation [index]. *)
Definition variation_call (this : ClaySculptorAgent) (userInput : jsstring)
    (env : nat -> VariationEnv) (index : nat) : M jsstring :=
  generateClayImage this
    (variation_config this userInput index (name_clock (env index)))
    (call_env (env index)).

(** ** Sample data for the worked examples *)

Definition sample_image : GeneratedImage :=
  {| image := Some {| imageBytes := Some (Base64 (lit "aGVsbG8=")) |} |}.

Definition sample_response : option GenerateImagesResponse :=
  Some {| generatedImages := Some [sample_image] |}.

Definition empty_response : option GenerateImagesResponse :=
  Some {| generatedImages := Some [] |}.

Definition sample_call_env (now : Z) : CallEnv :=
  {| mkdir_result := None;
     api_result := inr sample_response;
     clock := now;
     write_result := None |}.

Definition failing_call_env (now : Z) : CallEnv :=
  {| mkdir_result := None;
     api_result := inr empty_response;
     clock := now;
     write_result := None |}.

(** Every variation succeeds, and the calls complete one after the other:
    all the operations of variation [index] in turn [index]. *)
Definition sample_variations_env (index : nat) : VariationEnv :=
  {| name_clock := 1700000000000 + Z.of_nat index;
     call_env := sample_call_env (1700000002000 + Z.of_nat index);
     completion := fun _ => (index, 0%nat) |}.

(** The second variation gets an empty response. *)
Definition failing_variations_env (index : nat) : VariationEnv :=
  {| name_clock := 1700000000000 + Z.of_nat index;
     call_env := if Nat.eqb index 1 then failing_call_env 1700000002000
                 else sample_call_env (1700000002000 + Z.of_nat index);
     completion := fun _ => (index, 0%nat) |}.




(** What happens in one [generateClayImage] call for [config]. *)
Definition call_event (this : ClaySculptorAgent) (config : ClayGenerationConfig)
    (env : CallEnv) (ev : Event) : Prop :=
  match ev with
  | SpinnerMessage m => m = MsgGeneratingImage (userInput config)
  | SpinnerStart | SpinnerStop => True
  | Mkdir dir => dir = default (outputDir config) defaultOutputDir
  | GenerateImages m p =>
      m = default (model config) defaultModel
      /\ p = generatePrompt (userInput config)
               (Some (default (shadows config) (agent_shadows this)))
  | WriteFile p _ => p = resolved_path config env
  | ConsoleLog m => m = MsgImageSaved (resolved_path config env)
  | ConsoleError m => exists e, m = MsgErrorGeneratingImage e
  | ConsoleClear => False
  end.

(** The paths written, the models requested and the directories made
    during a run, in order. *)
Definition written_paths (tr : list Event) : list jsstring :=
  List.flat_map (fun ev => match ev with WriteFile p _ => [p] | _ => [] end) tr.

Definition requested_models (tr : list Event) : list jsstring :=
  List.flat_map (fun ev => match ev with GenerateImages m _ => [m] | _ => [] end) tr.

Definition made_directories (tr : list Event) : list jsstring :=
  List.flat_map (fun ev => match ev with Mkdir d => [d] | _ => [] end) tr.

Definition sample_agent : ClaySculptorAgent :=
  new_ClaySculptorAgent (lit "api-key") None.

Definition sample_config : ClayGenerationConfig :=
  {| userInput := lit "cute robot";
     outputPath := None;
     model := None;
     outputDir := Some (lit "./output");
     variations := None;
     shadows := None |}.

(** [deno task start "cat"]. *)
Definition cat_args : CliArgs :=
  {| arg_interactive := None; arg_variations := None; arg_output := None;
     arg_output_dir := Some (lit "./output"); arg_model := None;
     arg_help := Some false; arg_version := Some false;
     arg_shadows := Some false; arg_positional := [lit "cat"] |}.

(** [deno task start "magical castle" --output-dir ./my_creations]. *)
Definition castle_args : CliArgs :=
  {| arg_interactive := None; arg_variations := None; arg_output := None;
     arg_output_dir := Some (lit "./my_creations"); arg_model := None;
     arg_help := Some false; arg_version := Some false;
     arg_shadows := Some false; arg_positional := [lit "magical castle"] |}.

(** A run in which the key is set and every call succeeds, the single
    command reading the clock at [now]. *)
Definition sample_process_env (now : Z) : ProcessEnv :=
  {| GEMINI_API_KEY := Some (lit "api-key");
     command_env := {| single_env := sample_call_env now;
                       variations_env := sample_variations_env |};
     stdin := [] |}.

(** The same run without the key. *)
Definition keyless_process_env : ProcessEnv :=
  {| GEMINI_API_KEY := None;
     command_env := {| single_env := sample_call_env 1700000000000;
                       variations_env := sample_variations_env |};
     stdin := [] |}.

(** [deno task start -i --output-dir ./my_creations --model custom-model]. *)
Definition custom_session : InteractiveClaySculptor :=
  new_InteractiveClaySculptor (lit "api-key")
    {| opt_model := Some (lit "custom-model");
       opt_outputDir := Some (lit "./my_creations");
       opt_variations := Some (Num 3);
       opt_shadows := Some false |}.

Definition sample_command_env : CommandEnv :=
  {| single_env := sample_call_env 1700000000000;
     variations_env := sample_variations_env |}.

(** What the process prints when the key is missing. *)
Definition missing_key_trace : list Event :=
  [ConsoleError MsgApiKeyRequired; ConsoleLog MsgApiKeyHint].

(** The handler of the [try] in both run modes. *)
Definition fatal {A} (error : Error) : M A :=
  emit (ConsoleError (MsgFatalError error)) ;; exit 1%Z.

(** The request of the single command when no variations are asked for. *)
Definition single_command_config (args : CliArgs) (userInput : jsstring)
  : ClayGenerationConfig :=
  {| userInput := userInput;
     outputPath :=
       Some (or_string (arg_output args)
               (lit "./output/" ++ sanitize userInput ++ lit ".png"));
     model := Some (or_string (arg_model args) (lit "imagen-4.0-generate-001"));
     outputDir := Some (or_string (arg_output_dir args) (lit "./output"));
     variations := None;
     shadows := Some (or_false (arg_shadows args)) |}.

(** [deno task start "cat" --variations 15]. *)
Definition fifteen_args : CliArgs :=
  {| arg_interactive := None; arg_variations := Some (lit "15");
     arg_output := None; arg_output_dir := Some (lit "./output");
     arg_model := None; arg_help := Some false; arg_version := Some false;
     arg_shadows := Some false; arg_positional := [lit "cat"] |}.

(** The check behind the padding tables: [pad k n] has [k] digits and
    denotes [n]. *)
Definition pad_ok (k : nat) (n : Z) : bool :=
  Nat.eqb (List.length (JsDate.pad k n)) k && Z.eqb (digits_value (JsDate.pad k n)) n.


(** A prompt is [prompt_head ++ description ++ prompt_tail shadows]. *)
Definition prompt_head : jsstring := lit "Stylized 3D cartoon prop of ".

Definition prompt_tail (shadows : bool) : jsstring :=
  lit ", playful clay-like texture, smooth surface finish, modern and creative design "
  ++ [emdash] ++ lit " white background"
  ++ (if negb shadows then no_shadows_clause else [])
  ++ lit " " ++ [emdash] ++ lit " soft studio lighting " ++ [emdash]
  ++ lit " 1:1 aspect ratio " ++ [emdash] ++ lit " 1024x1024".

(** The events the promises have still to make, promise by promise. *)
Definition remaining {A} (ps : list (Promise A)) : list Event :=
  List.concat (List.map (fun p => List.concat (todo p)) ps).

(** A promise that is still running or is fulfilled. *)
Definition running_or_fulfilled {A} (p : Promise A) : Prop :=
  todo p <> [] \/ exists a, settles p = Returned a.

(** An asynchronous call that is not awaited: what it does before it first
    gives way, and the promise it leaves. *)
Definition first_step {A} (body : M A) : list Event :=
  List.hd [] (steps (trace body)).

Definition started {A} (body : M A) : Promise A :=
  {| todo := List.tl (steps (trace body)); settles := outcome body |}.

(** The count is one [Array.from] accepts as a length. *)
Definition array_length (count : number) : Prop :=
  (ToLength_integer count <= 4294967295)%Z.

(** The promises of a batch, what the calls do when they are started, and
    the join the batch awaits. *)
Definition batch_promises (this : ClaySculptorAgent) (userInput : jsstring)
    (count : number) (env : nat -> VariationEnv) : list (Promise jsstring) :=
  List.map (fun index => started (variation_call this userInput env index))
    (List.seq 0 (ToLength count)).

Definition batch_start (this : ClaySculptorAgent) (userInput : jsstring)
    (count : number) (env : nat -> VariationEnv) : list Event :=
  List.concat
    (List.map (fun index => first_step (variation_call this userInput env index))
       (List.seq 0 (ToLength count))).

Definition batch_join (this : ClaySculptorAgent) (userInput : jsstring)
    (count : number) (env : nat -> VariationEnv) : M (list jsstring) :=
  Promise_all
    (event_loop (fun index => completion (env index))
       (batch_promises this userInput count env))
    (batch_promises this userInput count env).

(** What happens in [generateMultipleVariations] besides the calls. *)
Definition batch_event (ev : Event) : Prop :=
  match ev with
  | SpinnerMessage (MsgGeneratingVariations _ _) => True
  | SpinnerStart | SpinnerStop => True
  | ConsoleLog (MsgVariationsGenerated _) => True
  | ConsoleError (MsgErrorGeneratingVariations _) => True
  | _ => False
  end.

(** ** Vocabulary of the further properties *)

(** The requests sent to the image API during a run: model and prompt. *)
Definition requests (tr : list Event) : list (jsstring * jsstring) :=
  List.flat_map
    (fun ev => match ev with GenerateImages m p => [(m, p)] | _ => [] end) tr.

Definition is_SpinnerStart (ev : Event) : bool :=
  match ev with SpinnerStart => true | _ => false end.

Definition is_SpinnerStop (ev : Event) : bool :=
  match ev with SpinnerStop => true | _ => false end.

(** How many events of a kind a run has. *)
Definition count_events (kind : Event -> bool) (tr : list Event) : nat :=
  List.length (List.filter kind tr).

(** The same answers of the world, with another answer of [Deno.mkdir]. *)
Definition with_mkdir (env : CallEnv) (result : option RuntimeError) : CallEnv :=
  {| mkdir_result := result;
     api_result := api_result env;
     clock := clock env;
     write_result := write_result env |}.

(** [ensureOutputDirectory] goes through: the directory was made or was
    already there. *)
Definition mkdir_ok (env : CallEnv) : bool :=
  match mkdir_result env with
  | None | Some AlreadyExists => true
  | Some (OtherRuntimeError _) => false
  end.

(** The model, the prompt and the directory of one [generateClayImage] call. *)
Definition call_model (config : ClayGenerationConfig) : jsstring :=
  default (model config) defaultModel.

Definition call_prompt (this : ClaySculptorAgent) (config : ClayGenerationConfig)
  : jsstring :=
  generatePrompt (userInput config)
    (Some (default (shadows config) (agent_shadows this))).

Definition call_dir (config : ClayGenerationConfig) : jsstring :=
  default (outputDir config) defaultOutputDir.

(** Sample answers of the world in which one step fails. *)
Definition permission_denied : RuntimeError := OtherRuntimeError (lit "PermissionDenied").

Definition mkdir_denied_env : CallEnv :=
  with_mkdir (sample_call_env 1700000000123) (Some permission_denied).

Definition api_down_env : CallEnv :=
  {| mkdir_result := None;
     api_result := inl (OtherRuntimeError (lit "RetryError"));
     clock := 1700000000123;
     write_result := None |}.

Definition write_denied_env : CallEnv :=
  {| mkdir_result := None;
     api_result := inr sample_response;
     clock := 1700000000123;
     write_result := Some permission_denied |}.

(** A request with an explicit output path, as in the test script. *)
Definition explicit_config : ClayGenerationConfig :=
  {| userInput := lit "cute robot";
     outputPath := Some (lit "./output/test_robot.png");
     model := Some (lit "imagen-4.0-generate-001");
     outputDir := Some (lit "./output");
     variations := None;
     shadows := Some false |}.


(** The one request every variation of a batch sends. *)
Definition batch_request (this : ClaySculptorAgent) (userInput : jsstring)
  : jsstring * jsstring :=
  (defaultModel, generatePrompt userInput (Some (agent_shadows this))).

(** The line is the word quit or exit, in any case, with any white space
    around it. *)
Definition is_quit (input : option jsstring) : bool :=
  match input with
  | Some text =>
      streq (toLowerCase (trim text)) (lit "quit")
      || streq (toLowerCase (trim text)) (lit "exit")
  | None => false
  end.

(** The line is one of the four command words. *)
Definition is_command_word (input : jsstring) : bool :=
  streq (toLowerCase input) (lit "quit") || streq (toLowerCase input) (lit "exit")
  || streq (toLowerCase input) (lit "help") || streq (toLowerCase input) (lit "clear").

(** The request the session makes for a plain description. *)
Definition session_config (this : InteractiveClaySculptor) (description : jsstring)
  : ClayGenerationConfig :=
  {| userInput := description;
     outputPath := None;
     model := opt_model (options this);
     outputDir := opt_outputDir (options this);
     variations := None;
     shadows := opt_shadows (options this) |}.

(** A session with the default options. *)
Definition default_session : InteractiveClaySculptor :=
  new_InteractiveClaySculptor (lit "api-key")
    {| opt_model := None; opt_outputDir := None;
       opt_variations := None; opt_shadows := None |}.

(** A line for which the API is down, then quit, then a line never read. *)
Definition sample_lines : list (option jsstring * CommandEnv) :=
  [ (Some (lit "  cute robot "),
     {| single_env := api_down_env; variations_env := sample_variations_env |});
    (Some (lit "   "), sample_command_env);
    (Some (lit " QUIT "), sample_command_env);
    (Some (lit "never read"), sample_command_env) ].

(** The session [runInteractiveMode] builds from the command line. *)
Definition interactive_session (args : CliArgs) (apiKey : jsstring)
  : InteractiveClaySculptor :=
  new_InteractiveClaySculptor apiKey
    {| opt_model := Some (or_string (arg_model args) (lit "imagen-4.0-generate-001"));
       opt_outputDir := Some (or_string (arg_output_dir args) (lit "./output"));
       opt_variations := Some (Num 3);
       opt_shadows := Some (or_false (arg_shadows args)) |}.

(** What the single command generates, once the key is read: a batch when
    --variations parses to more than 1, one image otherwise. *)
Definition single_command_generation (args : CliArgs) (env : ProcessEnv)
    (apiKey userInput : jsstring) : M unit :=
  let agent := new_ClaySculptorAgent apiKey (Some (or_false (arg_shadows args))) in
  let variations := match truthy_string (arg_variations args) with
                    | Some v => parseInt v
                    | None => Num 1
                    end in
  if js_gt variations (Num 1) then
    generateMultipleVariations agent userInput (Some variations)
      (variations_env (command_env env)) ;;
    ret tt
  else
    generateClayImage agent (single_command_config args userInput)
      (single_env (command_env env)) ;;
    ret tt.

(** [deno task start "cat" --output ./cat.png --output-dir ./elsewhere]. *)
Definition output_args : CliArgs :=
  {| arg_interactive := None; arg_variations := None;
     arg_output := Some (lit "./cat.png");
     arg_output_dir := Some (lit "./elsewhere");
     arg_model := None; arg_help := Some false; arg_version := Some false;
     arg_shadows := Some false; arg_positional := [lit "cat"] |}.

(** [deno task start --help "cat"]. *)
Definition help_args : CliArgs :=
  {| arg_interactive := Some true; arg_variations := None; arg_output := None;
     arg_output_dir := Some (lit "./output"); arg_model := None;
     arg_help := Some true; arg_version := Some true;
     arg_shadows := Some false; arg_positional := [lit "cat"] |}.

(** A run in which the key is the empty string. *)
Definition empty_key_process_env : ProcessEnv :=
  {| GEMINI_API_KEY := Some [];
     command_env := sample_command_env;
     stdin := [] |}.

(** A run in which the key is set and the API is down. *)
Definition api_down_process_env : ProcessEnv :=
  {| GEMINI_API_KEY := Some (lit "api-key");
     command_env := {| single_env := api_down_env;
                       variations_env := sample_variations_env |};
     stdin := sample_lines |}.

(** ** The test script, [test.ts]

    [testAgent] prints lines of its own around three uses of the agent; its
    events are those of the agent and these lines. *)

Module TestScript.

Inductive TestMessage :=
| TestingAgent                        (* Testing Gemini Sculptor Agent... *)
| Test1Starting                       (* Test 1: Generating a simple clay image... *)
| Test1Passed (result : jsstring)     (* Test 1 passed: <path> *)
| Test2Starting                       (* Test 2: Generating multiple variations... *)
| Test2Passed (count : nat)           (* Test 2 passed: Generated n variations *)
| Test3Starting                       (* Test 3: Testing with custom configuration... *)
| Test3Passed (result : jsstring)     (* Test 3 passed: <path> *)
| AllTestsPassed                      (* All tests passed successfully! *)
| CheckOutputDirectory                (* Check the ./output/ directory ... *)
| TestFailed (e : Error)              (* Test failed: *)
| KeyRequired                         (* Error: GEMINI_API_KEY ... is required *)
| KeyHint.                            (* Set it with: export GEMINI_API_KEY=... *)

Inductive TestEvent :=
| Program (ev : Event)                (* an event of the agent *)
| Log (m : TestMessage)               (* console.log *)
| LogError (m : TestMessage).         (* console.error *)

Definition T (A : Type) : Type := list TestEvent * Outcome A.

Definition t_ret {A} (a : A) : T A := ([], Returned a).

Definition t_bind {A B} (m : T A) (k : A -> T B) : T B :=
  match m with
  | (tr, Returned a) => let (tr', o) := k a in (tr ++ tr', o)
  | (tr, Thrown e) => (tr, Thrown e)
  | (tr, Exited c) => (tr, Exited c)
  end.

Definition log (m : TestMessage) : T unit := ([Log m], Returned tt).
Definition log_error (m : TestMessage) : T unit := ([LogError m], Returned tt).
Definition t_exit {A} (code : Z) : T A := ([], Exited code).

(** A use of the agent inside the script. *)
Definition run_agent {A} (m : M A) : T A := (List.map Program (fst m), snd m).

Definition t_try {A} (m : T A) (h : Error -> T A) : T A :=
  match m with
  | (tr, Thrown e) => let (tr', o) := h e in (tr ++ tr', o)
  | _ => m
  end.

(** The events of the agent among those of the script. *)
Definition program_events (tr : list TestEvent) : list Event :=
  List.flat_map (fun ev => match ev with Program e => [e] | _ => [] end) tr.

End TestScript.

Import TestScript.

Declare Scope test_scope.
Delimit Scope test_scope with test.
Notation "x <- m ;; k" := (t_bind m (fun x => k))
  (at level 61, m at next level, right associativity) : test_scope.
Notation "m ;; k" := (t_bind m (fun _ => k))
  (at level 61, right associativity) : test_scope.

(** What the world answers to one run of the script. *)
Record TestEnv := {
  test_key : option jsstring;           (* Deno.env.get("GEMINI_API_KEY") *)
  test1_env : CallEnv;
  test2_env : nat -> VariationEnv;
  test3_env : CallEnv
}.

Definition test1_config : ClayGenerationConfig :=
  {| userInput := lit "cute robot";
     outputPath := Some (lit "./output/test_robot.png");
     model := Some (lit "imagen-4.0-generate-001");
     outputDir := Some (lit "./output");
     variations := None;
     shadows := Some false |}.

Definition test3_config : ClayGenerationConfig :=
  {| userInput := lit "friendly dragon";
     outputPath := Some (lit "./output/test_dragon.png");
     model := Some (lit "imagen-4.0-generate-001");
     outputDir := Some (lit "./output");
     variations := None;
     shadows := Some false |}.

Definition testAgent (env : TestEnv) : T unit :=
  (log TestingAgent ;;
   apiKey <- match truthy_string (test_key env) with
             | None => log_error KeyRequired ;; log KeyHint ;; t_exit 1%Z
             | Some apiKey => t_ret apiKey
             end ;;
   t_try
     (let agent := new_ClaySculptorAgent apiKey (Some false) in
      log Test1Starting ;;
      result1 <- run_agent (generateClayImage agent test1_config (test1_env env)) ;;
      log (Test1Passed result1) ;;
      log Test2Starting ;;
      results2 <- run_agent (generateMultipleVariations agent (lit "magical cat")
                               (Some (Num 2)) (test2_env env)) ;;
      log (Test2Passed (List.length results2)) ;;
      log Test3Starting ;;
      result3 <- run_agent (generateClayImage agent test3_config (test3_env env)) ;;
      log (Test3Passed result3) ;;
      log AllTestsPassed ;;
      log CheckOutputDirectory)
     (fun error => log_error (TestFailed error) ;; t_exit 1%Z))%test.

(** The three uses of the agent the script makes. *)
Definition test1_run (apiKey : jsstring) (env : TestEnv) : M jsstring :=
  generateClayImage (new_ClaySculptorAgent apiKey (Some false)) test1_config
    (test1_env env).

Definition test2_run (apiKey : jsstring) (env : TestEnv) : M (list jsstring) :=
  generateMultipleVariations (new_ClaySculptorAgent apiKey (Some false))
    (lit "magical cat") (Some (Num 2)) (test2_env env).

Definition test3_run (apiKey : jsstring) (env : TestEnv) : M jsstring :=
  generateClayImage (new_ClaySculptorAgent apiKey (Some false)) test3_config
    (test3_env env).


Definition failing_test_env : TestEnv :=
  {| test_key := Some (lit "api-key");
     test1_env := api_down_env;
     test2_env := sample_variations_env;
     test3_env := sample_call_env 1700000009000 |}.
(** * Properties *)

(** ** Sanity checks of the built-ins on known values *)
Example toISOString_epoch :
  JsDate.toISOString 0 = lit "1970-01-01T00:00:00.000Z".
Proof. reflexivity. Qed.

Example toISOString_2023 :
  JsDate.toISOString 1700000000123 = lit "2023-11-14T22:13:20.123Z".
Proof. reflexivity. Qed.

Example toISOString_leap_day :
  JsDate.toISOString 1709164800000 = lit "2024-02-29T00:00:00.000Z".
Proof. reflexivity. Qed.

Example toISOString_before_epoch :
  JsDate.toISOString (-1) = lit "1969-12-31T23:59:59.999Z".
Proof. reflexivity. Qed.

Example toISOString_year_10000 :
  JsDate.toISOString 253402300800000 = lit "+010000-01-01T00:00:00.000Z".
Proof. reflexivity. Qed.

Example toISOString_year_0 :
  JsDate.toISOString (-62167219200000) = lit "0000-01-01T00:00:00.000Z".
Proof. reflexivity. Qed.

Example toISOString_min :
  JsDate.toISOString (-8640000000000000) = lit "-271821-04-20T00:00:00.000Z".
Proof. reflexivity. Qed.

Example toISOString_max :
  JsDate.toISOString 8640000000000000 = lit "+275760-09-13T00:00:00.000Z".
Proof. reflexivity. Qed.

Example generateFilename_variation :
  generateFilename (lit "cute robot!") true (Some 2%N) 1700000000123
  = lit "clay_cute_robot__variation_3_2023-11-14T22-13-20-123Z.png".
Proof. reflexivity. Qed.

Example generateFilename_plain :
  generateFilename (lit "cute robot") false None 1700000000123
  = lit "clay_cute_robot_2023-11-14T22-13-20-123Z.png".
Proof. reflexivity. Qed.

Example atob_TQ : Base64.atob (lit "TQ==") = Some (lit "M").
Proof. reflexivity. Qed.

Example atob_hello : Base64.atob (lit " aGVs bG8=") = Some (lit "hello").
Proof. reflexivity. Qed.

Example atob_unpadded : Base64.atob (lit "aGk") = Some (lit "hi").
Proof. reflexivity. Qed.

Example atob_bad_length : Base64.atob (lit "aGVsb") = None.
Proof. reflexivity. Qed.

Example atob_bad_char : Base64.atob (lit "a-Vs") = None.
Proof. reflexivity. Qed.

Example parseInt_examples :
  parseInt (lit "15") = Num 15 /\ parseInt (lit "  -7px") = Num (-7)
  /\ parseInt (lit "0x1F") = Num 31 /\ parseInt (lit "abc") = NaN
  /\ parseInt (lit "007") = Num 7 /\ parseInt (lit "3.9") = Num 3.
Proof. repeat split; reflexivity. Qed.

Example match_variations_examples :
  Regex.match_variations (lit "variations 3 cute cat") = Some (lit "3", lit "cute cat")
  /\ Regex.match_variations (lit "VARIATIONS  12   x y") = Some (lit "12", lit "x y")
  /\ Regex.match_variations (lit "variations 3") = None
  /\ Regex.match_variations (lit "variations3 cat") = None
  /\ Regex.match_variations (lit "variations 3  ") = Some (lit "3", lit " ")
  /\ Regex.match_variations (lit "variations x cat") = None
  /\ Regex.match_variations (lit "more variations 3 cat") = None.
Proof. repeat split; reflexivity. Qed.

(** ** Facts about the calendar and the timestamp *)

Module DateFacts.
Import JsDate.
Local Open Scope Z_scope.

Lemma YearFromDay_spec d :
  DayFromYear (YearFromDay d) <= d < DayFromYear (YearFromDay d + 1).
Proof.
  unfold YearFromDay.
  destruct (DayFromYear (1970 + d * 400 / 146097) >? d) eqn:E1.
  - apply Z.gtb_lt in E1.
    replace (1970 + d * 400 / 146097 - 1 + 1) with (1970 + d * 400 / 146097) by lia.
    split; [|lia]. revert E1. unfold DayFromYear.
    Z.div_mod_to_equations; lia.
  - destruct (DayFromYear (1970 + d * 400 / 146097 + 1) <=? d) eqn:E2.
    + apply Z.leb_le in E2. split; [lia|].
      revert E2. unfold DayFromYear. Z.div_mod_to_equations; lia.
    + apply Z.leb_gt in E2. rewrite Z.gtb_ltb in E1. apply Z.ltb_ge in E1. lia.
Qed.

Lemma DayFromYear_mono a b : a <= b -> DayFromYear a <= DayFromYear b.
Proof. unfold DayFromYear. intros. Z.div_mod_to_equations; lia. Qed.

Lemma DayFromYear_succ y :
  DayFromYear (y + 1) = DayFromYear y + 365 + (if InLeapYear y then 1 else 0).
Proof.
  unfold DayFromYear, InLeapYear.
  destruct (Z.eqb_spec (y mod 4) 0) as [E4|E4];
    destruct (Z.eqb_spec (y mod 100) 0) as [E100|E100];
    destruct (Z.eqb_spec (y mod 400) 0) as [E400|E400]; cbv [andb orb negb];
    Z.div_mod_to_equations; lia.
Qed.

Lemma DayWithinYear_range t :
  0 <= DayWithinYear t < 365 + leap_days t.
Proof.
  unfold DayWithinYear, leap_days, YearFromTime.
  pose proof (YearFromDay_spec (Day t)) as H.
  rewrite DayFromYear_succ in H. lia.
Qed.

Lemma leap_days_range t : 0 <= leap_days t <= 1.
Proof. unfold leap_days. destruct InLeapYear; lia. Qed.

Lemma MonthFromTime_range t : 0 <= MonthFromTime t <= 11.
Proof.
  unfold MonthFromTime.
  repeat match goal with |- context [if ?b then _ else _] => destruct b end; lia.
Qed.

Lemma DateFromTime_range t : 1 <= DateFromTime t <= 31.
Proof.
  pose proof (DayWithinYear_range t) as Hd. pose proof (leap_days_range t) as Hl.
  unfold DateFromTime, MonthFromTime.
  repeat match goal with
         | |- context [if ?a <? ?b then _ else _] => destruct (Z.ltb_spec a b)
         end; lia.
Qed.

Lemma YearFromTime_four_digit t :
  four_digit_year t -> 0 <= YearFromTime t <= 9999.
Proof.
  unfold four_digit_year, YearFromTime. intros Ht.
  pose proof (YearFromDay_spec (Day t)) as H.
  assert (Hd : -719528 <= Day t < 2932897)
    by (unfold Day, msPerDay; Z.div_mod_to_equations; lia).
  split.
  - destruct (Z.le_gt_cases 0 (YearFromDay (Day t))) as [|Hlt]; [assumption|].
    pose proof (DayFromYear_mono (YearFromDay (Day t) + 1) 0 ltac:(lia)) as Hm.
    change (DayFromYear 0) with (-719528) in Hm. lia.
  - destruct (Z.le_gt_cases (YearFromDay (Day t)) 9999) as [|Hgt]; [assumption|].
    pose proof (DayFromYear_mono 10000 (YearFromDay (Day t)) ltac:(lia)) as Hm.
    change (DayFromYear 10000) with 2932897 in Hm. lia.
Qed.


(** The calendar fields determine the time value. *)
Lemma fields_inj t1 t2 :
  YearFromTime t1 = YearFromTime t2 ->
  MonthFromTime t1 = MonthFromTime t2 ->
  DateFromTime t1 = DateFromTime t2 ->
  HourFromTime t1 = HourFromTime t2 ->
  MinFromTime t1 = MinFromTime t2 ->
  SecFromTime t1 = SecFromTime t2 ->
  msFromTime t1 = msFromTime t2 ->
  t1 = t2.
Proof.
  intros Hy Hm Hd Hh Hmi Hs Hms.
  assert (Hl : leap_days t1 = leap_days t2) by (unfold leap_days; now rewrite Hy).
  assert (Hdw : DayWithinYear t1 = DayWithinYear t2).
  { pose proof (MonthFromTime_range t2) as Hr.
    unfold DateFromTime in Hd. rewrite Hm, Hl in Hd.
    assert (Hc : MonthFromTime t2 = 0 \/ MonthFromTime t2 = 1 \/ MonthFromTime t2 = 2
                 \/ MonthFromTime t2 = 3 \/ MonthFromTime t2 = 4 \/ MonthFromTime t2 = 5
                 \/ MonthFromTime t2 = 6 \/ MonthFromTime t2 = 7 \/ MonthFromTime t2 = 8
                 \/ MonthFromTime t2 = 9 \/ MonthFromTime t2 = 10 \/ MonthFromTime t2 = 11)
      by lia.
    repeat (destruct Hc as [Hc|Hc]; [rewrite Hc in Hd; lia|]).
    rewrite Hc in Hd; lia. }
  assert (HD : Day t1 = Day t2).
  { unfold DayWithinYear in Hdw. rewrite Hy in Hdw. lia. }
  revert HD Hh Hmi Hs Hms.
  unfold Day, msPerDay, HourFromTime, MinFromTime, SecFromTime, msFromTime.
  intros. Z.div_mod_to_equations. lia.
Qed.

End DateFacts.

Section ListFacts.
Context {A : Type}.

Lemma app_inv_length (a a' b b' : list A) :
  List.length a = List.length a' -> a ++ b = a' ++ b' -> a = a' /\ b = b'.
Proof.
  revert a'. induction a as [|x a IH]; intros [|x' a'] Hlen Heq;
    simpl in *; try discriminate.
  - now split.
  - injection Heq as -> Heq. destruct (IH a' ltac:(lia) Heq) as [-> ->]. now split.
Qed.

Lemma Forall_app_intro (P : A -> Prop) (l l' : list A) :
  Forall P l -> Forall P l' -> Forall P (l ++ l').
Proof. intros. apply Forall_app. now split. Qed.

End ListFacts.

Module PadFacts.

Lemma uint_digits_digit d : Forall (fun c => is_digit c = true) (uint_digits d).
Proof. induction d; simpl; constructor; auto. Qed.

Lemma Number_toString_digit n : Forall (fun c => is_digit c = true) (Number_toString n).
Proof. apply uint_digits_digit. Qed.

Lemma pad_digit k n : Forall (fun c => is_digit c = true) (JsDate.pad k n).
Proof.
  unfold JsDate.pad, padStart0. apply Forall_app_intro.
  - apply Forall_forall. intros c Hc. apply repeat_spec in Hc. now subst.
  - apply Number_toString_digit.
Qed.

Lemma pad_table k bound :
  forallb (pad_ok k) (List.map Z.of_nat (List.seq 0 (Z.to_nat bound))) = true ->
  forall n, (0 <= n < bound)%Z ->
    List.length (JsDate.pad k n) = k /\ digits_value (JsDate.pad k n) = n.
Proof.
  intros Hall n Hn. rewrite forallb_forall in Hall.
  specialize (Hall n). unfold pad_ok in Hall.
  rewrite andb_true_iff, Nat.eqb_eq, Z.eqb_eq in Hall. apply Hall.
  apply in_map_iff. exists (Z.to_nat n). split; [lia|]. apply in_seq. lia.
Qed.

Lemma pad2 n : (0 <= n < 100)%Z ->
  List.length (JsDate.pad 2 n) = 2%nat /\ digits_value (JsDate.pad 2 n) = n.
Proof. apply (pad_table 2 100). vm_compute. reflexivity. Qed.

Lemma pad3 n : (0 <= n < 1000)%Z ->
  List.length (JsDate.pad 3 n) = 3%nat /\ digits_value (JsDate.pad 3 n) = n.
Proof. apply (pad_table 3 1000). vm_compute. reflexivity. Qed.

Lemma pad4 n : (0 <= n < 10000)%Z ->
  List.length (JsDate.pad 4 n) = 4%nat /\ digits_value (JsDate.pad 4 n) = n.
Proof. apply (pad_table 4 10000). vm_compute. reflexivity. Qed.

End PadFacts.

Module TimestampFacts.
Import JsDate DateFacts PadFacts.
Local Open Scope Z_scope.

Lemma replace_digits s :
  Forall (fun c => is_digit c = true) s ->
  replace_class is_colon_or_period 45%N s = s.
Proof.
  unfold replace_class. induction 1 as [|c s Hc _ IH]; simpl; [reflexivity|].
  rewrite IH. f_equal.
  unfold is_digit, is_colon_or_period in *.
  destruct (N.eqb_spec c 58); [subst; discriminate|].
  destruct (N.eqb_spec c 46); [subst; discriminate|]. reflexivity.
Qed.

(** The timestamp, field by field. *)
Lemma timestamp_fields t :
  timestamp t =
  replace_class is_colon_or_period 45%N (year_string (YearFromTime t))
  ++ lit "-" ++ pad 2 (MonthFromTime t + 1)
  ++ lit "-" ++ pad 2 (DateFromTime t) ++ lit "T" ++ pad 2 (HourFromTime t)
  ++ lit "-" ++ pad 2 (MinFromTime t) ++ lit "-" ++ pad 2 (SecFromTime t)
  ++ lit "-" ++ pad 3 (msFromTime t) ++ lit "Z".
Proof.
  unfold timestamp, toISOString.
  assert (Hm : forall a b, replace_class is_colon_or_period 45%N (a ++ b)
                = replace_class is_colon_or_period 45%N a
                  ++ replace_class is_colon_or_period 45%N b)
    by (intros; apply map_app).
  rewrite !Hm, !(replace_digits (pad _ _)) by apply pad_digit. reflexivity.
Qed.

Lemma year_string_four_digit y :
  0 <= y <= 9999 -> year_string y = pad 4 y.
Proof.
  intros H. unfold year_string.
  destruct (Z.leb_spec 0 y); destruct (Z.leb_spec y 9999); try lia. reflexivity.
Qed.

Lemma timestamp_four_digit t :
  four_digit_year t ->
  timestamp t =
  pad 4 (YearFromTime t)
  ++ lit "-" ++ pad 2 (MonthFromTime t + 1)
  ++ lit "-" ++ pad 2 (DateFromTime t) ++ lit "T" ++ pad 2 (HourFromTime t)
  ++ lit "-" ++ pad 2 (MinFromTime t) ++ lit "-" ++ pad 2 (SecFromTime t)
  ++ lit "-" ++ pad 3 (msFromTime t) ++ lit "Z".
Proof.
  intros H. rewrite timestamp_fields.
  rewrite year_string_four_digit by now apply YearFromTime_four_digit.
  rewrite replace_digits by apply pad_digit. reflexivity.
Qed.

Lemma field_ranges t :
  0 <= MonthFromTime t + 1 < 100 /\ 0 <= DateFromTime t < 100
  /\ 0 <= HourFromTime t < 100 /\ 0 <= MinFromTime t < 100
  /\ 0 <= SecFromTime t < 100 /\ 0 <= msFromTime t < 1000.
Proof.
  pose proof (MonthFromTime_range t). pose proof (DateFromTime_range t).
  unfold HourFromTime, MinFromTime, SecFromTime, msFromTime.
  repeat split; try lia; Z.div_mod_to_equations; lia.
Qed.

Lemma timestamp_length t :
  four_digit_year t -> List.length (timestamp t) = 24%nat.
Proof.
  intros H. rewrite timestamp_four_digit by assumption.
  pose proof (YearFromTime_four_digit t H) as Hy.
  destruct (field_ranges t) as (Hmo & Hd & Hh & Hmi & Hs & Hms).
  rewrite !length_app.
  rewrite (proj1 (pad4 (YearFromTime t) ltac:(lia))), (proj1 (pad2 _ Hmo)),
    (proj1 (pad2 _ Hd)), (proj1 (pad2 _ Hh)), (proj1 (pad2 _ Hmi)),
    (proj1 (pad2 _ Hs)), (proj1 (pad3 _ Hms)).
  reflexivity.
Qed.

Ltac split_field H k :=
  apply app_inv_length in H;
  [destruct H as [k H]|].

Lemma timestamp_inj t1 t2 :
  four_digit_year t1 -> four_digit_year t2 ->
  timestamp t1 = timestamp t2 -> t1 = t2.
Proof.
  intros H1 H2 Heq.
  rewrite !timestamp_four_digit in Heq by assumption.
  pose proof (YearFromTime_four_digit t1 H1) as Hy1.
  pose proof (YearFromTime_four_digit t2 H2) as Hy2.
  destruct (field_ranges t1) as (Hmo1 & Hd1 & Hh1 & Hmi1 & Hs1 & Hms1).
  destruct (field_ranges t2) as (Hmo2 & Hd2 & Hh2 & Hmi2 & Hs2 & Hms2).
  assert (P4 : forall a b, 0 <= a < 10000 -> 0 <= b < 10000 -> pad 4 a = pad 4 b -> a = b).
  { intros a b Ha Hb E. rewrite <- (proj2 (pad4 a Ha)), <- (proj2 (pad4 b Hb)). now rewrite E. }
  assert (P2 : forall a b, 0 <= a < 100 -> 0 <= b < 100 -> pad 2 a = pad 2 b -> a = b).
  { intros a b Ha Hb E. rewrite <- (proj2 (pad2 a Ha)), <- (proj2 (pad2 b Hb)). now rewrite E. }
  assert (P3 : forall a b, 0 <= a < 1000 -> 0 <= b < 1000 -> pad 3 a = pad 3 b -> a = b).
  { intros a b Ha Hb E. rewrite <- (proj2 (pad3 a Ha)), <- (proj2 (pad3 b Hb)). now rewrite E. }
  split_field Heq Ey;
    [|rewrite (proj1 (pad4 (YearFromTime t1) ltac:(lia))),
        (proj1 (pad4 (YearFromTime t2) ltac:(lia))); reflexivity].
  injection Heq as Heq.
  split_field Heq Emo; [|now rewrite (proj1 (pad2 _ Hmo1)), (proj1 (pad2 _ Hmo2))].
  injection Heq as Heq.
  split_field Heq Ed; [|now rewrite (proj1 (pad2 _ Hd1)), (proj1 (pad2 _ Hd2))].
  injection Heq as Heq.
  split_field Heq Eh; [|now rewrite (proj1 (pad2 _ Hh1)), (proj1 (pad2 _ Hh2))].
  injection Heq as Heq.
  split_field Heq Emi; [|now rewrite (proj1 (pad2 _ Hmi1)), (proj1 (pad2 _ Hmi2))].
  injection Heq as Heq.
  split_field Heq Es; [|now rewrite (proj1 (pad2 _ Hs1)), (proj1 (pad2 _ Hs2))].
  injection Heq as Heq.
  split_field Heq Ems; [|now rewrite (proj1 (pad3 _ Hms1)), (proj1 (pad3 _ Hms2))].
  apply fields_inj; auto.
  - apply P4; auto; lia.
  - apply P2 in Emo; auto; lia.
Qed.

End TimestampFacts.

(** ** The file name *)

Ltac bool_to_prop :=
  repeat match goal with
         | H : _ |- _ =>
             progress rewrite ?orb_true_iff, ?andb_true_iff, ?orb_false_iff,
               ?andb_false_iff, ?negb_true_iff, ?negb_false_iff, ?N.leb_le,
               ?N.leb_gt, ?N.eqb_eq, ?N.eqb_neq in H
         end;
  rewrite ?orb_true_iff, ?andb_true_iff, ?orb_false_iff, ?andb_false_iff,
    ?negb_true_iff, ?negb_false_iff, ?N.leb_le, ?N.leb_gt, ?N.eqb_eq, ?N.eqb_neq.

Module FilenameFacts.
Import JsDate DateFacts PadFacts TimestampFacts.


Lemma uint_digits_inj d d' : uint_digits d = uint_digits d' -> d = d'.
Proof.
  revert d'. induction d; intros [] H; simpl in H;
    try discriminate; try reflexivity; injection H as H; f_equal; auto.
Qed.

Lemma Number_toString_inj a b : Number_toString a = Number_toString b -> a = b.
Proof.
  intros H. now apply DecimalN.Unsigned.to_uint_inj, uint_digits_inj.
Qed.

(** Two digit strings, each followed by the same non-digit, are equal as
    soon as what they begin is. *)
Lemma digits_delimited (a b x y : jsstring) (c : char) :
  Forall (fun c => is_digit c = true) a ->
  Forall (fun c => is_digit c = true) b ->
  is_digit c = false ->
  a ++ c :: x = b ++ c :: y -> a = b.
Proof.
  intros Ha. revert b. induction Ha as [|u a Hu Ha IH]; intros b Hb Hc Heq.
  - destruct Hb as [|v b Hv Hb]; [reflexivity|].
    simpl in Heq. injection Heq as -> _. congruence.
  - destruct Hb as [|v b Hv Hb]; simpl in Heq.
    + injection Heq as -> _. congruence.
    + injection Heq as -> Heq. f_equal. now apply IH.
Qed.











Lemma generateFilename_segments d isVariation variationIndex now :
  generateFilename d isVariation variationIndex now
  = lit "clay_" ++ sanitize d ++ lit "_"
    ++ variation_segment isVariation variationIndex ++ timestamp now ++ lit ".png".
Proof.
  unfold generateFilename, variation_segment.
  destruct isVariation, variationIndex; try reflexivity.
  now rewrite <- !app_assoc.
Qed.


(** Variation file names of different indices differ, whatever the clock. *)
Lemma variation_filenames_differ d i j now1 now2 :
  i <> j ->
  generateFilename d true (Some i) now1 <> generateFilename d true (Some j) now2.
Proof.
  intros Hij Heq. rewrite !generateFilename_segments in Heq.
  do 3 apply app_inv_head in Heq. unfold variation_segment in Heq.
  rewrite <- !app_assoc in Heq. apply app_inv_head in Heq.
  change (lit "_" ++ ?x) with (95%N :: x) in Heq.
  apply digits_delimited in Heq;
    [|apply Number_toString_digit|apply Number_toString_digit|reflexivity].
  apply Number_toString_inj in Heq. apply Hij. lia.
Qed.






End FilenameFacts.




(** ** The prompt *)

Module PromptFacts.

Lemma prefixb_sound p s : prefixb p s = true -> exists post, s = p ++ post.
Proof.
  revert s. induction p as [|a p IH]; intros s H.
  - now exists s.
  - destruct s as [|b s]; [discriminate|]. simpl in H.
    apply andb_true_iff in H. destruct H as [Hab H].
    apply N.eqb_eq in Hab. subst b.
    destruct (IH s H) as [post ->]. now exists post.
Qed.

Lemma prefixb_complete p post : prefixb p (p ++ post) = true.
Proof.
  induction p as [|a p IH]; simpl; [reflexivity|].
  now rewrite N.eqb_refl, IH.
Qed.

Lemma includes_sound sub s : includes sub s = true -> contains sub s.
Proof.
  induction s as [|c s IH]; simpl; intros H.
  - rewrite orb_false_r in H. destruct (prefixb_sound _ _ H) as [post Hp].
    now exists [], post.
  - apply orb_true_iff in H. destruct H as [H|H].
    + destruct (prefixb_sound _ _ H) as [post Hp]. now exists [], post.
    + destruct (IH H) as (pre & post & ->). now exists (c :: pre), post.
Qed.

Lemma includes_complete sub s : contains sub s -> includes sub s = true.
Proof.
  intros (pre & post & ->). induction pre as [|c pre IH].
  - pose proof (prefixb_complete sub post) as H. simpl.
    destruct (sub ++ post); simpl; now rewrite H.
  - simpl. rewrite IH. apply orb_true_r.
Qed.

Lemma contains_in_context sub pre s post :
  contains sub s -> contains sub (pre ++ s ++ post).
Proof.
  intros (a & b & ->). exists (pre ++ a), (b ++ post).
  now rewrite <- !app_assoc.
Qed.

Lemma not_In_forallb (c : char) l :
  forallb (fun x => negb (N.eqb c x)) l = true -> ~ In c l.
Proof.
  rewrite forallb_forall. intros H Hin. specialize (H c Hin).
  now rewrite N.eqb_refl in H.
Qed.

(** An occurrence of a word in [P ++ d ++ R] lies inside [d] when the first
    character of the word occurs neither in [P] nor later in the word, [R]
    begins with that character, and [R] does not contain the word. *)
Lemma contains_middle (c0 : char) (w P d R R' : jsstring) :
  ~ In c0 P -> ~ In c0 w -> R = c0 :: R' -> ~ contains (c0 :: w) R ->
  contains (c0 :: w) (P ++ d ++ R) -> contains (c0 :: w) d.
Proof.
  intros HP Hw HR HnR (pre & post & Heq).
  assert (Hd : exists l, d ++ R = l ++ (c0 :: w) ++ post).
  { apply app_eq_app in Heq. destruct Heq as (l & [[HPl Hrest]|[Hpre Hrest]]).
    - destruct l as [|c l].
      + exists []. now rewrite Hrest.
      + simpl in Hrest. injection Hrest as <- _.
        exfalso. apply HP. rewrite HPl. apply in_or_app. right. now left.
    - now exists l. }
  destruct Hd as (l & Hd).
  apply app_eq_app in Hd. destruct Hd as (l2 & [[Hdl Hrest]|[Hl Hrest]]).
  2:{ exfalso. apply HnR. now exists l2, post. }
  apply app_eq_app in Hrest. destruct Hrest as (l3 & [[Hclause HR3]|[Hl2 Hpost]]).
  2:{ exists l, l3. now rewrite Hdl, Hl2. }
  destruct l3 as [|c l3].
  - rewrite app_nil_r in Hclause. exists l, []. now rewrite Hdl, Hclause, app_nil_r.
  - rewrite HR in HR3. simpl in HR3. injection HR3 as <- HR3.
    destruct l2 as [|x l2].
    + exfalso. apply HnR. exists [], post. simpl in Hclause. rewrite HR.
      simpl. injection Hclause as ->. now rewrite HR3.
    + exfalso. apply Hw. simpl in Hclause. injection Hclause as _ ->.
      apply in_or_app. right. now left.
Qed.

Lemma generatePrompt_parts d shadows :
  generatePrompt d (Some shadows) = prompt_head ++ d ++ prompt_tail shadows.
Proof. reflexivity. Qed.

Lemma qualifiers_in_tail shadows :
  Forall (fun q => contains q (prompt_tail shadows)) fixed_qualifiers.
Proof.
  destruct shadows; repeat constructor; apply includes_sound; reflexivity.
Qed.

Lemma clause_with_shadows_on d :
  contains no_shadows_clause (generatePrompt d (Some true)) ->
  contains no_shadows_clause d.
Proof.
  rewrite generatePrompt_parts.
  apply (contains_middle 44%N (lit " no shadows") prompt_head d (prompt_tail true)
           (List.tl (prompt_tail true))).
  - now apply not_In_forallb.
  - now apply not_In_forallb.
  - reflexivity.
  - intros H. apply includes_complete in H. discriminate H.
Qed.

End PromptFacts.

(** C6, as amended: for every description and shadows flag the prompt
    contains the description verbatim and each fixed stylistic qualifier, and
    it contains the no-shadow clause if and only if shadows is false or the
    description itself contains that clause. *)
Theorem generatePrompt_contents :
  forall (d : jsstring) (shadows : bool),
    contains d (generatePrompt d (Some shadows))
    /\ Forall (fun q => contains q (generatePrompt d (Some shadows))) fixed_qualifiers
    /\ (contains no_shadows_clause (generatePrompt d (Some shadows))
        <-> shadows = false \/ contains no_shadows_clause d).
Proof.
  intros d shadows. rewrite PromptFacts.generatePrompt_parts.
  split; [|split].
  - now exists prompt_head, (prompt_tail shadows).
  - eapply Forall_impl; [|apply (PromptFacts.qualifiers_in_tail shadows)].
    intros q Hq. cbv beta.
    replace (prompt_head ++ d ++ prompt_tail shadows)
      with (prompt_head ++ d ++ prompt_tail shadows ++ [])
      by now rewrite app_nil_r.
    rewrite app_assoc. now apply PromptFacts.contains_in_context.
  - split.
    + destruct shadows; [|now left]. intros H. right.
      now apply PromptFacts.clause_with_shadows_on.
    + intros [->|H].
      * pose proof (PromptFacts.includes_sound no_shadows_clause
                      (prompt_tail false) eq_refl) as Hc.
        apply (PromptFacts.contains_in_context _ (prompt_head ++ d)
                 (prompt_tail false) []) in Hc.
        now rewrite app_nil_r, <- app_assoc in Hc.
      * now apply PromptFacts.contains_in_context.
Qed.

(** C6, as stated, fails: with shadows on, a description that mentions the
    clause puts it in the prompt. *)
Lemma generatePrompt_clause_with_shadows_on :
  ~ (contains no_shadows_clause
       (generatePrompt (lit "a cat, no shadows") (Some true))
     <-> true = false).
Proof.
  intros [H _]. discriminate H.
  apply PromptFacts.includes_sound. reflexivity.
Qed.

(** ** [generateClayImage] *)

Module ImageFacts.

Ltac destruct_env env :=
  let mk := fresh "mk" in
  let api := fresh "api" in
  let clk := fresh "clk" in
  let wr := fresh "wr" in
  destruct env as [mk api clk wr];
  destruct mk as [[|?]|];
  destruct api as [?|[[[[|[[[[[[|? ?]|?]|]]|]] ?]|]]|]];
  destruct wr as [?|].

Lemma generateClayImage_no_exit this config env code :
  outcome (generateClayImage this config env) <> Exited code.
Proof.
  unfold generateClayImage.
  destruct_env env; cbn; try discriminate;
    try (destruct (Base64.atob _); cbn; discriminate).
Qed.

Lemma generateClayImage_returned this config env p :
  outcome (generateClayImage this config env) = Returned p ->
  p = resolved_path config env.
Proof.
  unfold generateClayImage, resolved_path.
  destruct_env env; cbn; try discriminate;
    try (destruct (Base64.atob _); cbn; try discriminate);
    intros H; injection H as <-; reflexivity.
Qed.

Ltac case_atob :=
  match goal with
  | |- context [Base64.atob ?s] =>
      let E := fresh "Eatob" in
      destruct (Base64.atob s) eqn:E;
      repeat match goal with
             | H : context [Base64.atob s] |- _ => rewrite E in H
             end
  end.






End ImageFacts.



(** ** Asynchronous calls and their join *)

Module JoinFacts.

Lemma bind_returned {A B} (tr : list Event) (a : A) (k : A -> M B) :
  bind (tr, Returned a) k = (tr ++ trace (k a), outcome (k a)).
Proof. unfold bind, trace, outcome. now destruct (k a). Qed.

Lemma trace_bind_ret {A B} (m : M A) (b : B) :
  trace (bind m (fun _ => ret b)) = trace m.
Proof.
  unfold trace, bind, ret. destruct m as [tr [a|e|c]]; cbn; now rewrite ?app_nil_r.
Qed.

Lemma steps_concat tr : List.concat (steps tr) = tr.
Proof.
  induction tr as [|ev tr IH]; [reflexivity|].
  simpl. destruct (awaited ev).
  - simpl. now rewrite IH.
  - destruct (steps tr) as [|step later]; simpl in *; now rewrite <- IH.
Qed.

Lemma steps_not_nil tr : steps tr <> [].
Proof.
  destruct tr as [|ev tr]; [discriminate|].
  simpl. destruct (awaited ev); [discriminate|].
  destruct (steps tr); discriminate.
Qed.

Lemma first_step_later {A} (body : M A) :
  first_step body ++ List.concat (todo (started body)) = trace body.
Proof.
  unfold first_step, started. cbn [todo].
  rewrite <- (steps_concat (trace body)) at 3.
  now destruct (steps (trace body)).
Qed.

Lemma async_started {A} (body : M A) :
  (forall code, outcome body <> Exited code) ->
  async body = (first_step body, Returned (started body)).
Proof.
  intros Hne. unfold async, first_step, started.
  pose proof (steps_not_nil (trace body)) as Hs.
  destruct (steps (trace body)) as [|head later]; [contradiction|].
  cbn [List.hd List.tl]. unfold emit_all. rewrite bind_returned.
  destruct later as [|step later], (outcome body) as [a|e|c] eqn:E;
    try (exfalso; now apply (Hne c));
    cbn; now rewrite app_nil_r.
Qed.

Lemma for_each_started {A} (f : nat -> M A) (l : list nat) :
  (forall i code, outcome (f i) <> Exited code) ->
  for_each (fun i => async (f i)) l
  = (List.concat (List.map (fun i => first_step (f i)) l),
     Returned (List.map (fun i => started (f i)) l)).
Proof.
  intros Hne. induction l as [|i l IH]; [reflexivity|].
  cbn [for_each List.map List.concat].
  rewrite (async_started (f i) (Hne i)), bind_returned, IH, bind_returned.
  cbn. now rewrite app_nil_r.
Qed.

(** *** One delivery *)

Lemma resume_spec {A} (index : nat) (ps : list (Promise A)) step p' ps' :
  resume index ps = Some (step, p', ps') ->
  exists front p back,
    ps = front ++ p :: back /\ List.length front = index
    /\ todo p = step :: todo p' /\ settles p' = settles p
    /\ ps' = front ++ p' :: back.
Proof.
  revert index step p' ps'. induction ps as [|q ps IH]; intros index step p' ps' H.
  - discriminate.
  - destruct index as [|index]; simpl in H.
    + destruct (todo q) as [|s later] eqn:Eq; [discriminate|].
      injection H as <- <- <-. exists [], q, ps. now repeat split.
    + destruct (resume index ps) as [[[s r] rs]|] eqn:E; [|discriminate].
      injection H as <- <- <-.
      destruct (IH _ _ _ _ E) as (front & p & back & -> & <- & Ht & Hs & ->).
      exists (q :: front), p, back. now repeat split.
Qed.

Lemma remaining_app {A} (ps qs : list (Promise A)) :
  remaining (ps ++ qs) = remaining ps ++ remaining qs.
Proof. unfold remaining. now rewrite map_app, concat_app. Qed.

Lemma remaining_cons {A} (p : Promise A) (ps : list (Promise A)) :
  remaining (p :: ps) = List.concat (todo p) ++ remaining ps.
Proof. reflexivity. Qed.

Lemma resume_remaining {A} (index : nat) (ps : list (Promise A)) step p' ps' :
  resume index ps = Some (step, p', ps') ->
  Permutation (remaining ps) (step ++ remaining ps').
Proof.
  intros H. apply resume_spec in H.
  destruct H as (front & p & back & -> & _ & Ht & _ & ->).
  rewrite !remaining_app, !remaining_cons, Ht. cbn [List.concat].
  rewrite <- !app_assoc. rewrite (app_assoc (remaining front)).
  rewrite (app_assoc step). apply Permutation_app_tail, Permutation_app_comm.
Qed.

Lemma resume_settles {A} (index : nat) (ps : list (Promise A)) step p' ps' :
  resume index ps = Some (step, p', ps') ->
  List.map settles ps' = List.map settles ps /\ In (settles p') (List.map settles ps).
Proof.
  intros H. apply resume_spec in H.
  destruct H as (front & p & back & -> & _ & _ & Hs & ->).
  rewrite !map_app. cbn [List.map]. rewrite Hs. split; [reflexivity|].
  apply in_or_app. right. now left.
Qed.

Lemma resume_running {A} (index : nat) (ps : list (Promise A)) step p' ps' :
  resume index ps = Some (step, p', ps') ->
  running_or_fulfilled p' ->
  Forall running_or_fulfilled ps -> Forall running_or_fulfilled ps'.
Proof.
  intros H Hp Hps. apply resume_spec in H.
  destruct H as (front & p & back & -> & _ & _ & _ & ->).
  apply Forall_app in Hps. destruct Hps as [Hf Hb].
  apply Forall_app. split; [exact Hf|].
  inversion Hb; subst. now constructor.
Qed.

(** What one delivery does. *)
Lemma take_step_cases {A} (turn index : nat) (ps : list (Promise A)) rejected :
  (resume index ps = None
   /\ take_step turn index ps rejected = ([], Returned (ps, rejected)))
  \/ exists step p ps',
       resume index ps = Some (step, p, ps')
       /\ ((todo p = [] /\ exists code, settles p = Exited code
            /\ take_step turn index ps rejected = (step, Exited code))
           \/ (todo p = [] /\ exists e, settles p = Thrown e
               /\ take_step turn index ps rejected
                  = (step, Returned (ps', match rejected with
                                          | Some r => Some r
                                          | None => Some (turn, e)
                                          end)))
           \/ (running_or_fulfilled p
               /\ take_step turn index ps rejected
                  = (step, Returned (ps', rejected)))).
Proof.
  unfold take_step. destruct (resume index ps) as [[[step p] ps']|]; [|now left].
  right. exists step, p, ps'. split; [reflexivity|].
  unfold emit_all. rewrite bind_returned. unfold running_or_fulfilled.
  destruct (todo p) as [|s later], (settles p) as [a|e|c]; cbn;
    rewrite ?app_nil_r.
  - right. right. split; [right; now exists a|reflexivity].
  - right. left. split; [reflexivity|]. now exists e.
  - left. split; [reflexivity|]. now exists c.
  - right. right. split; [left; discriminate|reflexivity].
  - right. right. split; [left; discriminate|reflexivity].
  - right. right. split; [left; discriminate|reflexivity].
Qed.

(** What the event loop does with its first delivery. *)
Lemma serve_cases {A} turn index turns (ps : list (Promise A)) rejected :
  let run := serve ((turn, index) :: turns) ps rejected in
  (exists e, join_reacts turn rejected = Some e /\ run = ([], Thrown e))
  \/ (join_reacts turn rejected = None
      /\ ((resume index ps = None /\ run = serve turns ps rejected)
          \/ exists step p ps',
               resume index ps = Some (step, p, ps')
               /\ ((todo p = [] /\ exists code, settles p = Exited code
                    /\ run = (step, Exited code))
                   \/ (todo p = [] /\ exists e rejected',
                         settles p = Thrown e
                         /\ rejected' = match rejected with
                                        | Some r => Some r
                                        | None => Some (turn, e)
                                        end
                         /\ run = (step ++ trace (serve turns ps' rejected'),
                                   outcome (serve turns ps' rejected')))
                   \/ (running_or_fulfilled p
                       /\ run = (step ++ trace (serve turns ps' rejected),
                                 outcome (serve turns ps' rejected)))))).
Proof.
  cbv zeta. cbn [serve].
  destruct (join_reacts turn rejected) as [e|]; [left; now exists e|].
  right. split; [reflexivity|].
  destruct (take_step_cases turn index ps rejected)
    as [[Hr Ht]|(step & p & ps1 & Hr & [(Hp & c & Hs & Ht)
                                       |[(Hp & e & Hs & Ht)|[Hp Ht]]])];
    rewrite Ht.
  - left. split; [exact Hr|]. rewrite bind_returned. cbv beta iota zeta.
    now destruct (serve turns ps rejected).
  - right. exists step, p, ps1. split; [exact Hr|]. left.
    split; [exact Hp|]. now exists c.
  - right. exists step, p, ps1. split; [exact Hr|]. right. left.
    split; [exact Hp|]. eexists e, _. split; [exact Hs|]. split; [reflexivity|].
    now rewrite bind_returned.
  - right. exists step, p, ps1. split; [exact Hr|]. right. right.
    split; [exact Hp|]. now rewrite bind_returned.
Qed.

(** *** The event loop *)

Lemma serve_returned {A} turns :
  forall (ps : list (Promise A)) rejected tr ps',
    serve turns ps rejected = (tr, Returned ps') ->
    rejected = None
    /\ List.map settles ps' = List.map settles ps
    /\ Permutation (remaining ps) (tr ++ remaining ps')
    /\ (Forall running_or_fulfilled ps -> Forall running_or_fulfilled ps').
Proof.
  induction turns as [|[turn index] turns IH]; intros ps rejected tr ps' H.
  - simpl in H. destruct rejected as [[t e]|]; [discriminate|].
    injection H as <- <-. repeat split; auto.
  - destruct (serve_cases turn index turns ps rejected)
      as [(e & _ & E)
         |(_ & [[_ E]
               |(step & p & ps1 & Hr & [(_ & c & _ & E)
                                       |[(_ & e & r' & _ & Hr' & E)|[Hp E]]])])];
      cbv zeta in E; rewrite E in H; try discriminate.
    + now apply IH.
    + destruct (serve turns ps1 r') as [tr1 o1] eqn:E1.
      cbn [trace outcome fst snd] in H. injection H as <- ->.
      apply IH in E1. destruct E1 as [E1 _]. subst r'. now destruct rejected.
    + destruct (serve turns ps1 rejected) as [tr1 o1] eqn:E1.
      cbn [trace outcome fst snd] in H. injection H as <- ->.
      apply IH in E1. destruct E1 as (-> & Hs & Hperm & Hrun).
      destruct (resume_settles _ _ _ _ _ Hr) as [Hs1 _].
      split; [reflexivity|]. split; [congruence|]. split.
      * rewrite <- app_assoc.
        etransitivity; [apply (resume_remaining _ _ _ _ _ Hr)|].
        now apply Permutation_app_head.
      * intros Hall. apply Hrun. now apply (resume_running _ _ _ _ _ Hr).
Qed.

Lemma serve_thrown {A} turns :
  forall (ps : list (Promise A)) rejected e,
    outcome (serve turns ps rejected) = Thrown e ->
    match rejected with
    | Some (_, e') => e = e'
    | None => In (Thrown e) (List.map settles ps)
    end.
Proof.
  induction turns as [|[turn index] turns IH]; intros ps rejected e H.
  - simpl in H. destruct rejected as [[t e']|]; [|discriminate].
    now injection H as <-.
  - destruct (serve_cases turn index turns ps rejected)
      as [(e0 & Hj & E)
         |(_ & [[_ E]
               |(step & p & ps1 & Hr & [(_ & c & _ & E)
                                       |[(_ & e0 & r' & Hs & Hr' & E)|[Hp E]]])])];
      cbv zeta in E; rewrite E in H; cbn [outcome snd] in H; try discriminate.
    + injection H as <-. unfold join_reacts in Hj.
      destruct rejected as [[t e']|]; [|discriminate].
      destruct (Nat.eqb turn t); [discriminate|]. now injection Hj as <-.
    + now apply IH.
    + apply IH in H. subst r'. destruct rejected as [[t e']|]; [exact H|].
      subst e0. destruct (resume_settles _ _ _ _ _ Hr) as [_ Hin].
      now rewrite Hs in Hin.
    + apply IH in H. destruct rejected as [[t e']|]; [exact H|].
      destruct (resume_settles _ _ _ _ _ Hr) as [Hs1 _]. now rewrite <- Hs1.
Qed.

Lemma serve_no_exit {A} turns :
  forall (ps : list (Promise A)) rejected code,
    (forall c, ~ In (Exited c) (List.map settles ps)) ->
    outcome (serve turns ps rejected) <> Exited code.
Proof.
  induction turns as [|[turn index] turns IH]; intros ps rejected code Hne.
  - simpl. destruct rejected as [[t e]|]; discriminate.
  - destruct (serve_cases turn index turns ps rejected)
      as [(e0 & Hj & E)
         |(_ & [[_ E]
               |(step & p & ps1 & Hr & [(_ & c & Hs & E)
                                       |[(_ & e0 & r' & Hs & Hr' & E)|[Hp E]]])])];
      cbv zeta in E; rewrite E; cbn [outcome snd].
    + discriminate.
    + now apply IH.
    + exfalso. destruct (resume_settles _ _ _ _ _ Hr) as [_ Hin].
      rewrite Hs in Hin. now apply (Hne c).
    + apply IH. destruct (resume_settles _ _ _ _ _ Hr) as [-> _]. exact Hne.
    + apply IH. destruct (resume_settles _ _ _ _ _ Hr) as [-> _]. exact Hne.
Qed.

(** Whatever the outcome, what the event loop did is part of what the
    promises had to do. *)
Lemma serve_part {A} turns :
  forall (ps : list (Promise A)) rejected,
    exists left,
      Permutation (remaining ps) (trace (serve turns ps rejected) ++ left).
Proof.
  induction turns as [|[turn index] turns IH]; intros ps rejected.
  - exists (remaining ps). simpl. now destruct rejected as [[t e]|].
  - destruct (serve_cases turn index turns ps rejected)
      as [(e0 & Hj & E)
         |(_ & [[_ E]
               |(step & p & ps1 & Hr & [(_ & c & Hs & E)
                                       |[(_ & e0 & r' & Hs & Hr' & E)|[Hp E]]])])];
      cbv zeta in E; rewrite E; cbn [trace fst].
    + now exists (remaining ps).
    + apply IH.
    + exists (remaining ps1). apply (resume_remaining _ _ _ _ _ Hr).
    + destruct (IH ps1 r') as [left Hl].
      exists left. rewrite <- app_assoc.
      etransitivity; [apply (resume_remaining _ _ _ _ _ Hr)|].
      now apply Permutation_app_head.
    + destruct (IH ps1 rejected) as [left Hl].
      exists left. rewrite <- app_assoc.
      etransitivity; [apply (resume_remaining _ _ _ _ _ Hr)|].
      now apply Permutation_app_head.
Qed.

Lemma serve_fulfilled {A} turns :
  forall ps : list (Promise A),
    Forall (fun o => exists a, o = Returned a) (List.map settles ps) ->
    exists ps', outcome (serve turns ps None) = Returned ps'.
Proof.
  induction turns as [|[turn index] turns IH]; intros ps Hall.
  - now exists ps.
  - destruct (serve_cases turn index turns ps None)
      as [(e0 & Hj & E)
         |(_ & [[_ E]
               |(step & p & ps1 & Hr & [(_ & c & Hs & E)
                                       |[(_ & e0 & r' & Hs & Hr' & E)|[Hp E]]])])];
      cbv zeta in E; rewrite E; cbn [outcome snd].
    + discriminate Hj.
    + now apply IH.
    + exfalso. destruct (resume_settles _ _ _ _ _ Hr) as [_ Hin].
      rewrite Forall_forall in Hall. destruct (Hall _ Hin) as [a Ha]. congruence.
    + exfalso. destruct (resume_settles _ _ _ _ _ Hr) as [_ Hin].
      rewrite Forall_forall in Hall. destruct (Hall _ Hin) as [a Ha]. congruence.
    + apply IH. destruct (resume_settles _ _ _ _ _ Hr) as [-> _]. exact Hall.
Qed.

(** *** The promises served to their end *)

Lemma finish_cons {A} (p : Promise A) ps :
  finish (p :: ps)
  = match todo p with
    | [] => finish ps
    | _ :: _ =>
        bind (emit_all (List.concat (todo p))) (fun _ =>
        match settles p with
        | Returned _ => finish ps
        | Thrown e => throw e
        | Exited code => exit code
        end)
    end.
Proof. reflexivity. Qed.

Lemma finish_returned {A} (ps : list (Promise A)) :
  outcome (finish ps) = Returned tt ->
  trace (finish ps) = remaining ps
  /\ (Forall running_or_fulfilled ps ->
      Forall (fun o => exists a, o = Returned a) (List.map settles ps)).
Proof.
  induction ps as [|p ps IH]; intros H.
  - split; [reflexivity|constructor].
  - rewrite finish_cons in H |- *. rewrite remaining_cons.
    destruct (todo p) as [|s later] eqn:Et.
    + destruct (IH H) as [Htr Hall]. split; [exact Htr|].
      intros Hrun. inversion Hrun as [|? ? [Hp|Hp] Hps]; subst.
      * now rewrite Et in Hp.
      * constructor; auto.
    + unfold emit_all in *. rewrite bind_returned in *.
      destruct (settles p) as [a|e|c] eqn:Es; try discriminate.
      cbn [outcome snd trace fst] in *. destruct (IH H) as [Htr Hall].
      split; [now rewrite Htr|].
      intros Hrun. inversion Hrun; subst. constructor; [now exists a|auto].
Qed.

Lemma finish_thrown {A} (ps : list (Promise A)) e :
  outcome (finish ps) = Thrown e -> In (Thrown e) (List.map settles ps).
Proof.
  induction ps as [|p ps IH]; intros H; [discriminate|].
  rewrite finish_cons in H. destruct (todo p) as [|s later].
  - right. now apply IH.
  - unfold emit_all in H. rewrite bind_returned in H.
    destruct (settles p) as [a|e'|c] eqn:Es; cbn [outcome snd] in H.
    + right. now apply IH.
    + injection H as <-. left. exact Es.
    + discriminate.
Qed.

Lemma finish_no_exit {A} (ps : list (Promise A)) code :
  (forall c, ~ In (Exited c) (List.map settles ps)) ->
  outcome (finish ps) <> Exited code.
Proof.
  induction ps as [|p ps IH]; intros Hne; [discriminate|].
  rewrite finish_cons. destruct (todo p) as [|s later].
  - apply IH. intros c Hc. apply (Hne c). now right.
  - unfold emit_all. rewrite bind_returned.
    destruct (settles p) as [a|e'|c] eqn:Es; cbn [outcome snd].
    + apply IH. intros c Hc. apply (Hne c). now right.
    + discriminate.
    + exfalso. apply (Hne c). left. exact Es.
Qed.

Lemma finish_part {A} (ps : list (Promise A)) :
  exists left, remaining ps = trace (finish ps) ++ left.
Proof.
  induction ps as [|p ps IH]; [now exists []|].
  rewrite finish_cons, remaining_cons. destruct IH as [left Hl].
  destruct (todo p) as [|s later].
  - exists left. exact Hl.
  - unfold emit_all. rewrite bind_returned.
    destruct (settles p) as [a|e'|c]; cbn [trace fst].
    + exists left. now rewrite Hl, app_assoc.
    + exists (remaining ps). now rewrite app_nil_r.
    + exists (remaining ps). now rewrite app_nil_r.
Qed.

Lemma finish_fulfilled {A} (ps : list (Promise A)) :
  Forall (fun o => exists a, o = Returned a) (List.map settles ps) ->
  outcome (finish ps) = Returned tt.
Proof.
  induction ps as [|p ps IH]; intros Hall; [reflexivity|].
  cbn [List.map] in Hall. inversion Hall as [|? ? [a Ha] Hps]; subst.
  rewrite finish_cons. destruct (todo p); [now apply IH|].
  unfold emit_all. rewrite bind_returned, Ha. cbn. now apply IH.
Qed.

(** *** The join *)

Lemma settled_rejected_none {A} (ps : list (Promise A)) :
  settled_rejected ps = None ->
  (forall c, ~ In (Exited c) (List.map settles ps)) ->
  Forall running_or_fulfilled ps.
Proof.
  induction ps as [|p ps IH]; intros H Hne; constructor.
  - simpl in H. unfold running_or_fulfilled.
    destruct (todo p) as [|s later]; [|left; discriminate].
    destruct (settles p) as [a|e|c] eqn:Es; [right; now exists a|discriminate|].
    exfalso. apply (Hne c). left. exact Es.
  - apply IH.
    + simpl in H. now destruct (todo p), (settles p).
    + intros c Hc. apply (Hne c). now right.
Qed.

Lemma settled_rejected_some {A} (ps : list (Promise A)) e :
  settled_rejected ps = Some e -> In (Thrown e) (List.map settles ps).
Proof.
  induction ps as [|p ps IH]; intros H; [discriminate|].
  simpl in H. destruct (todo p) as [|s later], (settles p) as [a|e'|c] eqn:Es;
    try (right; now apply IH).
  injection H as <-. left. exact Es.
Qed.

Lemma settled_rejected_fulfilled {A} (ps : list (Promise A)) :
  Forall (fun o => exists a, o = Returned a) (List.map settles ps) ->
  settled_rejected ps = None.
Proof.
  induction ps as [|p ps IH]; intros Hall; [reflexivity|].
  cbn [List.map] in Hall. inversion Hall as [|? ? [a Ha] Hps]; subst.
  simpl. rewrite Ha. destruct (todo p); now apply IH.
Qed.

Lemma fulfilled_settles {A} (ps qs : list (Promise A)) :
  List.map settles ps = List.map settles qs -> fulfilled ps = fulfilled qs.
Proof.
  unfold fulfilled. revert qs. induction ps as [|p ps IH]; intros [|q qs] H;
    try discriminate; [reflexivity|].
  simpl in H. injection H as Hp Hps. simpl. now rewrite Hp, (IH qs Hps).
Qed.

Lemma fulfilled_all {A} (ps : list (Promise A)) :
  Forall (fun o => exists a, o = Returned a) (List.map settles ps) ->
  Forall2 (fun p a => settles p = Returned a) ps (fulfilled ps).
Proof.
  induction ps as [|p ps IH]; intros Hall; [constructor|].
  cbn [List.map] in Hall. inversion Hall as [|? ? [a Ha] Hps]; subst.
  unfold fulfilled. simpl. rewrite Ha. constructor; [exact Ha|now apply IH].
Qed.

(** The join, once no promise is rejected beforehand. *)
Lemma Promise_all_run {A} turns (ps : list (Promise A)) :
  settled_rejected ps = None ->
  Promise_all turns ps
  = bind (serve turns ps None) (fun ps' =>
    bind (finish ps') (fun _ => ret (fulfilled ps'))).
Proof. unfold Promise_all. now intros ->. Qed.

Lemma Promise_all_no_exit {A} turns (ps : list (Promise A)) code :
  (forall c, ~ In (Exited c) (List.map settles ps)) ->
  outcome (Promise_all turns ps) <> Exited code.
Proof.
  intros Hne. unfold Promise_all.
  destruct (settled_rejected ps); [discriminate|].
  pose proof (serve_no_exit turns ps None code Hne) as Hs.
  destruct (serve turns ps None) as [tr [ps'|e|c]] eqn:E.
  - rewrite bind_returned. cbn [outcome snd].
    apply serve_returned in E. destruct E as (_ & Hsettles & _).
    pose proof (finish_no_exit ps' code) as Hf. rewrite Hsettles in Hf.
    specialize (Hf Hne).
    destruct (finish ps') as [tr' [[]|e|c]] eqn:Ef.
    + rewrite bind_returned. discriminate.
    + discriminate.
    + cbn in *. intros H. apply Hf. now injection H as ->.
  - discriminate.
  - cbn in *. intros H. apply Hs. now injection H as ->.
Qed.

Lemma Promise_all_returned {A} turns (ps : list (Promise A)) l :
  (forall c, ~ In (Exited c) (List.map settles ps)) ->
  outcome (Promise_all turns ps) = Returned l ->
  Forall2 (fun p a => settles p = Returned a) ps l
  /\ Permutation (remaining ps) (trace (Promise_all turns ps)).
Proof.
  intros Hne H. unfold Promise_all in *.
  destruct (settled_rejected ps) eqn:Ers; [discriminate|].
  pose proof (settled_rejected_none ps Ers Hne) as Hrun.
  destruct (serve turns ps None) as [tr [ps'|e|c]] eqn:E; try discriminate.
  rewrite bind_returned in *. cbn [outcome snd trace fst] in *.
  apply serve_returned in E. destruct E as (_ & Hsettles & Hperm & Hrun').
  specialize (Hrun' Hrun).
  destruct (finish ps') as [tr' [[]|e|c]] eqn:Ef; try discriminate.
  rewrite bind_returned in *. cbn [outcome snd trace fst ret] in *.
  injection H as <-.
  destruct (finish_returned ps') as [Htr Hall]; [now rewrite Ef|].
  rewrite Ef in Htr. cbn [trace fst] in Htr. specialize (Hall Hrun').
  split.
  - rewrite (fulfilled_settles ps' ps Hsettles). apply fulfilled_all.
    now rewrite <- Hsettles.
  - now rewrite app_nil_r, Htr.
Qed.

Lemma Promise_all_thrown {A} turns (ps : list (Promise A)) e :
  outcome (Promise_all turns ps) = Thrown e ->
  In (Thrown e) (List.map settles ps).
Proof.
  intros H. unfold Promise_all in H.
  destruct (settled_rejected ps) as [e'|] eqn:Ers.
  { injection H as <-. now apply settled_rejected_some. }
  destruct (serve turns ps None) as [tr [ps'|e'|c]] eqn:E; try discriminate.
  - rewrite bind_returned in H. cbn [outcome snd] in H.
    apply serve_returned in E. destruct E as (_ & Hsettles & _).
    rewrite <- Hsettles. apply finish_thrown.
    destruct (finish ps') as [tr' [[]|e'|c]]; try discriminate.
    cbn in H. now injection H as <-.
  - cbn in H. injection H as <-.
    apply (serve_thrown turns ps None). now rewrite E.
Qed.

Lemma Promise_all_fulfilled {A} turns (ps : list (Promise A)) :
  Forall (fun o => exists a, o = Returned a) (List.map settles ps) ->
  outcome (Promise_all turns ps) = Returned (fulfilled ps).
Proof.
  intros Hall. rewrite Promise_all_run by now apply settled_rejected_fulfilled.
  destruct (serve_fulfilled turns ps Hall) as [ps' Hs].
  destruct (serve turns ps None) as [tr o] eqn:E. cbn in Hs. subst o.
  rewrite bind_returned. cbn [outcome snd].
  apply serve_returned in E. destruct E as (_ & Hsettles & _).
  pose proof (finish_fulfilled ps') as Hf. rewrite Hsettles in Hf.
  specialize (Hf Hall).
  destruct (finish ps') as [tr' o']. cbn in Hf. subst o'.
  rewrite bind_returned. cbn. now rewrite (fulfilled_settles ps' ps Hsettles).
Qed.

(** What the join did is part of what the promises had to do; the rest is
    what the promises in flight have still to do. *)
Lemma Promise_all_part {A} turns (ps : list (Promise A)) :
  exists left,
    Permutation (remaining ps) (trace (Promise_all turns ps) ++ left).
Proof.
  unfold Promise_all. destruct (settled_rejected ps).
  { now exists (remaining ps). }
  destruct (serve_part turns ps None) as [left Hl].
  destruct (serve turns ps None) as [tr [ps'|e|c]] eqn:E; cbn [trace fst] in Hl;
    [|now exists left..].
  rewrite bind_returned. cbn [trace fst].
  apply serve_returned in E. destruct E as (_ & _ & Hperm & _).
  destruct (finish_part ps') as [left' Hl'].
  exists left'. rewrite trace_bind_ret, <- app_assoc, <- Hl'. exact Hperm.
Qed.

Lemma Promise_all_events {A} turns (ps : list (Promise A)) ev :
  In ev (trace (Promise_all turns ps)) -> In ev (remaining ps).
Proof.
  intros H. destruct (Promise_all_part turns ps) as [left Hl].
  apply (Permutation_in _ (Permutation_sym Hl)). apply in_or_app. now left.
Qed.

Lemma remaining_started {A} (f : nat -> M A) (l : list nat) ev :
  In ev (remaining (List.map (fun i => started (f i)) l)) ->
  exists i, In i l /\ In ev (trace (f i)).
Proof.
  unfold remaining. rewrite map_map. intros H.
  apply in_concat in H. destruct H as (s & Hs & Hev).
  apply in_map_iff in Hs. destruct Hs as (i & <- & Hi).
  exists i. split; [exact Hi|].
  rewrite <- (first_step_later (f i)). apply in_or_app. now right.
Qed.

End JoinFacts.
(** ** [generateMultipleVariations] *)

Module VariationFacts.

(** A call that is started runs up to its [Deno.mkdir]. *)
Lemma call_first_step this config env :
  first_step (generateClayImage this config env)
  = [SpinnerMessage (MsgGeneratingImage (userInput config)); SpinnerStart;
     Mkdir (default (outputDir config) defaultOutputDir)].
Proof.
  unfold first_step, generateClayImage.
  ImageFacts.destruct_env env; cbn; try ImageFacts.case_atob; reflexivity.
Qed.

Lemma batch_settles this d count env :
  List.map settles (batch_promises this d count env)
  = List.map (fun i => outcome (variation_call this d env i))
      (List.seq 0 (ToLength count)).
Proof. unfold batch_promises. now rewrite map_map. Qed.

Lemma batch_no_exit this d count env c :
  ~ In (Exited c) (List.map settles (batch_promises this d count env)).
Proof.
  rewrite batch_settles. intros H. apply in_map_iff in H.
  destruct H as (i & H & _). revert H.
  apply ImageFacts.generateClayImage_no_exit.
Qed.

Lemma batch_join_no_exit this d count env code :
  outcome (batch_join this d count env) <> Exited code.
Proof. apply JoinFacts.Promise_all_no_exit. intros c. apply batch_no_exit. Qed.

(** A count [Array.from] refuses: nothing is started. *)
Lemma generateMultipleVariations_refused this d count env :
  ~ array_length count ->
  generateMultipleVariations this d (Some count) env
  = ([SpinnerMessage (MsgGeneratingVariations count d); SpinnerStart],
     Thrown RangeError).
Proof.
  unfold array_length, generateMultipleVariations, Array_from_length.
  intros H. cbn [default].
  destruct (Z.leb_spec (ToLength_integer count) 4294967295); [contradiction|].
  reflexivity.
Qed.

(** A batch: the spinner, the start of every call, the join, and two
    closing events. *)
Lemma generateMultipleVariations_run this d count env :
  array_length count ->
  outcome (generateMultipleVariations this d (Some count) env)
  = outcome (batch_join this d count env)
  /\ exists closing,
       trace (generateMultipleVariations this d (Some count) env)
       = [SpinnerMessage (MsgGeneratingVariations count d); SpinnerStart]
         ++ batch_start this d count env
         ++ trace (batch_join this d count env)
         ++ [SpinnerStop; closing]
       /\ match outcome (batch_join this d count env) with
          | Returned paths =>
              closing = ConsoleLog (MsgVariationsGenerated (List.length paths))
          | Thrown e => closing = ConsoleError (MsgErrorGeneratingVariations e)
          | Exited _ => False
          end.
Proof.
  unfold array_length. intros Hlen.
  pose proof (batch_join_no_exit this d count env) as Hne.
  unfold generateMultipleVariations, Array_from_length. cbn [default].
  destruct (Z.leb_spec (ToLength_integer count) 4294967295); [|lia].
  change (fun index : nat =>
            async (generateClayImage this
                     (variation_config this d index (name_clock (env index)))
                     (call_env (env index))))
    with (fun index : nat => async (variation_call this d env index)).
  rewrite (JoinFacts.for_each_started (variation_call this d env))
    by (intros i code; apply ImageFacts.generateClayImage_no_exit).
  fold (batch_promises this d count env). fold (batch_start this d count env).
  unfold emit. rewrite !JoinFacts.bind_returned. cbn [outcome snd trace fst].
  fold (batch_join this d count env).
  destruct (batch_join this d count env) as [tr [l|e|c]]; cbn.
  - split; [reflexivity|]. eexists. split; [|reflexivity].
    now rewrite <- ?app_assoc.
  - split; [reflexivity|]. eexists. split; [|reflexivity].
    now rewrite <- ?app_assoc.
  - exfalso. now apply (Hne c).
Qed.

Lemma generateMultipleVariations_outcome this d count env :
  array_length count ->
  outcome (generateMultipleVariations this d (Some count) env)
  = outcome (batch_join this d count env).
Proof. intros H. now apply generateMultipleVariations_run. Qed.

Lemma generateMultipleVariations_no_exit this d count env code :
  outcome (generateMultipleVariations this d (Some count) env) <> Exited code.
Proof.
  destruct (Z.le_gt_cases (ToLength_integer count) 4294967295) as [H|H].
  - rewrite generateMultipleVariations_outcome by exact H.
    apply batch_join_no_exit.
  - rewrite generateMultipleVariations_refused; [discriminate|].
    unfold array_length. lia.
Qed.

Lemma variation_call_returned this d env i p :
  outcome (variation_call this d env i) = Returned p ->
  p = variation_path d i (name_clock (env i)).
Proof.
  intros H. apply ImageFacts.generateClayImage_returned in H. exact H.
Qed.

Lemma variation_path_inj d i j now1 now2 :
  variation_path d i now1 = variation_path d j now2 -> i = j.
Proof.
  unfold variation_path. intros H. do 2 apply app_inv_head in H.
  destruct (Nat.eq_dec i j) as [|Hne]; [assumption|].
  exfalso. revert H. apply FilenameFacts.variation_filenames_differ. lia.
Qed.

Lemma NoDup_variation_paths d (clk : nat -> Z) start len :
  NoDup (List.map (fun i => variation_path d i (clk i)) (List.seq start len)).
Proof.
  apply NoDup_map_NoDup_ForallPairs; [|apply seq_NoDup].
  intros i j _ _ H. now apply variation_path_inj in H.
Qed.

Lemma Forall2_map_seq {A B} (R : A -> B -> Prop) (f : nat -> A) :
  forall len start l,
    Forall2 R (List.map f (List.seq start len)) l ->
    List.length l = len
    /\ forall i, (i < len)%nat ->
         exists a, nth_error l i = Some a /\ R (f (start + i)%nat) a.
Proof.
  induction len as [|len IH]; intros start l H; simpl in H.
  - inversion H; subst. split; [reflexivity|]. intros i Hi. lia.
  - inversion H as [|x a xs l' Hxa Hrest]; subst.
    destruct (IH (S start) l' Hrest) as [Hlen Hnth].
    split; [simpl; now rewrite Hlen|].
    intros [|i] Hi.
    + exists a. rewrite Nat.add_0_r. now split.
    + destruct (Hnth i ltac:(lia)) as (b & Hb & HR).
      exists b. split; [exact Hb|]. now rewrite <- plus_n_Sm.
Qed.

(** The results of a join that is fulfilled are the paths of the variations,
    in the order of their indices. *)
Lemma returned_paths this d env (l : list nat) (paths : list jsstring) :
  Forall2 (fun p a => settles p = Returned a)
    (List.map (fun i => started (variation_call this d env i)) l) paths ->
  paths = List.map (fun i => variation_path d i (name_clock (env i))) l.
Proof.
  revert paths. induction l as [|i l IH]; intros paths H; simpl in H.
  - now inversion H.
  - inversion H as [|x a xs l' Hxa Hrest]; subst. simpl. f_equal.
    + now apply variation_call_returned in Hxa.
    + now apply IH.
Qed.

(** A batch that returns: every call returned, and the join did all that
    the calls had still to do. *)
Lemma batch_returned this d count env paths :
  array_length count ->
  outcome (generateMultipleVariations this d (Some count) env) = Returned paths ->
  Forall2 (fun p a => settles p = Returned a)
    (batch_promises this d count env) paths
  /\ paths = List.map (fun i => variation_path d i (name_clock (env i)))
               (List.seq 0 (ToLength count))
  /\ Permutation (remaining (batch_promises this d count env))
       (trace (batch_join this d count env)).
Proof.
  intros Hlen H. rewrite generateMultipleVariations_outcome in H by exact Hlen.
  apply JoinFacts.Promise_all_returned in H;
    [|intros c; apply batch_no_exit].
  destruct H as [Hall Hperm]. split; [exact Hall|]. split; [|exact Hperm].
  now apply (returned_paths this d env).
Qed.

Lemma batch_thrown this d count env e :
  array_length count ->
  outcome (generateMultipleVariations this d (Some count) env) = Thrown e ->
  exists i, (i < ToLength count)%nat
            /\ outcome (variation_call this d env i) = Thrown e.
Proof.
  intros Hlen H. rewrite generateMultipleVariations_outcome in H by exact Hlen.
  apply JoinFacts.Promise_all_thrown in H. rewrite batch_settles in H.
  apply in_map_iff in H. destruct H as (i & Hi & Hin).
  apply in_seq in Hin. exists i. split; [lia|now symmetry].
Qed.

Lemma all_variations_returned this d env n :
  (forall i, (i < n)%nat -> exists p, outcome (variation_call this d env i) = Returned p) ->
  Forall (fun o => exists a, o = Returned a)
    (List.map (fun i => outcome (variation_call this d env i)) (List.seq 0 n)).
Proof.
  intros Hall. apply Forall_forall. intros o Ho.
  apply in_map_iff in Ho. destruct Ho as (i & <- & Hi). apply in_seq in Hi.
  apply Hall. lia.
Qed.

(** When every call returns, so does the batch. *)
Lemma batch_fulfilled this d count env :
  array_length count ->
  (forall i, (i < ToLength count)%nat ->
     exists p, outcome (variation_call this d env i) = Returned p) ->
  outcome (generateMultipleVariations this d (Some count) env)
  = Returned (List.map (fun i => variation_path d i (name_clock (env i)))
                (List.seq 0 (ToLength count))).
Proof.
  intros Hlen Hall.
  assert (Hs : Forall (fun o => exists a, o = Returned a)
                 (List.map settles (batch_promises this d count env))).
  { rewrite batch_settles. now apply all_variations_returned. }
  rewrite generateMultipleVariations_outcome by exact Hlen.
  unfold batch_join. rewrite JoinFacts.Promise_all_fulfilled by exact Hs.
  f_equal. apply (returned_paths this d env).
  now apply JoinFacts.fulfilled_all.
Qed.

Lemma ToLength_in_range n :
  (0 <= n <= 4294967295)%Z ->
  ToLength (Num n) = Z.to_nat n /\ array_length (Num n).
Proof.
  unfold ToLength, array_length, ToLength_integer. intros H.
  rewrite Z.max_r, Z.min_l by lia. split; [reflexivity|lia].
Qed.

(** The sample answers: every variation succeeds. *)
Lemma sample_variations_return d i :
  outcome (variation_call sample_agent d sample_variations_env i)
  = Returned (variation_path d i (name_clock (sample_variations_env i))).
Proof. reflexivity. Qed.

End VariationFacts.

(** C1, as amended: for every description and every count N from 1 to
    2^32 - 1, if each of the N [generateClayImage] calls succeeds,
    [generateMultipleVariations] returns exactly N paths, pairwise distinct,
    the path of index i being the default output directory followed by the
    variation file name of index i; and for every count from 2^32 on,
    [Array.from] throws a RangeError before any call is started, whatever the
    calls would do. *)
Theorem generateMultipleVariations_all_succeed :
  forall (this : ClaySculptorAgent) (d : jsstring) (n : Z)
         (env : nat -> VariationEnv),
    ((1 <= n <= 4294967295)%Z ->
     (forall i, (i < Z.to_nat n)%nat ->
        exists p, outcome (variation_call this d env i) = Returned p) ->
     exists paths,
       outcome (generateMultipleVariations this d (Some (Num n)) env) = Returned paths
       /\ List.length paths = Z.to_nat n
       /\ NoDup paths
       /\ forall i, (i < Z.to_nat n)%nat ->
            nth_error paths i
            = Some (defaultOutputDir ++ lit "/"
                    ++ generateFilename d true (Some (N.of_nat i))
                         (name_clock (env i))))
    /\ ((4294967296 <= n)%Z ->
        generateMultipleVariations this d (Some (Num n)) env
        = ([SpinnerMessage (MsgGeneratingVariations (Num n) d); SpinnerStart],
           Thrown RangeError)).
Proof.
  intros this d n env. split.
  - intros Hn Hall.
    destruct (VariationFacts.ToLength_in_range n ltac:(lia)) as [Hlen Hrange].
    exists (List.map (fun i => variation_path d i (name_clock (env i)))
              (List.seq 0 (Z.to_nat n))).
    split; [|split; [|split]].
    + rewrite <- Hlen. apply VariationFacts.batch_fulfilled; [exact Hrange|].
      now rewrite Hlen.
    + now rewrite length_map, length_seq.
    + apply VariationFacts.NoDup_variation_paths.
    + intros i Hi. rewrite nth_error_map, nth_error_seq.
      destruct (Nat.ltb_spec i (Z.to_nat n)); [reflexivity|lia].
  - intros Hn. apply VariationFacts.generateMultipleVariations_refused.
    unfold array_length, ToLength_integer. lia.
Qed.

Lemma generateMultipleVariations_all_succeed_witness :
  exists paths,
    outcome (generateMultipleVariations sample_agent (lit "cat") (Some (Num 3))
               sample_variations_env) = Returned paths
    /\ List.length paths = 3%nat
    /\ NoDup paths
    /\ nth_error paths 2
       = Some (lit "./output/clay_cat_variation_3_2023-11-14T22-13-20-002Z.png").
Proof.
  destruct (generateMultipleVariations_all_succeed sample_agent (lit "cat") 3
              sample_variations_env) as [H _].
  destruct H as (paths & Hout & Hlen & Hnd & Hnth).
  - lia.
  - intros i Hi. eexists. apply VariationFacts.sample_variations_return.
  - exists paths. repeat split; try assumption.
    rewrite (Hnth 2%nat); [reflexivity|].
    change (Z.to_nat 3) with 3%nat. lia.
Defined.

(** C1, as stated, fails: with the count 2^32, which the single command
    passes on unchecked, every one of the calls would succeed, and yet the
    batch returns no path: [Array.from] throws a RangeError and no call is
    started. *)
Lemma generateMultipleVariations_count_too_large :
  (1 <= 4294967296)%Z
  /\ (forall i,
        exists p,
          outcome (variation_call sample_agent (lit "cat") sample_variations_env i)
          = Returned p)
  /\ generateMultipleVariations sample_agent (lit "cat") (Some (Num 4294967296))
       sample_variations_env
     = ([SpinnerMessage (MsgGeneratingVariations (Num 4294967296) (lit "cat"));
         SpinnerStart],
        Thrown RangeError)
  /\ forall paths,
       outcome (generateMultipleVariations sample_agent (lit "cat")
                  (Some (Num 4294967296)) sample_variations_env)
       <> Returned paths.
Proof.
  split; [lia|]. split.
  - intros i. eexists. apply VariationFacts.sample_variations_return.
  - split; [reflexivity|]. intros paths. discriminate.
Qed.

(** C2: for every description and count, if any one of the
    [generateClayImage] calls fails, [generateMultipleVariations] fails as a
    whole: it throws and returns no list of results. *)
Theorem generateMultipleVariations_any_fails :
  forall (this : ClaySculptorAgent) (d : jsstring) (count : number)
         (env : nat -> VariationEnv) (i : nat) (e : Error),
    (i < ToLength count)%nat ->
    outcome (variation_call this d env i) = Thrown e ->
    (exists e', outcome (generateMultipleVariations this d (Some count) env) = Thrown e')
    /\ (forall paths,
          outcome (generateMultipleVariations this d (Some count) env) <> Returned paths).
Proof.
  intros this d count env i e Hi He.
  assert (Hnot : forall paths,
            outcome (generateMultipleVariations this d (Some count) env)
            <> Returned paths).
  { intros paths Hp.
    destruct (Z.le_gt_cases (ToLength_integer count) 4294967295) as [Hlen|Hlen].
    - destruct (VariationFacts.batch_returned this d count env paths Hlen Hp)
        as (Hall & _ & _).
      unfold batch_promises in Hall.
      apply VariationFacts.Forall2_map_seq in Hall. destruct Hall as [_ Hnth].
      destruct (Hnth i Hi) as (a & _ & Ha).
      change (outcome (variation_call this d env i) = Returned a) in Ha.
      congruence.
    - rewrite VariationFacts.generateMultipleVariations_refused in Hp;
        [discriminate|]. unfold array_length. lia. }
  split; [|exact Hnot].
  pose proof (VariationFacts.generateMultipleVariations_no_exit this d count env)
    as Hne.
  destruct (outcome (generateMultipleVariations this d (Some count) env))
    as [paths|e'|c].
  - exfalso. now apply (Hnot paths).
  - now exists e'.
  - exfalso. now apply (Hne c).
Qed.

Lemma generateMultipleVariations_any_fails_witness :
  exists e',
    outcome (generateMultipleVariations sample_agent (lit "cat") (Some (Num 3))
               failing_variations_env) = Thrown e'.
Proof.
  apply (generateMultipleVariations_any_fails sample_agent (lit "cat") (Num 3)
           failing_variations_env 1 NoImagesGenerated).
  - change (ToLength (Num 3)) with 3%nat. lia.
  - reflexivity.
Defined.

(** ** Traces *)

Module TraceFacts.

Lemma trace_bind_in {A B} (m : M A) (k : A -> M B) ev :
  In ev (trace (bind m k)) ->
  In ev (trace m) \/ exists a, outcome m = Returned a /\ In ev (trace (k a)).
Proof.
  unfold trace, outcome, bind. destruct m as [tr [a|e|c]]; simpl; auto.
  destruct (k a) as [tr' o] eqn:E. simpl. intros H.
  apply in_app_or in H. destruct H; [now left|right].
  exists a. now rewrite E.
Qed.

Lemma trace_try_catch_in {A} (m : M A) (h : Error -> M A) ev :
  In ev (trace (try_catch m h)) ->
  In ev (trace m) \/ exists e, outcome m = Thrown e /\ In ev (trace (h e)).
Proof.
  unfold trace, outcome, try_catch. destruct m as [tr [a|e|c]]; simpl; auto.
  destruct (h e) as [tr' o] eqn:E. simpl. intros H.
  apply in_app_or in H. destruct H; [now left|right].
  exists e. now rewrite E.
Qed.

Lemma generateClayImage_events this config env ev :
  In ev (trace (generateClayImage this config env)) ->
  call_event this config env ev.
Proof.
  unfold generateClayImage, resolved_path.
  ImageFacts.destruct_env env; cbn; try ImageFacts.case_atob; cbn;
    intros H;
    repeat (destruct H as [<-|H]; [cbn; eauto|]); try contradiction.
Qed.

Lemma generateMultipleVariations_events this d count env ev :
  In ev (trace (generateMultipleVariations this d (Some count) env)) ->
  batch_event ev
  \/ exists i, (i < ToLength count)%nat /\ In ev (trace (variation_call this d env i)).
Proof.
  intros H.
  destruct (Z.le_gt_cases (ToLength_integer count) 4294967295) as [Hlen|Hlen].
  - destruct (VariationFacts.generateMultipleVariations_run this d count env Hlen)
      as (_ & closing & Htr & Hc).
    rewrite Htr in H. clear Htr.
    apply in_app_or in H. destruct H as [[<-|[<-|[]]]|H]; [now left..|].
    apply in_app_or in H. destruct H as [H|H].
    + right. unfold batch_start in H. apply in_concat in H.
      destruct H as (s & Hs & Hev). apply in_map_iff in Hs.
      destruct Hs as (i & <- & Hi). apply in_seq in Hi.
      exists i. split; [lia|].
      rewrite <- (JoinFacts.first_step_later (variation_call this d env i)).
      apply in_or_app. now left.
    + apply in_app_or in H. destruct H as [H|[<-|[<-|[]]]].
      * right. apply JoinFacts.Promise_all_events in H.
        apply JoinFacts.remaining_started in H.
        destruct H as (i & Hi & Hev). apply in_seq in Hi.
        exists i. split; [lia|exact Hev].
      * now left.
      * left. destruct (outcome (batch_join this d count env));
          [subst closing; exact I..|contradiction].
  - rewrite VariationFacts.generateMultipleVariations_refused in H
      by (unfold array_length; lia).
    destruct H as [<-|[<-|[]]]; now left.
Qed.

End TraceFacts.

(** ** The interactive session *)

Module SessionFacts.
Import Regex.

Lemma star_spec {R} cls s (k : jsstring -> jsstring -> option R) r :
  star cls s k = Some r ->
  exists m rest, s = m ++ rest /\ Forall (fun c => cls c = true) m
                 /\ k m rest = Some r.
Proof.
  revert k. induction s as [|c s IH]; intros k H; simpl in H.
  - now exists [], [].
  - destruct (cls c) eqn:Ec.
    + destruct (star cls s (fun m rest => k (c :: m) rest)) as [r'|] eqn:E.
      * injection H as <-. apply IH in E.
        destruct E as (m & rest & -> & Hm & Hk).
        exists (c :: m), rest. repeat split; auto.
      * now exists [], (c :: s).
    + now exists [], (c :: s).
Qed.

Lemma plus_spec {R} cls s (k : jsstring -> jsstring -> option R) r :
  plus cls s k = Some r ->
  exists c m rest, s = (c :: m) ++ rest
                   /\ Forall (fun c => cls c = true) (c :: m)
                   /\ k (c :: m) rest = Some r.
Proof.
  unfold plus. destruct s as [|c s]; [discriminate|].
  destruct (cls c) eqn:Ec; [|discriminate]. intros H.
  apply star_spec in H. destruct H as (m & rest & -> & Hm & Hk).
  exists c, m, rest. repeat split; auto.
Qed.

Lemma literal_i_spec {R} word s (k : jsstring -> option R) r :
  literal_i word s k = Some r ->
  exists pre rest, s = pre ++ rest /\ List.map ascii_lower pre = word
                   /\ k rest = Some r.
Proof.
  revert s. induction word as [|w word IH]; intros s H; simpl in H.
  - now exists [], s.
  - destruct s as [|c s]; [discriminate|].
    destruct (N.eqb_spec (ascii_lower c) w) as [<-|]; [|discriminate].
    apply IH in H. destruct H as (pre & rest & -> & <- & Hk).
    now exists (c :: pre), rest.
Qed.

(** What a match of the variations pattern says about the input. *)
Lemma match_variations_spec input g1 g2 :
  match_variations input = Some (g1, g2) ->
  exists word space1 space2,
    input = word ++ space1 ++ g1 ++ space2 ++ g2
    /\ List.map ascii_lower word = lit "variations"
    /\ space1 <> [] /\ Forall (fun c => is_space c = true) space1
    /\ g1 <> [] /\ Forall (fun c => is_digit c = true) g1
    /\ space2 <> [] /\ Forall (fun c => is_space c = true) space2
    /\ g2 <> [] /\ Forall (fun c => is_dot c = true) g2.
Proof.
  unfold match_variations. intros H.
  apply literal_i_spec in H. destruct H as (word & s1 & -> & Hword & H).
  apply plus_spec in H. destruct H as (c1 & m1 & s2 & -> & Hs1 & H).
  apply plus_spec in H. destruct H as (c2 & m2 & s3 & -> & Hd & H).
  apply plus_spec in H. destruct H as (c3 & m3 & s4 & -> & Hs2 & H).
  apply plus_spec in H. destruct H as (c4 & m4 & s5 & -> & Hdot & H).
  destruct s5; [|discriminate]. injection H as <- <-.
  exists word, (c1 :: m1), (c3 :: m3).
  rewrite app_nil_r. repeat split; auto; discriminate.
Qed.

Lemma digit_not_space c : is_digit c = true -> is_space c = false.
Proof.
  unfold is_digit, is_space, is_line_terminator. intros H. bool_to_prop. lia.
Qed.

Lemma digit_value_digit c :
  is_digit c = true -> digit_value 10 c = Some (c - 48)%N.
Proof.
  unfold digit_value. intros H. rewrite H.
  unfold is_digit in H. bool_to_prop.
  destruct (N.ltb_spec (c - 48) 10); [reflexivity|lia].
Qed.

Lemma parse_digits_digits s a :
  Forall (fun c => is_digit c = true) s ->
  exists v, parse_digits 10 (Some a) s = Some v
            /\ Z.of_N v
               = List.fold_left (fun acc c => (acc * 10 + (Z.of_N c - 48))%Z) s (Z.of_N a).
Proof.
  intros H. revert a. induction H as [|c s Hc _ IH]; intros a; simpl.
  - now exists a.
  - rewrite (digit_value_digit c Hc).
    destruct (IH (a * 10 + (c - 48))%N) as (v & Hv & Hz).
    exists v. split; [exact Hv|]. rewrite Hz. f_equal.
    unfold is_digit in Hc. bool_to_prop. lia.
Qed.

(** [parseInt] on a non-empty string of digits is its decimal value. *)
Lemma parseInt_digits g :
  g <> [] -> Forall (fun c => is_digit c = true) g ->
  parseInt g = Num (digits_value g) /\ (0 <= digits_value g)%Z.
Proof.
  intros Hne Hg. destruct Hg as [|c g Hc Hg]; [contradiction|].
  assert (Hc' := Hc). unfold is_digit in Hc'. bool_to_prop.
  assert (E45 : (c =? 45)%N = false) by (apply N.eqb_neq; lia).
  assert (E43 : (c =? 43)%N = false) by (apply N.eqb_neq; lia).
  destruct (parse_digits_digits g (0 * 10 + (c - 48))%N Hg) as (v & Hv & Hz).
  assert (Hparse : parse_digits 10 None (c :: g) = Some v).
  { simpl parse_digits. now rewrite (digit_value_digit c Hc). }
  assert (Hval : Z.of_N v = digits_value (c :: g)).
  { unfold digits_value. simpl fold_left. rewrite Hz. f_equal. lia. }
  unfold parseInt. simpl dropWhile. rewrite (digit_not_space c Hc), E45, E43.
  destruct g as [|b g].
  - cbv iota beta. rewrite Hparse, <- Hval. split; [reflexivity|lia].
  - inversion Hg as [|? ? Hb _]; subst. unfold is_digit in Hb. bool_to_prop.
    assert (E120 : (b =? 120)%N = false) by (apply N.eqb_neq; lia).
    assert (E88 : (b =? 88)%N = false) by (apply N.eqb_neq; lia).
    rewrite E120, E88, andb_false_r. cbv iota beta.
    rewrite Hparse, <- Hval. split; [reflexivity|lia].
Qed.

Lemma streq_head (a b : char) (x y : jsstring) :
  a <> b -> streq (a :: x) (b :: y) = false.
Proof.
  intros Hab. unfold streq. destruct (list_eq_dec N.eq_dec (a :: x) (b :: y)) as [E|];
    [injection E as E _; contradiction|reflexivity].
Qed.

(** An input that matches the variations pattern is none of the words
    quit, exit, help and clear, and is not blank. *)
Lemma match_variations_not_word input g1 g2 :
  match_variations input = Some (g1, g2) ->
  exists c rest, input = c :: rest /\ toLowerCase input = 118%N :: toLowerCase rest.
Proof.
  intros H. apply match_variations_spec in H.
  destruct H as (word & s1 & s2 & -> & Hword & _).
  destruct word as [|c word]; [discriminate|].
  simpl in Hword. injection Hword as Hc _.
  eexists c, _. split; [reflexivity|]. unfold toLowerCase. simpl. now rewrite Hc.
Qed.

Lemma handleCommand_variations this input g1 g2 env :
  match_variations input = Some (g1, g2) ->
  handleCommand this input env
  = (handled <- handleVariationsCommand this input (variations_env env) ;;
     if handled then ret false
     else generateSingleImage this input (single_env env) ;;
          emit (ConsoleLog MsgBlank) ;; ret false).
Proof.
  intros H. destruct (match_variations_not_word _ _ _ H) as (c & rest & -> & Hl).
  unfold handleCommand. rewrite Hl.
  change (lit "quit") with (113%N :: lit "uit").
  change (lit "exit") with (101%N :: lit "xit").
  change (lit "help") with (104%N :: lit "elp").
  change (lit "clear") with (99%N :: lit "lear").
  rewrite !streq_head by discriminate. reflexivity.
Qed.

End SessionFacts.

(** C8: for every input that matches the variations pattern the first group
    parses to a number n >= 0; when n is in [1,10] the command logs and calls
    [generateMultipleVariations] with count n and the trimmed description;
    when n is outside [1,10] the only thing that happens is the warning: no
    generation call is made, and the session goes on to its next input. *)
Theorem handleVariationsCommand_validates_count :
  forall (this : InteractiveClaySculptor) (input g1 g2 : jsstring)
         (env : CommandEnv),
    Regex.match_variations input = Some (g1, g2) ->
    exists n,
      parseInt g1 = Num n /\ (0 <= n)%Z
      /\ ((1 <= n <= 10)%Z ->
          handleVariationsCommand this input (variations_env env)
          = (emit (ConsoleLog (MsgGeneratingVariations (Num n) (trim g2))) ;;
             generateMultipleVariations (agent this) (trim g2) (Some (Num n))
               (variations_env env) ;;
             ret true))
      /\ ((n < 1 \/ 10 < n)%Z ->
          handleVariationsCommand this input (variations_env env)
          = ([ConsoleLog MsgSpecifyRange], Returned true)
          /\ handleCommand this input env
             = ([ConsoleLog MsgSpecifyRange], Returned false)
          /\ forall text rest,
               trim text = input ->
               session_loop this ((Some text, env) :: rest)
               = (ConsoleLog MsgSpecifyRange :: trace (session_loop this rest),
                  outcome (session_loop this rest))).
Proof.
  intros this input g1 g2 env Hmatch.
  destruct (SessionFacts.match_variations_spec _ _ _ Hmatch)
    as (word & s1 & s2 & Hin & _ & _ & _ & Hne & Hd & _).
  destruct (SessionFacts.parseInt_digits g1 Hne Hd) as [Hp Hpos].
  exists (digits_value g1). split; [exact Hp|]. split; [exact Hpos|].
  assert (Hhandle : forall b,
            (js_lt (Num (digits_value g1)) (Num 1)
             || js_gt (Num (digits_value g1)) (Num 10)) = b ->
            handleVariationsCommand this input (variations_env env)
            = if b then (emit (ConsoleLog MsgSpecifyRange) ;; ret true)
              else (emit (ConsoleLog (MsgGeneratingVariations
                                        (Num (digits_value g1)) (trim g2))) ;;
                    generateMultipleVariations (agent this) (trim g2)
                      (Some (Num (digits_value g1))) (variations_env env) ;;
                    ret true)).
  { intros b <-. unfold handleVariationsCommand. rewrite Hmatch, Hp. reflexivity. }
  split.
  - intros Hrange. apply (Hhandle false). unfold js_gt, js_lt.
    destruct (Z.ltb_spec (digits_value g1) 1); [lia|].
    destruct (Z.ltb_spec 10 (digits_value g1)); [lia|]. reflexivity.
  - intros Hout.
    assert (Hv : handleVariationsCommand this input (variations_env env)
                 = ([ConsoleLog MsgSpecifyRange], Returned true)).
    { rewrite (Hhandle true); [reflexivity|]. unfold js_gt, js_lt.
      destruct (Z.ltb_spec (digits_value g1) 1); [reflexivity|].
      destruct (Z.ltb_spec 10 (digits_value g1)); [reflexivity|lia]. }
    assert (Hc : handleCommand this input env
                 = ([ConsoleLog MsgSpecifyRange], Returned false)).
    { rewrite (SessionFacts.handleCommand_variations _ _ _ _ _ Hmatch), Hv.
      reflexivity. }
    split; [exact Hv|]. split; [exact Hc|].
    intros text rest Htrim.
    destruct (SessionFacts.match_variations_not_word _ _ _ Hmatch)
      as (c & r & Hinput & _).
    simpl session_loop. unfold session_turn. rewrite Htrim, Hinput.
    rewrite <- Hinput, Hc. cbn.
    destruct (session_loop this rest) as [tr o]. reflexivity.
Qed.

Lemma handleVariationsCommand_validates_count_witness :
  handleCommand (new_InteractiveClaySculptor (lit "api-key")
                   {| opt_model := None; opt_outputDir := None;
                      opt_variations := None; opt_shadows := None |})
    (lit "variations 11 cat")
    {| single_env := sample_call_env 0; variations_env := sample_variations_env |}
  = ([ConsoleLog MsgSpecifyRange], Returned false).
Proof.
  destruct (handleVariationsCommand_validates_count
              (new_InteractiveClaySculptor (lit "api-key")
                 {| opt_model := None; opt_outputDir := None;
                    opt_variations := None; opt_shadows := None |})
              (lit "variations 11 cat") (lit "11") (lit "cat")
              {| single_env := sample_call_env 0;
                 variations_env := sample_variations_env |} eq_refl)
    as (n & Hn & _ & _ & Hout).
  injection Hn as <-.
  destruct Hout as (_ & Hc & _); [right; reflexivity|exact Hc].
Defined.

(** ** The command line *)

(** C9: when GEMINI_API_KEY is absent, both run modes print the two lines of
    the remediation message and exit with code 1 having done nothing else, in
    particular no call of the image API; so does [main] whenever it reaches a
    run mode. *)
Theorem missing_api_key_exits :
  forall (args : CliArgs) (env : ProcessEnv),
    GEMINI_API_KEY env = None ->
    runSingleCommandMode args env = (missing_key_trace, Exited 1%Z)
    /\ runInteractiveMode args env = (missing_key_trace, Exited 1%Z)
    /\ (or_false (arg_help args) = false ->
        or_false (arg_version args) = false ->
        or_false (arg_interactive args) = true \/ arg_positional args <> [] ->
        main args env = (missing_key_trace, Exited 1%Z)
        /\ exit_code (main args env) = 1%Z
        /\ requested_models (trace (main args env)) = []).
Proof.
  intros args env Hkey.
  assert (Hs : runSingleCommandMode args env = (missing_key_trace, Exited 1%Z)).
  { unfold runSingleCommandMode, getApiKey. rewrite Hkey. reflexivity. }
  assert (Hi : runInteractiveMode args env = (missing_key_trace, Exited 1%Z)).
  { unfold runInteractiveMode, getApiKey. rewrite Hkey. reflexivity. }
  split; [exact Hs|]. split; [exact Hi|].
  intros Hhelp Hversion Hmode.
  assert (Hm : main args env = (missing_key_trace, Exited 1%Z)).
  { unfold main. rewrite Hhelp, Hversion.
    destruct (or_false (arg_interactive args)); [exact Hi|].
    destruct Hmode as [|Hpos]; [discriminate|].
    destruct (arg_positional args); [contradiction|now rewrite Hs]. }
  rewrite Hm. repeat split.
Qed.

Lemma missing_api_key_exits_witness :
  main cat_args keyless_process_env = (missing_key_trace, Exited 1%Z).
Proof.
  destruct (missing_api_key_exits cat_args keyless_process_env eq_refl)
    as (_ & _ & Hmain).
  destruct Hmain as (H & _); [reflexivity|reflexivity|right; discriminate|exact H].
Defined.

Module CliFacts.
Import TraceFacts.

Lemma generateClayImage_no_warning this config env :
  ~ In (ConsoleLog MsgSpecifyRange) (trace (generateClayImage this config env)).
Proof.
  intros H. apply generateClayImage_events in H. discriminate H.
Qed.

Lemma generateMultipleVariations_no_warning this d count env :
  ~ In (ConsoleLog MsgSpecifyRange) (trace (generateMultipleVariations this d (Some count) env)).
Proof.
  intros H. apply generateMultipleVariations_events in H.
  destruct H as [H|(i & _ & H)]; [exact H|].
  now apply generateClayImage_no_warning in H.
Qed.

Lemma bind_ret {A B} (a : A) (k : A -> M B) : bind (ret a) k = k a.
Proof. unfold bind, ret. now destruct (k a). Qed.

(** The single command, once the key is read and the description is there. *)
Lemma runSingleCommandMode_dispatch args env apiKey userInput rest :
  truthy_string (GEMINI_API_KEY env) = Some apiKey ->
  arg_positional args = userInput :: rest ->
  let agent := new_ClaySculptorAgent apiKey (Some (or_false (arg_shadows args))) in
  let variations := match truthy_string (arg_variations args) with
                    | Some v => parseInt v
                    | None => Num 1
                    end in
  runSingleCommandMode args env
  = try_catch
      ((if js_gt variations (Num 1) then
          generateMultipleVariations agent userInput (Some variations)
            (variations_env (command_env env)) ;;
          ret tt
        else
          generateClayImage agent (single_command_config args userInput)
            (single_env (command_env env)) ;;
          ret tt) ;;
       emit (ConsoleLog MsgCompleted))
      fatal.
Proof.
  intros Hkey Hpos. unfold runSingleCommandMode, getApiKey.
  rewrite Hkey, Hpos, bind_ret. reflexivity.
Qed.

End CliFacts.

(** C10: in single-command mode the value of --variations is not checked
    against a range: when it parses to an integer n > 1, however large,
    [generateMultipleVariations] is called with count n; when it parses to
    NaN or to an integer n <= 1, one [generateClayImage] call is made
    instead; and the range warning is never printed. *)
Theorem runSingleCommandMode_variations_unchecked :
  forall (args : CliArgs) (env : ProcessEnv) (apiKey userInput : jsstring)
         (rest : list jsstring) (v : jsstring),
    truthy_string (GEMINI_API_KEY env) = Some apiKey ->
    arg_positional args = userInput :: rest ->
    arg_variations args = Some v ->
    let agent := new_ClaySculptorAgent apiKey (Some (or_false (arg_shadows args))) in
    (forall n, parseInt v = Num n -> (1 < n)%Z ->
       runSingleCommandMode args env
       = try_catch
           ((generateMultipleVariations agent userInput (Some (Num n))
               (variations_env (command_env env)) ;;
             ret tt) ;;
            emit (ConsoleLog MsgCompleted))
           fatal)
    /\ ((parseInt v = NaN \/ exists n, parseInt v = Num n /\ (n <= 1)%Z) ->
        runSingleCommandMode args env
        = try_catch
            ((generateClayImage agent (single_command_config args userInput)
                (single_env (command_env env)) ;;
              ret tt) ;;
             emit (ConsoleLog MsgCompleted))
            fatal)
    /\ ~ In (ConsoleLog MsgSpecifyRange) (trace (runSingleCommandMode args env)).
Proof.
  intros args env apiKey userInput rest v Hkey Hpos Hv agent.
  pose proof (CliFacts.runSingleCommandMode_dispatch args env apiKey userInput rest
                Hkey Hpos) as Hrun.
  cbv zeta in Hrun. fold agent in Hrun. rewrite Hv in Hrun.
  split; [|split].
  - intros n Hn Hgt. rewrite Hrun.
    destruct v as [|c v]; [discriminate Hn|]. cbn [truthy_string]. rewrite Hn.
    unfold js_gt, js_lt. destruct (Z.ltb_spec 1 n); [reflexivity|lia].
  - intros Hsmall. rewrite Hrun.
    destruct v as [|c v]; [reflexivity|]. cbn [truthy_string].
    destruct Hsmall as [->|(n & -> & Hn)]; [reflexivity|].
    unfold js_gt, js_lt. destruct (Z.ltb_spec 1 n); [lia|reflexivity].
  - rewrite Hrun. intros H.
    apply TraceFacts.trace_try_catch_in in H. destruct H as [H|(e & _ & H)].
    + apply TraceFacts.trace_bind_in in H. destruct H as [H|(_ & _ & H)].
      * destruct (js_gt _ _);
          apply TraceFacts.trace_bind_in in H; destruct H as [H|(_ & _ & [])].
        -- now apply CliFacts.generateMultipleVariations_no_warning in H.
        -- now apply CliFacts.generateClayImage_no_warning in H.
      * destruct H as [H|[]]; discriminate H.
    + destruct H as [H|[]]; discriminate H.
Qed.

Lemma runSingleCommandMode_variations_unchecked_witness :
  runSingleCommandMode fifteen_args (sample_process_env 1700000000000)
  = try_catch
      ((generateMultipleVariations
          (new_ClaySculptorAgent (lit "api-key") (Some false)) (lit "cat")
          (Some (Num 15)) sample_variations_env ;;
        ret tt) ;;
       emit (ConsoleLog MsgCompleted))
      fatal.
Proof.
  destruct (runSingleCommandMode_variations_unchecked fifteen_args
              (sample_process_env 1700000000000) (lit "api-key") (lit "cat") []
              (lit "15") eq_refl eq_refl eq_refl) as (Hmany & _ & _).
  apply (Hmany 15%Z); [reflexivity|lia].
Defined.

(** ** Output paths *)

Module PathFacts.
Import JsDate TimestampFacts.

Lemma app_inv_length_tail {A} (a a' b b' : list A) :
  List.length b = List.length b' -> a ++ b = a' ++ b' -> a = a' /\ b = b'.
Proof.
  intros Hlen Heq. apply app_inv_length; [|exact Heq].
  apply (f_equal (@List.length A)) in Heq. rewrite !length_app in Heq. lia.
Qed.

(** Whatever precedes them, two timestamped names made at different clock
    readings differ. *)
Lemma timestamped_differ (x1 x2 : jsstring) t1 t2 :
  four_digit_year t1 -> four_digit_year t2 -> t1 <> t2 ->
  x1 ++ timestamp t1 ++ lit ".png" <> x2 ++ timestamp t2 ++ lit ".png".
Proof.
  intros H1 H2 Hne Heq. apply app_inv_length_tail in Heq.
  - destruct Heq as [_ Heq]. apply app_inv_tail in Heq.
    now apply Hne, timestamp_inj.
  - now rewrite !length_app, !timestamp_length.
Qed.

Lemma resolved_path_timestamped config env t :
  path_clock config env t ->
  exists x, resolved_path config env = x ++ timestamp t ++ lit ".png".
Proof.
  intros [[H ->]|(this & d & index & ->)]; unfold resolved_path, or_string.
  - rewrite H, FilenameFacts.generateFilename_segments.
    exists (default (outputDir config) defaultOutputDir ++ lit "/" ++ lit "clay_"
            ++ sanitize (userInput config) ++ lit "_").
    now rewrite <- !app_assoc.
  - cbn [outputPath variation_config truthy_string defaultOutputDir lit
           list_ascii_of_string List.map app].
    rewrite FilenameFacts.generateFilename_segments.
    exists (defaultOutputDir ++ lit "/" ++ lit "clay_" ++ sanitize d ++ lit "_"
            ++ variation_segment true (Some (N.of_nat index))).
    now rewrite <- !app_assoc.
Qed.

Lemma single_command_events args env apiKey userInput rest ev :
  truthy_string (GEMINI_API_KEY env) = Some apiKey ->
  arg_positional args = userInput :: rest ->
  arg_variations args = None ->
  In ev (trace (runSingleCommandMode args env)) ->
  call_event (new_ClaySculptorAgent apiKey (Some (or_false (arg_shadows args))))
    (single_command_config args userInput) (single_env (command_env env)) ev
  \/ ev = ConsoleLog MsgCompleted \/ exists e, ev = ConsoleError (MsgFatalError e).
Proof.
  intros Hkey Hpos Hv H.
  rewrite (CliFacts.runSingleCommandMode_dispatch args env apiKey userInput rest
             Hkey Hpos) in H.
  rewrite Hv in H. cbn [truthy_string js_gt js_lt Z.ltb Z.compare] in H.
  apply TraceFacts.trace_try_catch_in in H. destruct H as [H|(e & _ & H)].
  - apply TraceFacts.trace_bind_in in H. destruct H as [H|(_ & _ & H)].
    + apply TraceFacts.trace_bind_in in H. destruct H as [H|(_ & _ & [])].
      left. now apply TraceFacts.generateClayImage_events.
    + destruct H as [<-|[]]. right. now left.
  - destruct H as [<-|[]]. right. right. now exists e.
Qed.

End PathFacts.

(** The path a single command without --output and --variations writes. *)
Lemma single_command_path args env apiKey userInput rest p bytes :
  truthy_string (GEMINI_API_KEY env) = Some apiKey ->
  arg_positional args = userInput :: rest ->
  arg_variations args = None ->
  truthy_string (arg_output args) = None ->
  In (WriteFile p bytes) (trace (runSingleCommandMode args env)) ->
  p = lit "./output/" ++ sanitize userInput ++ lit ".png".
Proof.
  intros Hkey Hpos Hv Hout Hin.
  destruct (PathFacts.single_command_events _ _ _ _ _ _ Hkey Hpos Hv Hin)
    as [H|[H|(e & H)]]; try discriminate H.
  cbn in H. rewrite H. unfold resolved_path, single_command_config.
  cbn [outputPath]. unfold or_string at 2. now rewrite Hout.
Qed.

(** C3: the claim fails for the single command.  Without --output and
    --variations, the file the single command writes is
    [./output/<sanitized description>.png] whatever the clock reads and
    whatever --output-dir says: the timestamped file name is never used.  So
    the command of the README with --output-dir ./my_creations makes that
    directory and writes to ./output/magical_castle.png, and run again at
    another time it writes to the same path again; the same description
    given to an interactive session with that directory is written to a
    timestamped file in it. *)
Theorem single_command_default_path :
  (forall (args : CliArgs) (env : ProcessEnv) (apiKey userInput : jsstring)
          (rest : list jsstring) (p : jsstring) (bytes : list byte),
      truthy_string (GEMINI_API_KEY env) = Some apiKey ->
      arg_positional args = userInput :: rest ->
      arg_variations args = None ->
      truthy_string (arg_output args) = None ->
      In (WriteFile p bytes) (trace (runSingleCommandMode args env)) ->
      p = lit "./output/" ++ sanitize userInput ++ lit ".png")
  /\ (let run1 := runSingleCommandMode castle_args (sample_process_env 1700000000000) in
      let run2 := runSingleCommandMode castle_args (sample_process_env 1800000000000) in
      let session := handleCommand custom_session (lit "magical castle")
                       sample_command_env in
      outcome run1 = Returned tt /\ outcome run2 = Returned tt
      /\ made_directories (trace run1) = [lit "./my_creations"]
      /\ written_paths (trace run1) = [lit "./output/magical_castle.png"]
      /\ written_paths (trace run2) = [lit "./output/magical_castle.png"]
      /\ outcome session = Returned false
      /\ made_directories (trace session) = [lit "./my_creations"]
      /\ written_paths (trace session)
         = [lit "./my_creations/clay_magical_castle_2023-11-14T22-13-20-000Z.png"]).
Proof.
  split.
  - intros args env apiKey userInput rest p bytes Hkey Hpos Hv Hout Hin.
    exact (single_command_path _ _ _ _ _ _ _ Hkey Hpos Hv Hout Hin).
  - vm_compute. repeat split.
Qed.

(** C4 on the interactive session started with a model and an output
    directory of its own: a variations command requests the built-in model
    and makes and writes to the built-in directory, where a plain description
    uses the configured ones. *)
Theorem variations_ignore_session_options :
  let batch := handleCommand custom_session (lit "variations 2 cat") sample_command_env in
  let single := handleCommand custom_session (lit "cat") sample_command_env in
  outcome batch = Returned false
  /\ requested_models (trace batch) = [defaultModel; defaultModel]
  /\ made_directories (trace batch) = [lit "./output"; lit "./output"]
  /\ written_paths (trace batch)
     = [lit "./output/clay_cat_variation_1_2023-11-14T22-13-20-000Z.png";
        lit "./output/clay_cat_variation_2_2023-11-14T22-13-20-001Z.png"]
  /\ outcome single = Returned false
  /\ requested_models (trace single) = [lit "custom-model"]
  /\ made_directories (trace single) = [lit "./my_creations"]
  /\ written_paths (trace single)
     = [lit "./my_creations/clay_cat_2023-11-14T22-13-20-000Z.png"].
Proof. vm_compute. repeat split. Qed.

(** Whatever the agent and the session, a batch of variations asks for the
    built-in model and the built-in directory. *)
Lemma generateMultipleVariations_uses_defaults this d count env ev :
  In ev (trace (generateMultipleVariations this d (Some count) env)) ->
  match ev with
  | GenerateImages m _ => m = defaultModel
  | Mkdir dir => dir = defaultOutputDir
  | WriteFile p _ => exists name, p = defaultOutputDir ++ lit "/" ++ name
  | _ => True
  end.
Proof.
  intros H. apply TraceFacts.generateMultipleVariations_events in H.
  destruct H as [H|(i & _ & H)].
  - destruct ev; try exact I; contradiction.
  - apply TraceFacts.generateClayImage_events in H.
    destruct ev; try exact I; cbn in H.
    + exact H.
    + apply H.
    + rewrite H. eexists. reflexivity.
Qed.

(** * Further properties *)

(** ** One generation *)

Module CallFacts.

Lemma ends_with {A} (l : list A) (a b : A) :
  List.removelast (List.removelast l) ++ [a; b] = l ->
  exists front, l = front ++ [a; b].
Proof. intros H. now exists (List.removelast (List.removelast l)). Qed.

Lemma call_directories this config env :
  made_directories (trace (generateClayImage this config env)) = [call_dir config].
Proof.
  unfold generateClayImage, call_dir.
  ImageFacts.destruct_env env; cbn; try ImageFacts.case_atob; reflexivity.
Qed.

Lemma call_requests this config env :
  requests (trace (generateClayImage this config env))
  = if mkdir_ok env then [(call_model config, call_prompt this config)] else [].
Proof.
  unfold generateClayImage, mkdir_ok, call_model, call_prompt.
  ImageFacts.destruct_env env; cbn; try ImageFacts.case_atob; reflexivity.
Qed.

Lemma call_written this config env :
  (written_paths (trace (generateClayImage this config env)) = []
   \/ written_paths (trace (generateClayImage this config env))
      = [resolved_path config env])
  /\ (forall p, outcome (generateClayImage this config env) = Returned p ->
        written_paths (trace (generateClayImage this config env)) = [p]).
Proof.
  unfold generateClayImage, resolved_path.
  ImageFacts.destruct_env env; cbn; try ImageFacts.case_atob; cbn;
    (split; [auto|]); intros p Hp; try discriminate Hp;
    injection Hp as <-; reflexivity.
Qed.

End CallFacts.

(** X1: a directory that is already there is not an error: when [Deno.mkdir]
    rejects with AlreadyExists the call does and returns exactly what it does
    when the directory is made. *)
Theorem generateClayImage_directory_exists :
  forall (this : ClaySculptorAgent) (config : ClayGenerationConfig) (env : CallEnv),
    generateClayImage this config (with_mkdir env (Some AlreadyExists))
    = generateClayImage this config (with_mkdir env None).
Proof. reflexivity. Qed.

(** X2: failures of the outside world come out unchanged and stop the call
    where they happen: after a failed mkdir no request is sent and nothing is
    written; after a failed request nothing is written; a failed write is
    thrown as it is. *)
Theorem generateClayImage_propagates_failures :
  forall (this : ClaySculptorAgent) (config : ClayGenerationConfig)
         (env : CallEnv) (e : RuntimeError),
    let run := generateClayImage this config env in
    (mkdir_result env = Some e -> e <> AlreadyExists ->
       outcome run = Thrown (Runtime e)
       /\ requests (trace run) = [] /\ written_paths (trace run) = [])
    /\ (mkdir_ok env = true -> api_result env = inl e ->
        outcome run = Thrown (Runtime e)
        /\ requests (trace run) = [(call_model config, call_prompt this config)]
        /\ written_paths (trace run) = [])
    /\ (write_result env = Some e ->
        (forall p, outcome run <> Returned p)
        /\ (written_paths (trace run) <> [] -> outcome run = Thrown (Runtime e))).
Proof.
  intros this config env e run. subst run.
  unfold generateClayImage, mkdir_ok, call_model, call_prompt.
  split; [|split].
  - intros Hm Hne. ImageFacts.destruct_env env; cbn in Hm; try discriminate Hm;
      injection Hm as <-; try contradiction; cbn; auto.
  - intros Hm Ha. ImageFacts.destruct_env env; cbn in Hm, Ha;
      try discriminate Hm; try discriminate Ha; injection Ha as <-; cbn; auto.
  - intros Hw. ImageFacts.destruct_env env; cbn in Hw; try discriminate Hw;
      injection Hw as <-; cbn; try ImageFacts.case_atob; cbn;
      (split; [intros p; discriminate|intros H; try reflexivity; now contradiction H]).
Qed.

Lemma generateClayImage_propagates_failures_witness :
  outcome (generateClayImage sample_agent sample_config mkdir_denied_env)
  = Thrown (Runtime permission_denied)
  /\ outcome (generateClayImage sample_agent sample_config api_down_env)
     = Thrown (Runtime (OtherRuntimeError (lit "RetryError")))
  /\ outcome (generateClayImage sample_agent sample_config write_denied_env)
     = Thrown (Runtime permission_denied).
Proof.
  split; [|split].
  - destruct (generateClayImage_propagates_failures sample_agent sample_config
                mkdir_denied_env permission_denied) as (H & _ & _).
    apply H; [reflexivity|discriminate].
  - destruct (generateClayImage_propagates_failures sample_agent sample_config
                api_down_env (OtherRuntimeError (lit "RetryError"))) as (_ & H & _).
    apply H; reflexivity.
  - destruct (generateClayImage_propagates_failures sample_agent sample_config
                write_denied_env permission_denied) as (_ & _ & H).
    apply H; [reflexivity|discriminate].
Defined.

(** X3: whatever happens, a call never ends the process, starts the spinner
    once, first of all, and stops it once; when it returns a path its last
    two events are the stop of the spinner and the line saying where the
    image was saved; when it throws they are the stop of the spinner and the
    error line. *)
Theorem generateClayImage_spinner_and_log :
  forall (this : ClaySculptorAgent) (config : ClayGenerationConfig) (env : CallEnv),
    let run := generateClayImage this config env in
    (forall code, outcome run <> Exited code)
    /\ (exists rest,
          trace run = SpinnerMessage (MsgGeneratingImage (userInput config))
                      :: SpinnerStart :: rest)
    /\ count_events is_SpinnerStart (trace run) = 1%nat
    /\ count_events is_SpinnerStop (trace run) = 1%nat
    /\ (forall p, outcome run = Returned p ->
          exists front,
            trace run = front ++ [SpinnerStop; ConsoleLog (MsgImageSaved p)])
    /\ (forall e, outcome run = Thrown e ->
          exists front,
            trace run
            = front ++ [SpinnerStop; ConsoleError (MsgErrorGeneratingImage e)]).
Proof.
  intros this config env run. subst run.
  split; [intros code; apply ImageFacts.generateClayImage_no_exit|].
  unfold generateClayImage.
  ImageFacts.destruct_env env; cbn; try ImageFacts.case_atob; cbn;
    (split; [eexists; reflexivity|]);
    (split; [reflexivity|]); (split; [reflexivity|]);
    (split; [intros p Hp|intros e' He]);
    try discriminate;
    match goal with
    | H : _ = _ |- _ => injection H as <-
    end;
    apply CallFacts.ends_with; reflexivity.
Qed.

Lemma generateClayImage_spinner_and_log_witness :
  exists front,
    trace (generateClayImage sample_agent sample_config api_down_env)
    = front ++ [SpinnerStop;
                ConsoleError (MsgErrorGeneratingImage
                                (Runtime (OtherRuntimeError (lit "RetryError"))))].
Proof.
  destruct (generateClayImage_spinner_and_log sample_agent sample_config api_down_env)
    as (_ & _ & _ & _ & _ & H).
  apply H. reflexivity.
Defined.

(** X4: a call makes the directory of the request once, sends at most one
    request (one as soon as the directory step is through), with the model
    and the shadows flag of the request where it gives them and the defaults
    of the agent where it does not, and writes at most one file; when it
    returns a path, that path is the one file it wrote. *)
Theorem generateClayImage_effects :
  forall (this : ClaySculptorAgent) (config : ClayGenerationConfig) (env : CallEnv),
    let run := generateClayImage this config env in
    made_directories (trace run) = [call_dir config]
    /\ requests (trace run)
       = (if mkdir_ok env then [(call_model config, call_prompt this config)] else [])
    /\ (written_paths (trace run) = []
        \/ written_paths (trace run) = [resolved_path config env])
    /\ (forall p, outcome run = Returned p -> written_paths (trace run) = [p]).
Proof.
  intros this config env run. subst run.
  split; [apply CallFacts.call_directories|].
  split; [apply CallFacts.call_requests|].
  apply CallFacts.call_written.
Qed.

Lemma generateClayImage_effects_witness :
  written_paths (trace (generateClayImage sample_agent explicit_config
                          (sample_call_env 1700000000123)))
  = [lit "./output/test_robot.png"].
Proof.
  destruct (generateClayImage_effects sample_agent explicit_config
              (sample_call_env 1700000000123)) as (_ & _ & _ & H).
  apply H. reflexivity.
Defined.

(** X5: the path a call returns is the explicit output path of the request
    when there is one, whatever the output directory, the description and the
    clock; without one, or with the empty string (which JavaScript takes as
    absent), it is [<outputDir>/clay_<sanitized description>_<timestamp>.png]
    with the default directory when the request names none. *)
Theorem generateClayImage_path :
  forall (this : ClaySculptorAgent) (config : ClayGenerationConfig)
         (env : CallEnv) (p : jsstring),
    outcome (generateClayImage this config env) = Returned p ->
    (forall c s, outputPath config = Some (c :: s) -> p = c :: s)
    /\ (outputPath config = None \/ outputPath config = Some [] ->
        p = default (outputDir config) (lit "./output") ++ lit "/clay_"
            ++ sanitize (userInput config) ++ lit "_"
            ++ timestamp (clock env) ++ lit ".png").
Proof.
  intros this config env p Hp.
  apply ImageFacts.generateClayImage_returned in Hp. subst p.
  unfold resolved_path, or_string. split.
  - intros c s ->. reflexivity.
  - intros H. assert (Ht : truthy_string (outputPath config) = None)
      by (destruct H as [-> | ->]; reflexivity).
    rewrite Ht. unfold generateFilename.
    change (lit "/clay_") with (lit "/" ++ lit "clay_").
    now rewrite <- !app_assoc.
Qed.

Lemma generateClayImage_path_witness :
  lit "./output/clay_cute_robot_2023-11-14T22-13-20-123Z.png"
  = default (outputDir sample_config) (lit "./output") ++ lit "/clay_"
    ++ sanitize (userInput sample_config) ++ lit "_"
    ++ timestamp 1700000000123 ++ lit ".png".
Proof.
  destruct (generateClayImage_path sample_agent sample_config
              (sample_call_env 1700000000123)
              (lit "./output/clay_cute_robot_2023-11-14T22-13-20-123Z.png")
              eq_refl) as [_ H].
  apply H. now left.
Defined.

(** ** A batch of variations *)

Module BatchFacts.

Lemma flat_map_concat {A B} (f : A -> list B) (ls : list (list A)) :
  List.flat_map f (List.concat ls) = List.concat (List.map (List.flat_map f) ls).
Proof.
  induction ls as [|l ls IH]; [reflexivity|].
  simpl. now rewrite flat_map_app, IH.
Qed.

(** Every call of a batch starts in the same way. *)
Lemma batch_start_repeat this d count env :
  batch_start this d count env
  = List.concat
      (List.repeat
         [SpinnerMessage (MsgGeneratingImage d); SpinnerStart;
          Mkdir defaultOutputDir]
         (ToLength count)).
Proof.
  unfold batch_start. generalize 0%nat.
  induction (ToLength count) as [|n IH]; intros start; [reflexivity|].
  cbn [List.seq List.map List.repeat List.concat]. rewrite IH. f_equal.
  apply VariationFacts.call_first_step.
Qed.

Lemma concat_repeat_flat_map {B} (f : Event -> list B) (x : list Event) n :
  List.flat_map f (List.concat (List.repeat x n))
  = List.concat (List.repeat (List.flat_map f x) n).
Proof.
  induction n as [|n IH]; [reflexivity|].
  cbn [List.repeat List.concat]. now rewrite flat_map_app, IH.
Qed.

(** What a kind of event shows of the steps the calls of a batch take after
    they are started, when the start shows nothing of that kind. *)
Lemma remaining_projection {B} (f : Event -> list B) this d env :
  (forall i, List.flat_map f (first_step (variation_call this d env i)) = []) ->
  forall l,
    List.flat_map f
      (remaining (List.map (fun i => started (variation_call this d env i)) l))
    = List.flat_map
        (fun i => List.flat_map f (trace (variation_call this d env i))) l.
Proof.
  intros Hfirst l. unfold remaining. rewrite map_map, flat_map_concat, map_map.
  rewrite flat_map_concat_map. f_equal. apply map_ext. intros i.
  rewrite <- (JoinFacts.first_step_later (variation_call this d env i)).
  now rewrite flat_map_app, Hfirst.
Qed.

Lemma first_step_projection {B} (f : Event -> list B) this d env i :
  f (SpinnerMessage (MsgGeneratingImage d)) = [] -> f SpinnerStart = [] ->
  f (Mkdir defaultOutputDir) = [] ->
  List.flat_map f (first_step (variation_call this d env i)) = [].
Proof.
  intros H1 H2 H3. unfold variation_call.
  rewrite VariationFacts.call_first_step.
  change (f (SpinnerMessage (MsgGeneratingImage d)) ++ f SpinnerStart
          ++ f (Mkdir defaultOutputDir) ++ [] = []).
  now rewrite H1, H2, H3.
Qed.

(** After the calls are started no directory is made. *)
Lemma remaining_directories this d count env :
  made_directories (remaining (batch_promises this d count env)) = [].
Proof.
  unfold made_directories, remaining, batch_promises.
  rewrite map_map, flat_map_concat, map_map.
  induction (List.seq 0 (ToLength count)) as [|i l IH]; [reflexivity|].
  cbn [List.map List.concat]. rewrite IH, app_nil_r.
  pose proof (CallFacts.call_directories this
                (variation_config this d i (name_clock (env i)))
                (call_env (env i))) as H.
  fold (variation_call this d env i) in H.
  rewrite <- (JoinFacts.first_step_later (variation_call this d env i)) in H.
  unfold made_directories in H. rewrite flat_map_app in H.
  unfold variation_call in H at 1. rewrite VariationFacts.call_first_step in H.
  cbn in H. now injection H as H.
Qed.

Lemma remaining_requests this d count env :
  requests (remaining (batch_promises this d count env))
  = List.flat_map
      (fun i => if mkdir_ok (call_env (env i)) then [batch_request this d] else [])
      (List.seq 0 (ToLength count)).
Proof.
  unfold requests, batch_promises.
  rewrite remaining_projection
    by (intros i; now apply first_step_projection).
  apply flat_map_ext. intros i.
  pose proof (CallFacts.call_requests this
                (variation_config this d i (name_clock (env i)))
                (call_env (env i))) as H.
  unfold requests in H. unfold variation_call. rewrite H.
  now destruct (mkdir_ok (call_env (env i))).
Qed.


Lemma requests_bound this d (env : nat -> VariationEnv) (l : list nat) :
  Forall (eq (batch_request this d))
    (List.flat_map
       (fun i => if mkdir_ok (call_env (env i)) then [batch_request this d] else [])
       l)
  /\ (List.length
        (List.flat_map
           (fun i => if mkdir_ok (call_env (env i))
                     then [batch_request this d] else [])
           l)
      <= List.length l)%nat.
Proof.
  induction l as [|i l [IH1 IH2]]; [split; [constructor|reflexivity]|].
  cbn [List.flat_map]. destruct (mkdir_ok (call_env (env i))); cbn.
  - split; [now constructor|lia].
  - split; [exact IH1|lia].
Qed.

Lemma all_requests this d (env : nat -> VariationEnv) :
  forall n start,
    (forall i, (start <= i < start + n)%nat -> mkdir_ok (call_env (env i)) = true) ->
    List.flat_map
      (fun i => if mkdir_ok (call_env (env i)) then [batch_request this d] else [])
      (List.seq start n)
    = List.repeat (batch_request this d) n.
Proof.
  induction n as [|n IH]; intros start Hok; [reflexivity|].
  cbn [List.seq List.flat_map List.repeat].
  rewrite (Hok start) by lia. cbn [Datatypes.app]. f_equal.
  apply IH. intros i Hi. apply Hok. lia.
Qed.

(** A call that returns has made its request. *)
Lemma returned_requests this config env p :
  outcome (generateClayImage this config env) = Returned p ->
  mkdir_ok env = true.
Proof.
  unfold generateClayImage, mkdir_ok.
  ImageFacts.destruct_env env; cbn; try ImageFacts.case_atob; cbn;
    intros H; try discriminate H; reflexivity.
Qed.

(** The events of a batch by kind: those of the start of the calls, then
    those of the join. *)
Lemma batch_projection {B} (f : Event -> list B) this d count env :
  array_length count ->
  (forall m, f (SpinnerMessage m) = []) -> f SpinnerStart = [] ->
  f SpinnerStop = [] -> (forall m, f (ConsoleLog m) = []) ->
  (forall m, f (ConsoleError m) = []) ->
  List.flat_map f (trace (generateMultipleVariations this d (Some count) env))
  = List.flat_map f (batch_start this d count env)
    ++ List.flat_map f (trace (batch_join this d count env)).
Proof.
  intros Hlen H1 H2 H3 H4 H5.
  destruct (VariationFacts.generateMultipleVariations_run this d count env Hlen)
    as (_ & closing & -> & Hc).
  rewrite !flat_map_app. cbn [List.flat_map].
  rewrite H1, H2, H3, !app_nil_r. cbn [Datatypes.app].
  destruct (outcome (batch_join this d count env));
    [subst closing; now rewrite ?H4, ?H5, app_nil_r..|contradiction].
Qed.

Lemma concat_repeat_nil {B} n : List.concat (List.repeat (@nil B) n) = [].
Proof. induction n as [|n IH]; [reflexivity|exact IH]. Qed.

Lemma Permutation_project {B} (f : Event -> list B) (l l' : list Event) :
  Permutation l l' -> Permutation (List.flat_map f l) (List.flat_map f l').
Proof. intros H. now rewrite H. Qed.

Lemma Permutation_nil_app {B} (l r : list B) :
  Permutation [] (l ++ r) -> l = [].
Proof.
  intros H. apply Permutation_nil in H. now apply app_eq_nil in H.
Qed.

End BatchFacts.

(** X6: a count that is NaN, zero or negative gives an empty batch: nothing
    is generated, the result is the empty list, and the batch reports zero
    variations. *)
Theorem generateMultipleVariations_empty :
  forall (this : ClaySculptorAgent) (d : jsstring) (count : number)
         (env : nat -> VariationEnv),
    ToLength count = 0%nat ->
    generateMultipleVariations this d (Some count) env
    = ([SpinnerMessage (MsgGeneratingVariations count d); SpinnerStart;
        SpinnerStop; ConsoleLog (MsgVariationsGenerated 0)],
       Returned []).
Proof.
  intros this d count env H.
  unfold generateMultipleVariations, Array_from_length. cbn [default].
  rewrite H.
  destruct (Z.leb_spec (ToLength_integer count) 4294967295) as [_|Hbig];
    [reflexivity|].
  unfold ToLength in H. lia.
Qed.

Lemma generateMultipleVariations_empty_witness :
  outcome (generateMultipleVariations sample_agent (lit "cat") (Some (Num (-2)))
             sample_variations_env) = Returned [].
Proof.
  now rewrite (generateMultipleVariations_empty sample_agent (lit "cat") (Num (-2))
                 sample_variations_env eq_refl).
Defined.

(** X7: a batch starts every one of its calls before any of them goes on,
    whether or not some fail: for a count that [Array.from] accepts, the
    batch begins with the spinner and then, once per variation, the start of
    a call up to its [Deno.mkdir] of the default directory; no directory is
    made later.  Every request the batch sends is the same, the built-in
    model with the prompt of the description under the agent's shadows flag,
    and there are at most as many as variations (exactly as many when the
    batch returns): the variations differ in their file names only.  For a
    count from 2^32 on, nothing is started. *)
Theorem generateMultipleVariations_starts_every_call :
  forall (this : ClaySculptorAgent) (d : jsstring) (count : number)
         (env : nat -> VariationEnv),
    let run := generateMultipleVariations this d (Some count) env in
    (array_length count ->
     (exists rest,
        trace run
        = [SpinnerMessage (MsgGeneratingVariations count d); SpinnerStart]
          ++ List.concat
               (List.repeat
                  [SpinnerMessage (MsgGeneratingImage d); SpinnerStart;
                   Mkdir defaultOutputDir]
                  (ToLength count))
          ++ rest
        /\ made_directories rest = [])
     /\ made_directories (trace run) = List.repeat defaultOutputDir (ToLength count)
     /\ (exists k, (k <= ToLength count)%nat
                   /\ requests (trace run) = List.repeat (batch_request this d) k)
     /\ (forall paths, outcome run = Returned paths ->
           requests (trace run)
           = List.repeat (batch_request this d) (ToLength count)))
    /\ (~ array_length count ->
        run = ([SpinnerMessage (MsgGeneratingVariations count d); SpinnerStart],
               Thrown RangeError)).
Proof.
  intros this d count env run. subst run.
  split; [|apply VariationFacts.generateMultipleVariations_refused].
  intros Hlen.
  destruct (JoinFacts.Promise_all_part
              (event_loop (fun index => completion (env index))
                 (batch_promises this d count env))
              (batch_promises this d count env)) as [left Hpart].
  fold (batch_join this d count env) in Hpart.
  assert (Hdirs : made_directories (trace (batch_join this d count env)) = []).
  { pose proof (BatchFacts.Permutation_project
                  (fun ev => match ev with Mkdir dir => [dir] | _ => [] end)
                  _ _ Hpart) as H.
    fold (made_directories (remaining (batch_promises this d count env))) in H.
    rewrite BatchFacts.remaining_directories, flat_map_app in H.
    now apply BatchFacts.Permutation_nil_app in H. }
  assert (Hstart : made_directories (batch_start this d count env)
                   = List.repeat defaultOutputDir (ToLength count)).
  { rewrite BatchFacts.batch_start_repeat. unfold made_directories.
    rewrite BatchFacts.concat_repeat_flat_map. cbn [List.flat_map Datatypes.app].
    induction (ToLength count) as [|n IH]; [reflexivity|].
    cbn [List.repeat List.concat Datatypes.app]. now rewrite IH. }
  assert (Hreq : requests (trace (generateMultipleVariations this d (Some count) env))
                 = requests (trace (batch_join this d count env))).
  { unfold requests. rewrite BatchFacts.batch_projection by (auto; reflexivity).
    rewrite BatchFacts.batch_start_repeat, BatchFacts.concat_repeat_flat_map.
    cbn [List.flat_map Datatypes.app].
    now rewrite BatchFacts.concat_repeat_nil. }
  pose proof (BatchFacts.Permutation_project
                (fun ev => match ev with
                           | GenerateImages m p => [(m, p)]
                           | _ => []
                           end) _ _ Hpart) as Hperm.
  fold (requests (remaining (batch_promises this d count env))) in Hperm.
  rewrite BatchFacts.remaining_requests, flat_map_app in Hperm.
  fold (requests (trace (batch_join this d count env))) in Hperm.
  destruct (BatchFacts.requests_bound this d env (List.seq 0 (ToLength count)))
    as [Hall Hbound]. rewrite length_seq in Hbound.
  split; [|split; [|split]].
  - destruct (VariationFacts.generateMultipleVariations_run this d count env Hlen)
      as (_ & closing & Htr & Hc).
    exists (trace (batch_join this d count env) ++ [SpinnerStop; closing]).
    split; [now rewrite Htr, BatchFacts.batch_start_repeat|].
    unfold made_directories in *. rewrite flat_map_app, Hdirs.
    destruct (outcome (batch_join this d count env));
      [subst closing; reflexivity..|contradiction].
  - unfold made_directories in *.
    rewrite BatchFacts.batch_projection by (auto; reflexivity).
    now rewrite Hstart, Hdirs, app_nil_r.
  - exists (List.length (requests (trace (batch_join this d count env)))).
    split.
    + apply Permutation_length in Hperm. rewrite length_app in Hperm. lia.
    + rewrite Hreq. apply Forall_eq_repeat.
      rewrite Forall_forall in Hall |- *. intros x Hx. apply Hall.
      apply (Permutation_in _ (Permutation_sym Hperm)).
      apply in_or_app. now left.
  - intros paths Hp. rewrite Hreq.
    destruct (VariationFacts.batch_returned this d count env paths Hlen Hp)
      as (Hret & _ & Hdone).
    pose proof (BatchFacts.Permutation_project
                  (fun ev => match ev with
                             | GenerateImages m p => [(m, p)]
                             | _ => []
                             end) _ _ Hdone) as Hp'.
    fold (requests (remaining (batch_promises this d count env))) in Hp'.
    fold (requests (trace (batch_join this d count env))) in Hp'.
    rewrite BatchFacts.remaining_requests in Hp'.
    apply Permutation_repeat. rewrite <- Hp'.
    unfold batch_promises in Hret.
    apply VariationFacts.Forall2_map_seq in Hret. destruct Hret as [_ Hnth].
    assert (Hok : forall i, (i < ToLength count)%nat ->
                    mkdir_ok (call_env (env i)) = true).
    { intros i Hi. destruct (Hnth i Hi) as (a & _ & Ha).
      apply (BatchFacts.returned_requests this
               (variation_config this d i (name_clock (env i)))
               (call_env (env i)) a).
      exact Ha. }
    rewrite BatchFacts.all_requests; [reflexivity|].
    intros i Hi. apply Hok. lia.
Qed.

(** X8: a batch never ends the process.  For a count that [Array.from]
    accepts, it returns exactly when every one of its calls returns, and
    then its result lists the paths of the calls in the order of their
    indices; an error it throws is the error one of its calls threw,
    unchanged; and its last two events are the stop of the spinner and the
    report of the number of variations or of that error.  For a count from
    2^32 on it throws a RangeError that no call threw, and the spinner is
    left running. *)
Theorem generateMultipleVariations_joins_calls :
  forall (this : ClaySculptorAgent) (d : jsstring) (count : number)
         (env : nat -> VariationEnv),
    let run := generateMultipleVariations this d (Some count) env in
    (forall code, outcome run <> Exited code)
    /\ (array_length count ->
        ((exists paths, outcome run = Returned paths)
         <-> (forall i, (i < ToLength count)%nat ->
                exists p, outcome (variation_call this d env i) = Returned p))
        /\ (forall paths, outcome run = Returned paths ->
              List.length paths = ToLength count
              /\ (forall i, (i < ToLength count)%nat ->
                    exists p, nth_error paths i = Some p
                              /\ outcome (variation_call this d env i) = Returned p)
              /\ exists front,
                   trace run
                   = front ++ [SpinnerStop;
                               ConsoleLog (MsgVariationsGenerated (ToLength count))])
        /\ (forall e, outcome run = Thrown e ->
              (exists i, (i < ToLength count)%nat
                         /\ outcome (variation_call this d env i) = Thrown e)
              /\ exists front,
                   trace run
                   = front ++ [SpinnerStop;
                               ConsoleError (MsgErrorGeneratingVariations e)]))
    /\ (~ array_length count ->
        run = ([SpinnerMessage (MsgGeneratingVariations count d); SpinnerStart],
               Thrown RangeError)
        /\ count_events is_SpinnerStop (trace run) = 0%nat).
Proof.
  intros this d count env run. subst run.
  split; [intros code; apply VariationFacts.generateMultipleVariations_no_exit|].
  split.
  2:{ intros Hbig.
      rewrite (VariationFacts.generateMultipleVariations_refused _ _ _ _ Hbig).
      now split. }
  intros Hlen.
  assert (Hret : forall paths,
            outcome (generateMultipleVariations this d (Some count) env)
            = Returned paths ->
            List.length paths = ToLength count
            /\ (forall i, (i < ToLength count)%nat ->
                  exists p, nth_error paths i = Some p
                            /\ outcome (variation_call this d env i) = Returned p)).
  { intros paths H.
    destruct (VariationFacts.batch_returned this d count env paths Hlen H)
      as (Hall & _ & _).
    unfold batch_promises in Hall.
    apply VariationFacts.Forall2_map_seq in Hall. exact Hall. }
  destruct (VariationFacts.generateMultipleVariations_run this d count env Hlen)
    as (Ho & closing & Htr & Hc).
  split; [split|split].
  - intros [paths H] i Hi. destruct (Hret paths H) as [_ Hnth].
    destruct (Hnth i Hi) as (p & _ & Hp). now exists p.
  - intros Hall. eexists.
    now apply VariationFacts.batch_fulfilled.
  - intros paths H. destruct (Hret paths H) as [Hl Hnth].
    split; [exact Hl|]. split; [exact Hnth|].
    rewrite <- Ho, H in Hc. subst closing. rewrite Hl in Htr.
    rewrite Htr, !app_assoc. eexists. reflexivity.
  - intros e H. split.
    + now apply VariationFacts.batch_thrown.
    + rewrite <- Ho, H in Hc. subst closing. rewrite Htr, !app_assoc.
      eexists. reflexivity.
Qed.

Lemma generateMultipleVariations_joins_calls_witness :
  exists i, (i < 3)%nat
            /\ outcome (variation_call sample_agent (lit "cat")
                          failing_variations_env i) = Thrown NoImagesGenerated.
Proof.
  destruct (generateMultipleVariations_joins_calls sample_agent (lit "cat") (Num 3)
              failing_variations_env) as (_ & H & _).
  destruct H as (_ & _ & H); [unfold array_length; cbn; lia|].
  destruct (H NoImagesGenerated eq_refl) as [Hi _]. exact Hi.
Defined.

(** ** File names and descriptions *)

Module SanitizeFacts.

Lemma sanitize_alnum d :
  Forall (fun c => is_alnum c = true) d -> sanitize d = d.
Proof.
  unfold sanitize, replace_class. induction 1 as [|c d Hc _ IH]; [reflexivity|].
  simpl. now rewrite Hc, IH.
Qed.

Lemma sanitize_idempotent d : sanitize (sanitize d) = sanitize d.
Proof.
  unfold sanitize, replace_class. rewrite map_map. apply map_ext.
  intros c. now destruct (is_alnum c) eqn:E; cbn; [rewrite E|].
Qed.

End SanitizeFacts.

(** X9: a file name depends on the description through its sanitized form
    only: at one clock reading, two descriptions get the same file name
    exactly when they sanitize alike; sanitizing twice changes nothing, and a
    description made of letters and digits is kept as it is. *)
Theorem generateFilename_sanitized_description :
  forall (d1 d2 : jsstring) (isVariation : bool) (variationIndex : option N)
         (now : Z),
    (generateFilename d1 isVariation variationIndex now
     = generateFilename d2 isVariation variationIndex now
     <-> sanitize d1 = sanitize d2)
    /\ sanitize (sanitize d1) = sanitize d1
    /\ (Forall (fun c => is_alnum c = true) d1 -> sanitize d1 = d1).
Proof.
  intros d1 d2 isVariation variationIndex now.
  split; [|split].
  - rewrite !FilenameFacts.generateFilename_segments. split.
    + intros H. apply app_inv_head in H. now apply app_inv_tail in H.
    + now intros ->.
  - apply SanitizeFacts.sanitize_idempotent.
  - apply SanitizeFacts.sanitize_alnum.
Qed.

Lemma generateFilename_sanitized_description_witness :
  sanitize (lit "robot42") = lit "robot42"
  /\ generateFilename (lit "a b") false None 1700000000123
     = generateFilename (lit "a-b") false None 1700000000123.
Proof.
  destruct (generateFilename_sanitized_description (lit "robot42") (lit "robot42")
              false None 0) as (_ & _ & H).
  split; [apply H; repeat constructor|].
  destruct (generateFilename_sanitized_description (lit "a b") (lit "a-b")
              false None 1700000000123) as (Hiff & _).
  apply Hiff. reflexivity.
Defined.

(** ** The session *)

Module LoopFacts.

Lemma dropWhile_head p s :
  dropWhile p s = [] \/ exists c r, dropWhile p s = c :: r /\ p c = false.
Proof.
  induction s as [|c s IH]; [now left|]. simpl.
  destruct (p c) eqn:E; [exact IH|]. right. now exists c, s.
Qed.

Lemma dropWhile_fixed p c r : p c = false -> dropWhile p (c :: r) = c :: r.
Proof. intros H. simpl. now rewrite H. Qed.

Lemma dropWhile_keeps_last p l x :
  p x = false -> dropWhile p (l ++ [x]) = dropWhile p l ++ [x].
Proof.
  intros Hx. induction l as [|c l IH]; simpl.
  - now rewrite Hx.
  - destruct (p c); [exact IH|reflexivity].
Qed.

(** A trimmed string is empty or begins and ends with a character that is
    not white space. *)
Lemma trim_ends text :
  trim text = []
  \/ exists first middle last,
       (trim text = [first] /\ first = last \/ trim text = first :: middle ++ [last])
       /\ is_space first = false /\ is_space last = false.
Proof.
  unfold trim.
  destruct (dropWhile_head is_space text) as [->|(x & r & -> & Hx)]; [now left|].
  right. cbn [List.rev]. rewrite dropWhile_keeps_last by assumption.
  rewrite rev_app_distr. cbn [List.rev app].
  destruct (dropWhile_head is_space (List.rev r)) as [->|(z & t & -> & Hz)].
  - exists x, [], x. cbn. auto.
  - exists x, (List.rev t), z. cbn [List.rev]. auto.
Qed.

Lemma trim_idempotent text : trim (trim text) = trim text.
Proof.
  destruct (trim_ends text) as [-> | (a & m & b & [ [-> ->] | -> ] & Ha & Hb)];
    [reflexivity| |].
  - unfold trim. rewrite dropWhile_fixed by assumption.
    change (List.rev [b]) with [b]. now rewrite dropWhile_fixed.
  - unfold trim. rewrite dropWhile_fixed by assumption.
    rewrite app_comm_cons, rev_app_distr.
    change (List.rev [b] ++ List.rev (a :: m)) with (b :: List.rev (a :: m)).
    rewrite dropWhile_fixed by assumption.
    change (b :: List.rev (a :: m)) with (List.rev [b] ++ List.rev (a :: m)).
    now rewrite <- rev_app_distr, rev_involutive.
Qed.

End LoopFacts.

Module MonadFacts.

Lemma outcome_bind {A B} (m : M A) (k : A -> M B) :
  outcome (bind m k)
  = match outcome m with
    | Returned a => outcome (k a)
    | Thrown e => Thrown e
    | Exited c => Exited c
    end.
Proof.
  unfold outcome, bind. destruct m as [tr [a|e|c]]; try reflexivity.
  simpl. now destruct (k a).
Qed.

Lemma trace_bind {A B} (m : M A) (k : A -> M B) :
  trace (bind m k)
  = trace m ++ match outcome m with
               | Returned a => trace (k a)
               | _ => []
               end.
Proof.
  unfold trace, outcome, bind. destruct m as [tr [a|e|c]]; simpl;
    rewrite ?app_nil_r; try reflexivity.
  now destruct (k a).
Qed.

Lemma outcome_try_catch {A} (m : M A) (h : Error -> M A) :
  outcome (try_catch m h)
  = match outcome m with
    | Thrown e => outcome (h e)
    | o => o
    end.
Proof.
  unfold outcome, try_catch. destruct m as [tr [a|e|c]]; try reflexivity.
  simpl. now destruct (h e).
Qed.

Lemma trace_try_catch {A} (m : M A) (h : Error -> M A) :
  trace (try_catch m h)
  = trace m ++ match outcome m with
               | Thrown e => trace (h e)
               | _ => []
               end.
Proof.
  unfold trace, outcome, try_catch. destruct m as [tr [a|e|c]]; simpl;
    rewrite ?app_nil_r; try reflexivity.
  now destruct (h e).
Qed.

Lemma run_eta {A} (m : M A) : m = (trace m, outcome m).
Proof. now destruct m. Qed.

End MonadFacts.

Module CommandFacts.
Import MonadFacts.

Lemma dropWhile_all p s : dropWhile p s = [] <-> forallb p s = true.
Proof.
  induction s as [|c s IH]; simpl; [tauto|].
  destruct (p c); simpl; [exact IH|]. split; discriminate.
Qed.

(** A line trims to nothing exactly when it is made of white space. *)
Lemma trim_empty text : trim text = [] <-> forallb is_space text = true.
Proof.
  rewrite <- dropWhile_all. split.
  - intros H. unfold trim in H.
    destruct (LoopFacts.dropWhile_head is_space text) as [E|(x & r & E & Hx)];
      [exact E|].
    exfalso. rewrite E in H. cbn [List.rev] in H.
    rewrite LoopFacts.dropWhile_keeps_last in H by assumption.
    apply (f_equal (@List.rev char)) in H.
    rewrite rev_involutive in H. cbn in H.
    now destruct (dropWhile is_space (List.rev r)).
  - intros H. unfold trim. now rewrite H.
Qed.

Lemma handleVariationsCommand_no_exit this input env code :
  outcome (handleVariationsCommand this input env) <> Exited code.
Proof.
  unfold handleVariationsCommand.
  destruct (Regex.match_variations input) as [[g1 g2]|]; [|discriminate].
  destruct (_ || _); [discriminate|].
  rewrite outcome_bind. cbn [outcome emit snd]. rewrite outcome_bind.
  pose proof (VariationFacts.generateMultipleVariations_no_exit (agent this) (trim g2)
                (parseInt g1) env) as H.
  destruct (outcome (generateMultipleVariations _ _ _ _)) as [l|e|c];
    [discriminate|discriminate|]. intros E. injection E as ->. now apply (H code).
Qed.

Lemma generateSingleImage_outcome this d env :
  outcome (generateSingleImage this d env)
  = match outcome (generateClayImage (agent this) (session_config this d) env) with
    | Returned _ => Returned tt
    | Thrown e => Thrown e
    | Exited c => Exited c
    end.
Proof. unfold generateSingleImage. now rewrite outcome_bind. Qed.

Lemma handleCommand_no_exit this input env code :
  outcome (handleCommand this input env) <> Exited code.
Proof.
  unfold handleCommand.
  destruct (_ || _); [discriminate|].
  destruct (streq _ _); [discriminate|].
  destruct (streq _ _); [discriminate|].
  rewrite outcome_bind.
  pose proof (handleVariationsCommand_no_exit this input (variations_env env)) as Hv.
  destruct (outcome (handleVariationsCommand _ _ _)) as [[|]|e|c];
    [discriminate| |discriminate|intros E; injection E as ->; now apply (Hv code)].
  rewrite outcome_bind, generateSingleImage_outcome.
  pose proof (ImageFacts.generateClayImage_no_exit (agent this)
                (session_config this input) (single_env env)) as Hg.
  destruct (outcome (generateClayImage _ _ _)) as [p|e|c];
    [discriminate|discriminate|intros E; injection E as ->; now apply (Hg code)].
Qed.

(** A command asks to stop exactly when it is quit or exit. *)
Lemma handleCommand_stops this input env :
  outcome (handleCommand this input env) = Returned true
  <-> streq (toLowerCase input) (lit "quit")
      || streq (toLowerCase input) (lit "exit") = true.
Proof.
  unfold handleCommand.
  destruct (_ || _); [now split|].
  split; [|discriminate].
  destruct (streq _ _); [discriminate|].
  destruct (streq _ _); [discriminate|].
  rewrite outcome_bind.
  destruct (outcome (handleVariationsCommand _ _ _)) as [[|]|e|c]; try discriminate.
  rewrite outcome_bind.
  destruct (outcome (generateSingleImage _ _ _)) as [[]|e|c]; discriminate.
Qed.

(** A turn of the loop always returns, and asks to stop exactly on quit or
    exit. *)
Lemma session_turn_outcome this input env :
  outcome (session_turn this input env) = Returned (is_quit input).
Proof.
  unfold session_turn, is_quit. rewrite outcome_try_catch.
  destruct input as [text|]; [|reflexivity].
  destruct (trim text) as [|c r] eqn:Et; [reflexivity|].
  pose proof (handleCommand_stops this (c :: r) env) as Hs.
  pose proof (handleCommand_no_exit this (c :: r) env) as Hne.
  destruct (outcome (handleCommand this (c :: r) env)) as [[|]|e|code].
  - now rewrite (proj1 Hs eq_refl).
  - destruct (_ || _); [|reflexivity]. now discriminate (proj2 Hs eq_refl).
  - cbn. destruct (_ || _); [|reflexivity]. now discriminate (proj2 Hs eq_refl).
  - exfalso. now apply (Hne code).
Qed.

Lemma session_loop_cons this input env rest :
  session_loop this ((input, env) :: rest)
  = if is_quit input then (trace (session_turn this input env), Returned Terminated)
    else (trace (session_turn this input env) ++ trace (session_loop this rest),
          outcome (session_loop this rest)).
Proof.
  cbn [session_loop].
  pose proof (session_turn_outcome this input env) as Ho.
  rewrite (run_eta (session_turn this input env)), Ho.
  unfold bind. destruct (is_quit input).
  - cbn. now rewrite app_nil_r.
  - now destruct (session_loop this rest).
Qed.

Lemma session_loop_returns this inputs :
  exists state, outcome (session_loop this inputs) = Returned state.
Proof.
  induction inputs as [|[input env] rest IH]; [now exists AwaitingInput|].
  rewrite session_loop_cons. destruct (is_quit input); [now exists Terminated|].
  exact IH.
Qed.

End CommandFacts.

(** X10: a line that is missing, empty or made of white space only is
    skipped: nothing happens and the loop goes on to the next line. *)
Theorem session_skips_blank_lines :
  forall (this : InteractiveClaySculptor) (input : option jsstring)
         (env : CommandEnv) (rest : list (option jsstring * CommandEnv)),
    input = None \/ (exists text, input = Some text /\ forallb is_space text = true) ->
    session_loop this ((input, env) :: rest) = session_loop this rest.
Proof.
  intros this input env rest H.
  assert (Ht : session_turn this input env = ([], Returned false)).
  { destruct H as [->|(text & -> & Hs)]; [reflexivity|].
    unfold session_turn. now rewrite (proj2 (CommandFacts.trim_empty text) Hs). }
  cbn [session_loop]. rewrite Ht. cbn.
  now destruct (session_loop this rest).
Qed.

Lemma session_skips_blank_lines_witness :
  session_loop default_session [(Some (lit "  "), sample_command_env)]
  = ([], Returned AwaitingInput).
Proof.
  rewrite (session_skips_blank_lines default_session (Some (lit "  "))
             sample_command_env []); [reflexivity|].
  right. exists (lit "  "). split; reflexivity.
Defined.

(** X11: white space around a line does not count: the loop does with a line
    what it does with the trimmed line. *)
Theorem session_trims_lines :
  forall (this : InteractiveClaySculptor) (text : jsstring)
         (env : CommandEnv) (rest : list (option jsstring * CommandEnv)),
    session_loop this ((Some text, env) :: rest)
    = session_loop this ((Some (trim text), env) :: rest).
Proof.
  intros this text env rest. cbn [session_loop]. unfold session_turn.
  now rewrite LoopFacts.trim_idempotent.
Qed.

(** X12: the command words, in any case and with any white space around
    them: quit and exit say goodbye and end the session, whatever lines
    follow; help and clear show the help or clear the console and the loop
    goes on; none of them generates anything. *)
Theorem session_command_words :
  forall (this : InteractiveClaySculptor) (text : jsstring)
         (env : CommandEnv) (rest : list (option jsstring * CommandEnv)),
    let word := toLowerCase (trim text) in
    (word = lit "quit" \/ word = lit "exit" ->
       session_loop this ((Some text, env) :: rest)
       = ([ConsoleLog MsgGoodbye], Returned Terminated))
    /\ (word = lit "help" ->
        session_loop this ((Some text, env) :: rest)
        = (ConsoleLog MsgSessionHelp :: trace (session_loop this rest),
           outcome (session_loop this rest)))
    /\ (word = lit "clear" ->
        session_loop this ((Some text, env) :: rest)
        = (ConsoleClear :: trace (session_loop this rest),
           outcome (session_loop this rest))).
Proof.
  intros this text env rest word. subst word.
  assert (Hturn : forall w, toLowerCase (trim text) = w -> w <> [] ->
            session_turn this (Some text) env
            = try_catch (handleCommand this (trim text) env)
                (fun error =>
                   emit (ConsoleError (MsgSessionError error)) ;;
                   emit (ConsoleLog MsgBlank) ;; ret false)).
  { intros w Hw Hne. unfold session_turn.
    destruct (trim text); [now subst w|reflexivity]. }
  split; [|split].
  - intros H. cbn [session_loop].
    destruct H as [H|H]; rewrite (Hturn _ H) by discriminate;
      unfold handleCommand; rewrite H; reflexivity.
  - intros H. cbn [session_loop]. rewrite (Hturn _ H) by discriminate.
    unfold handleCommand. rewrite H. cbn.
    now destruct (session_loop this rest).
  - intros H. cbn [session_loop]. rewrite (Hturn _ H) by discriminate.
    unfold handleCommand. rewrite H. cbn.
    now destruct (session_loop this rest).
Qed.

Lemma session_command_words_witness :
  session_loop default_session
    [(Some (lit " ExIt "), sample_command_env);
     (Some (lit "never read"), sample_command_env)]
  = ([ConsoleLog MsgGoodbye], Returned Terminated).
Proof.
  destruct (session_command_words default_session (lit " ExIt ") sample_command_env
              [(Some (lit "never read"), sample_command_env)]) as (H & _ & _).
  apply H. right. reflexivity.
Defined.



(** X14: the session ends exactly when one of its lines is quit or exit, and
    the lines after the first of them are never looked at. *)
Theorem session_ends_on_quit_only :
  forall (this : InteractiveClaySculptor)
         (inputs : list (option jsstring * CommandEnv)),
    (outcome (session_loop this inputs) = Returned Terminated
     <-> existsb (fun line => is_quit (fst line)) inputs = true)
    /\ (forall before line after,
          inputs = before ++ line :: after ->
          is_quit (fst line) = true ->
          session_loop this inputs = session_loop this (before ++ [line])).
Proof.
  intros this inputs. split.
  - induction inputs as [|[input env] rest IH]; [split; discriminate|].
    rewrite CommandFacts.session_loop_cons. cbn [existsb fst].
    destruct (is_quit input); [now split|exact IH].
  - intros before line after -> Hq. destruct line as [input env].
    induction before as [|[input' env'] before IH].
    + cbn [Datatypes.app]. rewrite !CommandFacts.session_loop_cons. cbn [fst] in Hq.
      now rewrite Hq.
    + cbn [Datatypes.app]. rewrite !CommandFacts.session_loop_cons.
      destruct (is_quit input'); [reflexivity|]. now rewrite IH.
Qed.

Lemma session_ends_on_quit_only_witness :
  session_loop default_session sample_lines
  = session_loop default_session (List.firstn 3 sample_lines).
Proof.
  destruct (session_ends_on_quit_only default_session sample_lines) as [_ H].
  apply (H (List.firstn 2 sample_lines) (Some (lit " QUIT "), sample_command_env)
           [(Some (lit "never read"), sample_command_env)]); reflexivity.
Defined.

Module PlainFacts.
Import MonadFacts.

Lemma handleCommand_plain this input env :
  is_command_word input = false ->
  Regex.match_variations input = None ->
  handleCommand this input env
  = (generateSingleImage this input (single_env env) ;;
     emit (ConsoleLog MsgBlank) ;; ret false).
Proof.
  unfold is_command_word, handleCommand, handleVariationsCommand.
  intros Hw Hm. apply orb_false_iff in Hw. destruct Hw as [Hw Hclear].
  apply orb_false_iff in Hw. destruct Hw as [Hw Hhelp].
  rewrite Hw, Hhelp, Hclear, Hm. now rewrite CliFacts.bind_ret.
Qed.

(** The events of a plain description are those of its one call, followed
    by an empty line when the call returns. *)
Lemma plain_trace this input env :
  is_command_word input = false ->
  Regex.match_variations input = None ->
  trace (handleCommand this input env)
  = trace (generateClayImage (agent this) (session_config this input) (single_env env))
    ++ match outcome (generateClayImage (agent this) (session_config this input)
                        (single_env env)) with
       | Returned _ => [ConsoleLog MsgBlank]
       | _ => []
       end
  /\ outcome (handleCommand this input env)
     = match outcome (generateClayImage (agent this) (session_config this input)
                        (single_env env)) with
       | Returned _ => Returned false
       | Thrown e => Thrown e
       | Exited c => Exited c
       end.
Proof.
  intros Hw Hm. rewrite (handleCommand_plain this input env Hw Hm).
  unfold generateSingleImage. fold (session_config this input).
  rewrite !trace_bind, !outcome_bind.
  destruct (outcome (generateClayImage _ _ _)); cbn; rewrite ?app_nil_r; auto.
Qed.

End PlainFacts.

(** X15: a line that is neither a command word nor a variations command is
    a description: the session makes one [generateClayImage] call for it with
    the model, the output directory and the shadows flag the session was
    started with, an empty model or directory standing for the default; when
    the call returns, the one file written is
    [<directory>/<file name of the description>]. *)
Theorem session_plain_description :
  forall (apiKey : jsstring) (opts : ClaySculptorOptions) (input : jsstring)
         (env : CommandEnv),
    is_command_word input = false ->
    Regex.match_variations input = None ->
    let this := new_InteractiveClaySculptor apiKey opts in
    let run := handleCommand this input env in
    let dir := or_string (opt_outputDir opts) (lit "./output") in
    made_directories (trace run) = [dir]
    /\ requests (trace run)
       = (if mkdir_ok (single_env env)
          then [(or_string (opt_model opts) (lit "imagen-4.0-generate-001"),
                 generatePrompt input (Some (or_false (opt_shadows opts))))]
          else [])
    /\ (forall stop, outcome run = Returned stop ->
          stop = false
          /\ written_paths (trace run)
             = [dir ++ lit "/"
                ++ generateFilename input false None (clock (single_env env))])
    /\ (forall e, outcome run = Thrown e ->
          outcome (generateClayImage (agent this) (session_config this input)
                     (single_env env)) = Thrown e).
Proof.
  intros apiKey opts input env Hw Hm this run dir. subst run.
  destruct (PlainFacts.plain_trace this input env Hw Hm) as [Htr Hout].
  pose proof (CallFacts.call_directories (agent this) (session_config this input)
                (single_env env)) as Hd.
  pose proof (CallFacts.call_requests (agent this) (session_config this input)
                (single_env env)) as Hr.
  destruct (CallFacts.call_written (agent this) (session_config this input)
              (single_env env)) as [_ Hwr].
  rewrite Htr, Hout.
  unfold made_directories, requests, written_paths in *.
  rewrite !flat_map_app, Hd, Hr.
  destruct (outcome (generateClayImage (agent this) (session_config this input)
                       (single_env env))) as [p|e|c] eqn:Eo; cbn [List.flat_map];
    rewrite ?app_nil_r.
  - split; [reflexivity|]. split; [reflexivity|]. split; [|discriminate].
    intros stop Hs. injection Hs as <-. split; [reflexivity|].
    rewrite (Hwr p eq_refl).
    apply ImageFacts.generateClayImage_returned in Eo. now rewrite Eo.
  - split; [reflexivity|]. split; [reflexivity|]. split; [discriminate|].
    intros e' H. now injection H as <-.
  - split; [reflexivity|]. split; [reflexivity|]. split; discriminate.
Qed.

Lemma session_plain_description_witness :
  written_paths (trace (handleCommand custom_session (lit "cute robot")
                          sample_command_env))
  = [lit "./my_creations/clay_cute_robot_2023-11-14T22-13-20-000Z.png"].
Proof.
  destruct (session_plain_description (lit "api-key")
              {| opt_model := Some (lit "custom-model");
                 opt_outputDir := Some (lit "./my_creations");
                 opt_variations := Some (Num 3);
                 opt_shadows := Some false |}
              (lit "cute robot") sample_command_env eq_refl eq_refl)
    as (_ & _ & H & _).
  destruct (H false eq_refl) as [_ Hw]. exact Hw.
Defined.

Module InteractiveFacts.

(** The state in which the lines read so far leave the loop. *)
Lemma session_loop_state this inputs :
  outcome (session_loop this inputs)
  = Returned (if existsb (fun line => is_quit (fst line)) inputs
              then Terminated else AwaitingInput).
Proof.
  induction inputs as [|[input env] rest IH]; [reflexivity|].
  rewrite CommandFacts.session_loop_cons. cbn [existsb fst].
  destruct (is_quit input); [reflexivity|exact IH].
Qed.

Lemma interactive_run args env apiKey :
  truthy_string (GEMINI_API_KEY env) = Some apiKey ->
  runInteractiveMode args env
  = startInteractiveSession (interactive_session args apiKey) (stdin env).
Proof.
  intros Hkey.
  unfold runInteractiveMode, getApiKey. rewrite Hkey, CliFacts.bind_ret.
  fold (interactive_session args apiKey).
  assert (Ho : exists state,
            outcome (startInteractiveSession (interactive_session args apiKey)
                       (stdin env)) = Returned state).
  { unfold startInteractiveSession, showWelcomeMessage.
    rewrite !MonadFacts.outcome_bind. cbn.
    apply CommandFacts.session_loop_returns. }
  destruct Ho as [state Ho].
  rewrite (MonadFacts.run_eta (startInteractiveSession _ _)), Ho. reflexivity.
Qed.

Lemma interactive_outcome args env apiKey :
  truthy_string (GEMINI_API_KEY env) = Some apiKey ->
  outcome (runInteractiveMode args env)
  = Returned (if existsb (fun line => is_quit (fst line)) (stdin env)
              then Terminated else AwaitingInput).
Proof.
  intros Hkey. rewrite (interactive_run args env apiKey Hkey).
  unfold startInteractiveSession, showWelcomeMessage.
  rewrite !MonadFacts.outcome_bind. cbn. apply session_loop_state.
Qed.

End InteractiveFacts.

(** X16: once the key is read, interactive mode is the session and nothing
    else: it cannot fail, so that its fatal-error handler is never reached,
    and it returns, the process ending with code 0, exactly when one of the
    lines is quit or exit; as long as there is no such line the mode has
    not returned and the session waits for its next line. *)
Theorem runInteractiveMode_returns_on_quit :
  forall (args : CliArgs) (env : ProcessEnv) (apiKey : jsstring),
    truthy_string (GEMINI_API_KEY env) = Some apiKey ->
    runInteractiveMode args env
    = startInteractiveSession (interactive_session args apiKey) (stdin env)
    /\ (existsb (fun line => is_quit (fst line)) (stdin env) = true ->
        outcome (runInteractiveMode args env) = Returned Terminated
        /\ exit_code (runInteractiveMode args env) = 0%Z)
    /\ (existsb (fun line => is_quit (fst line)) (stdin env) = false ->
        outcome (runInteractiveMode args env) = Returned AwaitingInput)
    /\ (forall e code,
          outcome (runInteractiveMode args env) <> Thrown e
          /\ outcome (runInteractiveMode args env) <> Exited code).
Proof.
  intros args env apiKey Hkey.
  pose proof (InteractiveFacts.interactive_outcome args env apiKey Hkey) as Ho.
  split; [now apply InteractiveFacts.interactive_run|].
  split; [|split].
  - intros Hq. rewrite Hq in Ho. unfold exit_code. now rewrite Ho.
  - intros Hq. now rewrite Hq in Ho.
  - intros e code. rewrite Ho. split; discriminate.
Qed.

Lemma runInteractiveMode_returns_on_quit_witness :
  outcome (runInteractiveMode cat_args api_down_process_env) = Returned Terminated
  /\ exit_code (runInteractiveMode cat_args api_down_process_env) = 0%Z.
Proof.
  destruct (runInteractiveMode_returns_on_quit cat_args api_down_process_env
              (lit "api-key") eq_refl) as (_ & H & _).
  apply H. reflexivity.
Defined.

(** ** The command line, further *)

Module ExitFacts.
Import MonadFacts.

Lemma missing_key args env :
  truthy_string (GEMINI_API_KEY env) = None ->
  runSingleCommandMode args env = (missing_key_trace, Exited 1%Z)
  /\ runInteractiveMode args env = (missing_key_trace, Exited 1%Z).
Proof.
  intros H. unfold runSingleCommandMode, runInteractiveMode, getApiKey.
  now rewrite H.
Qed.

Lemma single_command_run args env apiKey userInput rest :
  truthy_string (GEMINI_API_KEY env) = Some apiKey ->
  arg_positional args = userInput :: rest ->
  runSingleCommandMode args env
  = try_catch
      (single_command_generation args env apiKey userInput ;;
       emit (ConsoleLog MsgCompleted))
      fatal.
Proof.
  intros Hkey Hpos.
  now rewrite (CliFacts.runSingleCommandMode_dispatch args env apiKey userInput rest
                 Hkey Hpos).
Qed.

Lemma single_command_generation_no_exit args env apiKey userInput code :
  outcome (single_command_generation args env apiKey userInput) <> Exited code.
Proof.
  unfold single_command_generation. destruct (js_gt _ _); rewrite outcome_bind.
  - pose proof (VariationFacts.generateMultipleVariations_no_exit
                  (new_ClaySculptorAgent apiKey (Some (or_false (arg_shadows args))))
                  userInput
                  (match truthy_string (arg_variations args) with
                   | Some v => parseInt v
                   | None => Num 1
                   end)
                  (variations_env (command_env env))) as H.
    destruct (outcome (generateMultipleVariations _ _ _ _)) as [l|e|c];
      [discriminate|discriminate|].
    intros E. injection E as ->. now apply (H code).
  - pose proof (ImageFacts.generateClayImage_no_exit
                  (new_ClaySculptorAgent apiKey (Some (or_false (arg_shadows args))))
                  (single_command_config args userInput)
                  (single_env (command_env env))) as H.
    destruct (outcome (generateClayImage _ _ _)) as [l|e|c];
      [discriminate|discriminate|].
    intros E. injection E as ->. now apply (H code).
Qed.

(** The single command ends in one of two ways. *)
Lemma single_command_result args env apiKey userInput rest :
  truthy_string (GEMINI_API_KEY env) = Some apiKey ->
  arg_positional args = userInput :: rest ->
  let gen := single_command_generation args env apiKey userInput in
  (outcome gen = Returned tt
   /\ runSingleCommandMode args env
      = (trace gen ++ [ConsoleLog MsgCompleted], Returned tt))
  \/ (exists e, outcome gen = Thrown e
                /\ runSingleCommandMode args env
                   = (trace gen ++ [ConsoleError (MsgFatalError e)], Exited 1%Z)).
Proof.
  intros Hkey Hpos gen.
  rewrite (single_command_run args env apiKey userInput rest Hkey Hpos).
  fold gen. pose proof (single_command_generation_no_exit args env apiKey userInput)
    as Hne. fold gen in Hne. clearbody gen.
  destruct gen as [tr [[]|e|c]]; cbn in *.
  - left. now split.
  - right. exists e. now split.
  - exfalso. now apply (Hne c).
Qed.

End ExitFacts.

(** X17: the key must be there and not empty: [getApiKey] returns the key,
    printing nothing, exactly when the variable holds a non-empty string; an
    empty key is treated as a missing one, both run modes printing the two
    lines about the key and exiting with code 1. *)
Theorem getApiKey_nonempty :
  forall (args : CliArgs) (env : ProcessEnv),
    (forall key, getApiKey env = ([], Returned key)
                 <-> GEMINI_API_KEY env = Some key /\ key <> [])
    /\ (GEMINI_API_KEY env = Some [] ->
        getApiKey env = (missing_key_trace, Exited 1%Z)
        /\ runSingleCommandMode args env = (missing_key_trace, Exited 1%Z)
        /\ runInteractiveMode args env = (missing_key_trace, Exited 1%Z)).
Proof.
  intros args env. split.
  - intros key. unfold getApiKey.
    destruct (GEMINI_API_KEY env) as [[|c k]|]; cbn; split;
      try discriminate; try (intros [H _]; discriminate H).
    + intros [H Hne]. injection H as <-. contradiction.
    + intros H. injection H as <-. split; [reflexivity|discriminate].
    + intros [H _]. now injection H as <-.
  - intros H. split.
    + unfold getApiKey. now rewrite H.
    + apply ExitFacts.missing_key. now rewrite H.
Qed.

Lemma getApiKey_nonempty_witness :
  runSingleCommandMode cat_args empty_key_process_env = (missing_key_trace, Exited 1%Z).
Proof.
  destruct (getApiKey_nonempty cat_args empty_key_process_env) as [_ H].
  destruct (H eq_refl) as (_ & Hs & _). exact Hs.
Defined.

(** X18: with the key read and a description given, the single command has
    two ways to end and never lets an exception out: when the generation
    returns, it prints the line of completion after the events of the
    generation and returns, the exit code being 0; when the generation
    throws, it prints the fatal error with that very error and exits with
    code 1. *)
Theorem runSingleCommandMode_exit :
  forall (args : CliArgs) (env : ProcessEnv) (apiKey userInput : jsstring)
         (rest : list jsstring),
    truthy_string (GEMINI_API_KEY env) = Some apiKey ->
    arg_positional args = userInput :: rest ->
    let gen := single_command_generation args env apiKey userInput in
    let run := runSingleCommandMode args env in
    (outcome gen = Returned tt ->
       run = (trace gen ++ [ConsoleLog MsgCompleted], Returned tt))
    /\ (forall e, outcome gen = Thrown e ->
          run = (trace gen ++ [ConsoleError (MsgFatalError e)], Exited 1%Z))
    /\ (forall e, outcome run <> Thrown e)
    /\ (exit_code run = 0%Z <-> outcome gen = Returned tt)
    /\ (exit_code run = 1%Z <-> exists e, outcome gen = Thrown e).
Proof.
  intros args env apiKey userInput rest Hkey Hpos gen run. subst run.
  destruct (ExitFacts.single_command_result args env apiKey userInput rest Hkey Hpos)
    as [[Ho Hr]|(e & Ho & Hr)]; fold gen in Ho, Hr; rewrite Hr.
  - split; [reflexivity|]. split; [intros e He; congruence|].
    split; [discriminate|]. split; [now split|].
    split; [discriminate|]. intros [e He]. congruence.
  - split; [intros H; congruence|].
    split; [intros e' He; rewrite Ho in He; now injection He as <-|].
    split; [discriminate|]. split; [split; [discriminate|congruence]|].
    split; [now exists e|reflexivity].
Qed.

Lemma runSingleCommandMode_exit_witness :
  exit_code (runSingleCommandMode cat_args api_down_process_env) = 1%Z.
Proof.
  destruct (runSingleCommandMode_exit cat_args api_down_process_env (lit "api-key")
              (lit "cat") [] eq_refl eq_refl) as (_ & _ & _ & _ & H).
  apply H. eexists. reflexivity.
Defined.

(** X19: with --output and without --variations, the single command writes
    to the path --output gives and to no other, whatever the description,
    the clock and --output-dir. *)
Theorem runSingleCommandMode_output_wins :
  forall (args : CliArgs) (env : ProcessEnv) (apiKey userInput : jsstring)
         (rest : list jsstring) (c : char) (s p : jsstring) (bytes : list byte),
    truthy_string (GEMINI_API_KEY env) = Some apiKey ->
    arg_positional args = userInput :: rest ->
    arg_variations args = None ->
    arg_output args = Some (c :: s) ->
    In (WriteFile p bytes) (trace (runSingleCommandMode args env)) ->
    p = c :: s.
Proof.
  intros args env apiKey userInput rest c s p bytes Hkey Hpos Hv Hout Hin.
  destruct (PathFacts.single_command_events _ _ _ _ _ _ Hkey Hpos Hv Hin)
    as [H|[H|(e & H)]]; try discriminate H.
  cbn in H. rewrite H. unfold resolved_path, single_command_config.
  cbn [outputPath]. now rewrite Hout.
Qed.

Lemma runSingleCommandMode_output_wins_witness :
  lit "./cat.png" = 46%N :: lit "/cat.png".
Proof.
  apply (runSingleCommandMode_output_wins output_args
           (sample_process_env 1700000000000) (lit "api-key") (lit "cat") []
           46%N (lit "/cat.png") (lit "./cat.png") (lit "hello"));
    try reflexivity.
  vm_compute. tauto.
Defined.

(** X20: with --variations parsing to n > 1, the files the single command
    writes are variations of the description under the default directory,
    with indices below n; --output and --output-dir play no part. *)
Theorem runSingleCommandMode_variation_paths :
  forall (args : CliArgs) (env : ProcessEnv) (apiKey userInput : jsstring)
         (rest : list jsstring) (v : jsstring) (n : Z)
         (p : jsstring) (bytes : list byte),
    truthy_string (GEMINI_API_KEY env) = Some apiKey ->
    arg_positional args = userInput :: rest ->
    arg_variations args = Some v ->
    parseInt v = Num n -> (1 < n)%Z ->
    In (WriteFile p bytes) (trace (runSingleCommandMode args env)) ->
    exists i, (i < Z.to_nat n)%nat
              /\ p = variation_path userInput i
                       (name_clock (variations_env (command_env env) i)).
Proof.
  intros args env apiKey userInput rest v n p bytes Hkey Hpos Hv Hn Hgt Hin.
  rewrite (ExitFacts.single_command_run args env apiKey userInput rest Hkey Hpos)
    in Hin.
  unfold single_command_generation in Hin. rewrite Hv in Hin.
  assert (Ht : truthy_string (Some v) = Some v)
    by (destruct v; [discriminate Hn|reflexivity]).
  rewrite Ht, Hn in Hin.
  assert (Hj : js_gt (Num n) (Num 1) = true)
    by (unfold js_gt, js_lt; now apply Z.ltb_lt).
  rewrite Hj in Hin.
  apply TraceFacts.trace_try_catch_in in Hin. destruct Hin as [Hin|(e & _ & Hin)].
  - apply TraceFacts.trace_bind_in in Hin. destruct Hin as [Hin|(_ & _ & Hin)].
    + apply TraceFacts.trace_bind_in in Hin. destruct Hin as [Hin|(_ & _ & [])].
      apply TraceFacts.generateMultipleVariations_events in Hin.
      destruct Hin as [Hin|(i & Hi & Hin)]; [contradiction|].
      apply TraceFacts.generateClayImage_events in Hin. cbn in Hin.
      exists i. split; [|rewrite Hin; reflexivity].
      unfold ToLength, ToLength_integer in Hi. lia.
    + destruct Hin as [Hin|[]]. discriminate Hin.
  - destruct Hin as [Hin|[]]. discriminate Hin.
Qed.

Lemma runSingleCommandMode_variation_paths_witness :
  exists i, (i < 15)%nat
            /\ lit "./output/clay_cat_variation_2_2023-11-14T22-13-20-001Z.png"
               = variation_path (lit "cat") i (name_clock (sample_variations_env i)).
Proof.
  apply (runSingleCommandMode_variation_paths fifteen_args
           (sample_process_env 1700000000000) (lit "api-key") (lit "cat") []
           (lit "15") 15%Z
           (lit "./output/clay_cat_variation_2_2023-11-14T22-13-20-001Z.png")
           (lit "hello")); try reflexivity.
  vm_compute. tauto.
Defined.

(** X21: no exception leaves [main], and the exit code of the process, once
    it has ended, is 0 or 1.  With --help, with --version, or with neither
    --interactive nor a description, [main] prints one text and returns
    without reading the key; code 1 means that a run mode was reached and
    either the key is missing or empty, or the generation of the single
    command threw.  [main] has not returned, the process waiting for a line,
    exactly in interactive mode with the key set and no quit or exit among
    the lines read. *)
Theorem main_exit_code :
  forall (args : CliArgs) (env : ProcessEnv),
    (forall e, outcome (main args env) <> Thrown e)
    /\ (exit_code (main args env) = 0%Z \/ exit_code (main args env) = 1%Z)
    /\ (or_false (arg_help args) = true \/ or_false (arg_version args) = true
        \/ (or_false (arg_interactive args) = false /\ arg_positional args = []) ->
        exists text, main args env = ([ConsoleLog text], Returned Terminated))
    /\ (exit_code (main args env) = 1%Z ->
        or_false (arg_help args) = false /\ or_false (arg_version args) = false
        /\ (truthy_string (GEMINI_API_KEY env) = None
            \/ exists apiKey userInput rest e,
                 truthy_string (GEMINI_API_KEY env) = Some apiKey
                 /\ or_false (arg_interactive args) = false
                 /\ arg_positional args = userInput :: rest
                 /\ outcome (single_command_generation args env apiKey userInput)
                    = Thrown e))
    /\ (outcome (main args env) = Returned AwaitingInput
        <-> or_false (arg_help args) = false /\ or_false (arg_version args) = false
            /\ or_false (arg_interactive args) = true
            /\ truthy_string (GEMINI_API_KEY env) <> None
            /\ existsb (fun line => is_quit (fst line)) (stdin env) = false).
Proof.
  intros args env. unfold main, showHelp.
  destruct (or_false (arg_help args)) eqn:Hh.
  { cbn. split; [discriminate|]. split; [now left|].
    split; [now exists MsgUsage|]. split; [discriminate|].
    split; [discriminate|intros (H & _); discriminate H]. }
  destruct (or_false (arg_version args)) eqn:Hv.
  { cbn. split; [discriminate|]. split; [now left|].
    split; [now exists MsgVersion|]. split; [discriminate|].
    split; [discriminate|intros (_ & H & _); discriminate H]. }
  destruct (truthy_string (GEMINI_API_KEY env)) as [apiKey|] eqn:Hkey.
  - destruct (or_false (arg_interactive args)) eqn:Hi.
    + pose proof (InteractiveFacts.interactive_outcome args env apiKey Hkey) as Ho.
      unfold exit_code. rewrite Ho.
      split; [discriminate|]. split; [now left|].
      split; [intros [H|[H|[H _]]]; discriminate H|].
      split; [discriminate|].
      destruct (existsb _ (stdin env)).
      * split; [discriminate|]. intros (_ & _ & _ & _ & H). discriminate H.
      * split; [|reflexivity]. intros _. repeat split; try reflexivity.
        discriminate.
    + destruct (arg_positional args) as [|userInput rest] eqn:Hpos.
      * cbn. split; [discriminate|]. split; [now left|].
        split; [now exists MsgUsage|]. split; [discriminate|].
        split; [discriminate|intros (_ & _ & H & _); discriminate H].
      * destruct (ExitFacts.single_command_result args env apiKey userInput rest
                    Hkey Hpos) as [[Ho ->]|(e & Ho & ->)]; cbn.
        -- split; [discriminate|]. split; [now left|].
           split; [intros [H|[H|[_ H]]]; discriminate H|].
           split; [discriminate|].
           split; [discriminate|intros (_ & _ & H & _); discriminate H].
        -- split; [discriminate|]. split; [now right|].
           split; [intros [H|[H|[_ H]]]; discriminate H|].
           split.
           ++ intros _. split; [reflexivity|]. split; [reflexivity|].
              right. now exists apiKey, userInput, rest, e.
           ++ split; [discriminate|intros (_ & _ & H & _); discriminate H].
  - destruct (ExitFacts.missing_key args env Hkey) as [Hs Hm].
    destruct (or_false (arg_interactive args)) eqn:Hi.
    + rewrite Hm. cbn. split; [discriminate|]. split; [now right|].
      split; [intros [H|[H|[H _]]]; discriminate H|].
      split; [auto|].
      split; [discriminate|intros (_ & _ & _ & H & _); now contradiction H].
    + destruct (arg_positional args) as [|userInput rest] eqn:Hpos.
      * cbn. split; [discriminate|]. split; [now left|].
        split; [now exists MsgUsage|]. split; [discriminate|].
        split; [discriminate|intros (_ & _ & H & _); discriminate H].
      * rewrite Hs. cbn. split; [discriminate|]. split; [now right|].
        split; [intros [H|[H|[_ H]]]; discriminate H|].
        split; [auto|].
        split; [discriminate|intros (_ & _ & H & _); discriminate H].
Qed.

Lemma main_exit_code_witness :
  exists text, main help_args keyless_process_env = ([ConsoleLog text], Returned Terminated).
Proof.
  destruct (main_exit_code help_args keyless_process_env) as (_ & _ & H & _).
  apply H. now left.
Defined.

(** ** Variations in the session, clocks and options *)

Module LineFacts.



End LineFacts.



(** X23: for a clock read in the years 0000 to 9999 the timestamp of a file
    name has 24 characters, and with the description, the flag and the index
    fixed, two clock readings give the same file name only when they are the
    same millisecond. *)
Theorem generateFilename_clock :
  forall (d : jsstring) (isVariation : bool) (variationIndex : option N)
         (now1 now2 : Z),
    JsDate.four_digit_year now1 -> JsDate.four_digit_year now2 ->
    List.length (timestamp now1) = 24%nat
    /\ (generateFilename d isVariation variationIndex now1
        = generateFilename d isVariation variationIndex now2
        <-> now1 = now2).
Proof.
  intros d isVariation variationIndex now1 now2 H1 H2.
  split; [now apply TimestampFacts.timestamp_length|].
  split; [|now intros ->].
  rewrite !FilenameFacts.generateFilename_segments. intros H.
  do 4 apply app_inv_head in H. apply app_inv_tail in H.
  now apply TimestampFacts.timestamp_inj.
Qed.

Lemma generateFilename_clock_witness :
  generateFilename (lit "cat") false None 1700000000123
  = generateFilename (lit "cat") false None 1700000000124
  <-> 1700000000123%Z = 1700000000124%Z.
Proof.
  apply (generateFilename_clock (lit "cat") false None 1700000000123 1700000000124);
    unfold JsDate.four_digit_year; lia.
Defined.

(** X24: the constructor of the session completes the options: the model
    and the output directory are never empty and the number of variations is
    never zero or NaN; a non-empty model or directory and a non-zero count
    are kept, anything else is replaced by the built-in value; the shadows
    flag is kept, false standing for a missing one, and the agent of the
    session gets it. *)
Theorem new_InteractiveClaySculptor_options :
  forall (key : jsstring) (opts : ClaySculptorOptions),
    let this := new_InteractiveClaySculptor key opts in
    (exists m dir n sh,
        options this
        = {| opt_model := Some m; opt_outputDir := Some dir;
             opt_variations := Some (Num n); opt_shadows := Some sh |}
        /\ m <> [] /\ dir <> [] /\ n <> 0%Z
        /\ agent_shadows (agent this) = sh)
    /\ (forall c s, opt_model opts = Some (c :: s) ->
          opt_model (options this) = Some (c :: s))
    /\ (forall c s, opt_outputDir opts = Some (c :: s) ->
          opt_outputDir (options this) = Some (c :: s))
    /\ (forall n, opt_variations opts = Some (Num n) -> n <> 0%Z ->
          opt_variations (options this) = Some (Num n))
    /\ (opt_model opts = None \/ opt_model opts = Some [] ->
        opt_model (options this) = Some defaultModel)
    /\ (opt_outputDir opts = None \/ opt_outputDir opts = Some [] ->
        opt_outputDir (options this) = Some defaultOutputDir)
    /\ (opt_variations opts = None \/ opt_variations opts = Some NaN
        \/ opt_variations opts = Some (Num 0) ->
        opt_variations (options this) = Some (Num 3))
    /\ (forall b, opt_shadows opts = Some b ->
          opt_shadows (options this) = Some b /\ agent_shadows (agent this) = b)
    /\ (opt_shadows opts = None ->
        opt_shadows (options this) = Some false
        /\ agent_shadows (agent this) = false)
    /\ apiKey (agent this) = key.
Proof.
  intros key opts this. subst this.
  destruct opts as [m dir n sh]. cbn.
  split; [|repeat split].
  - exists (or_string m (lit "imagen-4.0-generate-001")),
           (or_string dir (lit "./output")),
           (match or_number n (Num 3) with Num z => z | NaN => 3%Z end),
           (or_false sh).
    split.
    + f_equal. destruct n as [[|z]|]; cbn; try reflexivity.
      now destruct (Z.eqb z 0).
    + split; [destruct m as [[|? ?]|]; discriminate|].
      split; [destruct dir as [[|? ?]|]; discriminate|].
      split; [|now destruct sh].
      destruct n as [[|z]|]; cbn; try discriminate.
      destruct (Z.eqb_spec z 0); [discriminate|assumption].
  - intros c s ->. reflexivity.
  - intros c s ->. reflexivity.
  - intros z -> Hz. cbn. now destruct (Z.eqb_spec z 0).
  - intros [-> | ->]; reflexivity.
  - intros [-> | ->]; reflexivity.
  - intros [-> | [-> | ->]]; reflexivity.
  - subst sh. reflexivity.
  - subst sh. reflexivity.
  - subst sh. reflexivity.
  - subst sh. reflexivity.
Qed.

Lemma new_InteractiveClaySculptor_options_witness :
  opt_variations
    (options (new_InteractiveClaySculptor (lit "api-key")
                {| opt_model := Some (lit "custom-model");
                   opt_outputDir := Some (lit "./my_creations");
                   opt_variations := Some (Num 7);
                   opt_shadows := Some true |}))
  = Some (Num 7).
Proof.
  destruct (new_InteractiveClaySculptor_options (lit "api-key")
              {| opt_model := Some (lit "custom-model");
                 opt_outputDir := Some (lit "./my_creations");
                 opt_variations := Some (Num 7);
                 opt_shadows := Some true |}) as (_ & _ & _ & H & _).
  apply (H 7%Z); [reflexivity|discriminate].
Defined.

(** ** Files of a batch, and the test script *)

Module WrittenFacts.




End WrittenFacts.



Module ScriptFacts.

Lemma program_events_run (tr : list Event) :
  List.flat_map (fun ev => match ev with Program e => [e] | _ => [] end)
    (List.map Program tr) = tr.
Proof. induction tr as [|ev tr IH]; [reflexivity|]. simpl. now rewrite IH. Qed.

Lemma t_bind_ret {A B} (a : A) (k : A -> T B) : t_bind (t_ret a) k = k a.
Proof. unfold t_bind, t_ret. now destruct (k a). Qed.

(** The script, once the key is read, by the outcomes of its three uses of
    the agent. *)
Lemma testAgent_cases env apiKey :
  truthy_string (test_key env) = Some apiKey ->
  let r1 := test1_run apiKey env in
  let r2 := test2_run apiKey env in
  let r3 := test3_run apiKey env in
  (exists e, outcome r1 = Thrown e
             /\ testAgent env
                = (Log TestingAgent :: Log Test1Starting
                   :: List.map Program (trace r1) ++ [LogError (TestFailed e)],
                   Exited 1%Z))
  \/ (exists p1 e, outcome r1 = Returned p1 /\ outcome r2 = Thrown e
                   /\ snd (testAgent env) = Exited 1%Z
                   /\ program_events (fst (testAgent env)) = trace r1 ++ trace r2)
  \/ (exists p1 l e, outcome r1 = Returned p1 /\ outcome r2 = Returned l
                     /\ outcome r3 = Thrown e
                     /\ snd (testAgent env) = Exited 1%Z
                     /\ program_events (fst (testAgent env))
                        = trace r1 ++ trace r2 ++ trace r3)
  \/ (exists p1 l p3, outcome r1 = Returned p1 /\ outcome r2 = Returned l
                      /\ outcome r3 = Returned p3
                      /\ snd (testAgent env) = Returned tt
                      /\ program_events (fst (testAgent env))
                         = trace r1 ++ trace r2 ++ trace r3).
Proof.
  intros Hkey r1 r2 r3.
  pose proof (ImageFacts.generateClayImage_no_exit
                (new_ClaySculptorAgent apiKey (Some false)) test1_config
                (test1_env env)) as H1.
  pose proof (VariationFacts.generateMultipleVariations_no_exit
                (new_ClaySculptorAgent apiKey (Some false)) (lit "magical cat")
                (Num 2) (test2_env env)) as H2.
  pose proof (ImageFacts.generateClayImage_no_exit
                (new_ClaySculptorAgent apiKey (Some false)) test3_config
                (test3_env env)) as H3.
  unfold testAgent. rewrite Hkey, !t_bind_ret. cbv beta zeta.
  fold (test1_run apiKey env) in H1 |- *. fold (test2_run apiKey env) in H2 |- *.
  fold (test3_run apiKey env) in H3 |- *. fold r1 in H1 |- *. fold r2 in H2 |- *.
  fold r3 in H3 |- *. clearbody r1 r2 r3.
  unfold outcome, trace in *.
  destruct r1 as [tr1 [p1|e1|c1]]; [|left|exfalso; now apply (H1 c1)].
  2:{ exists e1. split; [reflexivity|]. cbn.
      now rewrite ?app_nil_r. }
  right.
  destruct r2 as [tr2 [l|e2|c2]]; [|left|exfalso; now apply (H2 c2)].
  2:{ exists p1, e2. repeat split. cbn.
      unfold program_events. rewrite !flat_map_app, !program_events_run.
      repeat (cbn; rewrite ?flat_map_app, ?program_events_run, ?app_nil_r,
                <- ?app_assoc); reflexivity. }
  right.
  destruct r3 as [tr3 [p3|e3|c3]]; [right|left|exfalso; now apply (H3 c3)].
  - exists p1, l, p3. repeat split. cbn.
    unfold program_events. rewrite !flat_map_app, !program_events_run.
    repeat (cbn; rewrite ?flat_map_app, ?program_events_run, ?app_nil_r,
                <- ?app_assoc); reflexivity.
  - exists p1, l, e3. repeat split. cbn.
    unfold program_events. rewrite !flat_map_app, !program_events_run.
    repeat (cbn; rewrite ?flat_map_app, ?program_events_run, ?app_nil_r,
                <- ?app_assoc); reflexivity.
Qed.

End ScriptFacts.

(** X26: the test script ends normally exactly when the key is set and
    non-empty and its three uses of the agent all return; in every other
    run it ends the process with exit code 1. *)
Theorem testAgent_verdict :
  forall env : TestEnv,
    (snd (testAgent env) = Returned tt \/ snd (testAgent env) = Exited 1%Z)
    /\ (snd (testAgent env) = Returned tt <->
        exists apiKey,
          truthy_string (test_key env) = Some apiKey
          /\ (exists p, outcome (test1_run apiKey env) = Returned p)
          /\ (exists l, outcome (test2_run apiKey env) = Returned l)
          /\ (exists p, outcome (test3_run apiKey env) = Returned p)).
Proof.
  intros env. destruct (truthy_string (test_key env)) as [apiKey|] eqn:Hkey.
  - destruct (ScriptFacts.testAgent_cases env apiKey Hkey)
      as [(e & H1 & Hrun)
         |[(p1 & e & H1 & H2 & Hout & _)
          |[(p1 & l & e & H1 & H2 & H3 & Hout & _)
           |(p1 & l & p3 & H1 & H2 & H3 & Hout & _)]]].
    + rewrite Hrun. cbn [snd]. split; [now right|]. split; [discriminate|].
      intros (k & Hk & (p & Hp) & _). injection Hk as <-. congruence.
    + rewrite Hout. split; [now right|]. split; [discriminate|].
      intros (k & Hk & _ & (l & Hl) & _). injection Hk as <-. congruence.
    + rewrite Hout. split; [now right|]. split; [discriminate|].
      intros (k & Hk & _ & _ & (p & Hp)). injection Hk as <-. congruence.
    + rewrite Hout. split; [now left|]. split; [|intros _; reflexivity].
      intros _. exists apiKey. repeat split; eauto.
  - unfold testAgent. rewrite Hkey. cbn. split; [now right|].
    split; [discriminate|]. intros (k & Hk & _). discriminate Hk.
Qed.

(** X27: the test script stops at the first failure.  When its first use of
    the agent throws, it reports that error and exits with code 1: the
    events of the agent in the run are those of the first use alone, so
    tests 2 and 3 request no image and write no file. *)
Theorem testAgent_stops_at_first_failure :
  forall (env : TestEnv) (apiKey : jsstring) (e : Error),
    truthy_string (test_key env) = Some apiKey ->
    outcome (test1_run apiKey env) = Thrown e ->
    testAgent env
    = (Log TestingAgent :: Log Test1Starting
       :: List.map Program (trace (test1_run apiKey env))
       ++ [LogError (TestFailed e)],
       Exited 1%Z)
    /\ program_events (fst (testAgent env)) = trace (test1_run apiKey env).
Proof.
  intros env apiKey e Hkey H1.
  assert (Hrun : testAgent env
                 = (Log TestingAgent :: Log Test1Starting
                    :: List.map Program (trace (test1_run apiKey env))
                    ++ [LogError (TestFailed e)], Exited 1%Z)).
  { destruct (ScriptFacts.testAgent_cases env apiKey Hkey)
      as [(e' & H1' & Hrun)
         |[(p1 & e' & H1' & _)
          |[(p1 & l & e' & H1' & _)|(p1 & l & p3 & H1' & _)]]];
      try congruence. }
  split; [exact Hrun|]. rewrite Hrun. cbn [fst].
  unfold program_events. cbn [List.flat_map Datatypes.app].
  rewrite flat_map_app, ScriptFacts.program_events_run.
  cbn [List.flat_map Datatypes.app]. now rewrite app_nil_r.
Qed.

Lemma testAgent_stops_at_first_failure_witness :
  testAgent failing_test_env
  = (Log TestingAgent :: Log Test1Starting
     :: List.map Program (trace (test1_run (lit "api-key") failing_test_env))
     ++ [LogError (TestFailed (Runtime (OtherRuntimeError (lit "RetryError"))))],
     Exited 1%Z)
  /\ program_events (fst (testAgent failing_test_env))
     = trace (test1_run (lit "api-key") failing_test_env).
Proof.
  apply (testAgent_stops_at_first_failure failing_test_env (lit "api-key")
           (Runtime (OtherRuntimeError (lit "RetryError")))); reflexivity.
Defined.



(** ** Timestamped paths *)

(** X29: the timestamp keeps apart the paths that are built with
    [generateFilename]: two calls that return, each either without an
    explicit output path or a variation of a batch, return different paths
    when their file names were made at different clock readings in the years
    0000 to 9999; and two variations of different indices return different
    paths whatever the clock reads. *)
Theorem timestamped_paths_differ :
  (forall (this1 this2 : ClaySculptorAgent) (config1 config2 : ClayGenerationConfig)
          (env1 env2 : CallEnv) (t1 t2 : Z) (p1 p2 : jsstring),
      path_clock config1 env1 t1 ->
      path_clock config2 env2 t2 ->
      outcome (generateClayImage this1 config1 env1) = Returned p1 ->
      outcome (generateClayImage this2 config2 env2) = Returned p2 ->
      JsDate.four_digit_year t1 ->
      JsDate.four_digit_year t2 ->
      t1 <> t2 ->
      p1 <> p2)
  /\ (forall (this : ClaySculptorAgent) (d : jsstring) (env : nat -> VariationEnv)
             (i j : nat) (p q : jsstring),
        i <> j ->
        outcome (variation_call this d env i) = Returned p ->
        outcome (variation_call this d env j) = Returned q ->
        p <> q).
Proof.
  split.
  - intros this1 this2 config1 config2 env1 env2 t1 t2 p1 p2
      Hc1 Hc2 Hr1 Hr2 Hy1 Hy2 Hne.
    apply ImageFacts.generateClayImage_returned in Hr1, Hr2. subst p1 p2.
    destruct (PathFacts.resolved_path_timestamped config1 env1 t1 Hc1) as [x1 ->].
    destruct (PathFacts.resolved_path_timestamped config2 env2 t2 Hc2) as [x2 ->].
    now apply PathFacts.timestamped_differ.
  - intros this d env i j p q Hij Hp Hq.
    apply VariationFacts.variation_call_returned in Hp, Hq. subst p q.
    intros H. now apply VariationFacts.variation_path_inj in H.
Qed.

Lemma timestamped_paths_differ_witness :
  exists p1 p2,
    outcome (generateClayImage sample_agent sample_config
               (sample_call_env 1700000000123)) = Returned p1
    /\ outcome (generateClayImage sample_agent
                  (variation_config sample_agent (lit "cute robot") 0 1700000000124)
                  (sample_call_env 1700000000999)) = Returned p2
    /\ p1 <> p2.
Proof.
  destruct timestamped_paths_differ as (Hdiff & _).
  eexists. eexists. split; [reflexivity|]. split; [reflexivity|].
  apply (Hdiff sample_agent sample_agent sample_config
           (variation_config sample_agent (lit "cute robot") 0 1700000000124)
           (sample_call_env 1700000000123) (sample_call_env 1700000000999)
           1700000000123%Z 1700000000124%Z).
  - left. split; reflexivity.
  - right. now exists sample_agent, (lit "cute robot"), 0%nat.
  - reflexivity.
  - reflexivity.
  - unfold JsDate.four_digit_year. lia.
  - unfold JsDate.four_digit_year. lia.
  - discriminate.
Defined.

